(** * commah: mass accretion histories and NFW concentrations

    A shallow embedding of [commah/commah.py] and the properties of its
    numerical engine: input reconciliation ([_checkinput]), the cosmology
    resolver ([getcosmo]), the growth factor, the growth-rate indices
    ([calc_ab]), the accretion integrator ([acc_rate], [MAH]), the
    concentration solver ([COM]) and the orchestrator ([run]).

    Conventions of the embedding.
    - A Python/NumPy float is a real number ([R]); a one-dimensional NumPy
      array is a [list R].  Results that are [nan] or [inf] in IEEE
      arithmetic, a [ZeroDivisionError] and a complex power have no
      counterpart here: a division is the division of the source for a
      divisor that is not zero, a power [x ** y] is the power of the source
      for a positive base [x], and a square root for an argument that is
      not negative.  A property that depends on such a value carries the
      sign of the divisor, of the base or of the argument among its
      hypotheses.
    - A cosmology is a Python [dict]: a [gmap string pyv].  A dict that is
      passed by reference lives in a heap of objects, so that aliasing of the
      caller's dict is visible.  The entries that the program reads as
      numbers are floats; a bool there is outside the embedding.
    - A raised exception is the [Raise] case of [result].
    - cosmolopy, scipy and the named-cosmology tables are collaborators of
      the program; they are fields of the record [collaborators].  Their
      functions are total here: the exception that cosmolopy raises for a
      dict without a key that it reads is not modelled, so that a property
      which says that the program returns is stated from the return of
      the function that calls cosmolopy.
    - [print] diagnostics and the optional output file are not modelled. *)

From Stdlib Require Import Reals Lra Lia.
From stdpp Require Import base option list strings gmap.

Open Scope R_scope.

(** ** Python values and exceptions *)

(** Values stored in a cosmology dict. *)
Inductive pyv : Type :=
| VNum (x : R)
| VBool (b : bool).

Abbreviation dict := (gmap string pyv).

Inductive exn : Type :=
| AssertionError
| KeyError (key : string)
| TypeError
| ValueError
| AttributeError
| IndexError
| UnboundLocalError.

Inductive result (A : Type) : Type :=
| Ok (a : A)
| Raise (e : exn).
Arguments Ok {A} a.
Arguments Raise {A} e.

#[global] Instance result_ret : MRet result := λ A a, Ok a.
#[global] Instance result_bind : MBind result := λ A B k r,
  match r with
  | Ok a => k a
  | Raise e => Raise e
  end.

(** [cosmo['key']] for a key that holds a float.  A bool, which Python
    would read as 0 or 1, is not one of the values that the program stores
    at such a key; it is kept apart with [TypeError]. *)
Definition getitem (cosmo : dict) (key : string) : result R :=
  match cosmo !! key with
  | Some (VNum x) => Ok x
  | Some (VBool _) => Raise TypeError
  | None => Raise (KeyError key)
  end.

(** ** NumPy primitives *)

(** An argument that is either a scalar or a sequence of floats. *)
Inductive pyarg : Type :=
| Scalar (x : R)
| Sequence (l : list R).

(** [np.array(a, ndmin=1, dtype=float)] *)
Definition np_array (a : pyarg) : list R :=
  match a with
  | Scalar x => [x]
  | Sequence l => l
  end.

(** [np.ones_like(a) * x] *)
Definition ones_like_times (a : list R) (x : R) : list R :=
  map (λ _, 1 * x) a.

#[global] Instance Rge_decision (x y : R) : Decision (x >= y) := Rge_dec x y.
#[global] Instance Rle_decision (x y : R) : Decision (x <= y) := Rle_dec x y.
#[global] Instance Rlt_decision (x y : R) : Decision (x < y) := Rlt_dec x y.

(** [np.isclose(a, b)] with the default [rtol=1e-05] and [atol=1e-08]. *)
Definition isclose (a b : R) : bool :=
  bool_decide (Rabs (a - b) <= 1e-8 + 1e-5 * Rabs b).

(** [x ** y] for a float exponent and a positive base [x]; for another
    base the source gives a zero, an infinity, [nan], a complex number or a
    [ZeroDivisionError], and [Rpower] the value one. *)
Definition fpow (x y : R) : R := Rpower x y.

(** [np.log10] *)
Definition log10 (x : R) : R := ln x / ln 10.

(** [zip] of the standard library, as re-implemented by the source. *)
Definition _izip {A B} (xs : list A) (ys : list B) : list (A * B) :=
  zip xs ys.

(** [enumerate] *)
Definition enumerate {A} (xs : list A) : list (nat * A) :=
  zip (seq 0 (length xs)) xs.

(** ** Input reconciliation *)

(** What [_checkinput] returns: the integer [-1], or the tuple
    [(zi, Mi, z, zi.size, Mi.size, lenzout)].  The output redshifts [z] are
    [None] when the caller left the default [z=False]. *)
Inductive checkinput_ret : Type :=
| CheckMinusOne
| CheckTuple (zi Mi : list R) (z : option (list R)) (lenz lenm lenzout : nat).

Definition _checkinput (zi Mi : pyarg) (z : option pyarg) : checkinput_ret :=
  let zi := np_array zi in
  let Mi := np_array Mi in
  let reconciled : option (list R * list R) :=
    if bool_decide (1 < length zi)%nat && bool_decide (1 < length Mi)%nat then
      if bool_decide (length zi ≠ length Mi) then None else Some (zi, Mi)
    else if bool_decide (length zi = 1%nat) && bool_decide (1 < length Mi)%nat
    then Some (ones_like_times Mi (default 0 (zi !! 0%nat)), Mi)
    else if bool_decide (length Mi = 1%nat) && bool_decide (1 < length zi)%nat
    then Some (zi, ones_like_times zi (default 0 (Mi !! 0%nat)))
    else Some (zi, Mi) in
  match reconciled with
  | None => CheckMinusOne
  | Some (zi, Mi) =>
      match z with
      | None => CheckTuple zi Mi None (length zi) (length Mi) 1
      | Some z =>
          let z := np_array z in
          CheckTuple zi Mi (Some z) (length zi) (length Mi) (length z)
      end
  end.

(** ** Loops *)

(** [for x in xs: body], where [s] holds the local variables that the body
    assigns.  The loop stops at the first exception. *)
Fixpoint for_each `{MBind M, MRet M} {A S : Type}
    (xs : list A) (s : S) (body : S → A → M S) : M S :=
  match xs with
  | [] => mret s
  | x :: xs => s' ← body s x; for_each xs s' body
  end.

(** [a[i]] *)
Definition getidx (a : list R) (i : nat) : result R :=
  match a !! i with
  | Some x => Ok x
  | None => Raise IndexError
  end.

(** ** Collaborators *)

(** The libraries the program calls, and the named-cosmology module
    [commah.cosmology_list] (imported as [cg]), whose source is not part of
    the numerical engine.
    - [quad f a b] is [scipy.integrate.quad]: the value and an error
      estimate.
    - [brentq f a b] is [scipy.optimize.brentq]; it raises [ValueError]
      when [f a] and [f b] have the same sign.
    - [set_omega_k_0] is [cosmolopy.distance.set_omega_k_0]: it writes into
      the dict it is given and returns that same dict.
    - [cg name] is the dict built by the function [name] of
      [cosmology_list], a new object at each call.
    - [uninitialised] is the content of memory obtained from
      [np.empty_like].
    - [mass_to_radius], [radius_to_mass] and [sigma_r] are those of
      [cosmolopy.perturbation], for a dict that holds the keys they
      read. *)
Record collaborators : Type := Collaborators {
  mass_to_radius : R → dict → R;
  radius_to_mass : R → dict → R;
  sigma_r : R → R → dict → R * R;
  set_omega_k_0 : dict → dict;
  quad : (R → R) → R → R → R * R;
  brentq : (R → R) → R → R → result R;
  cg : string → dict;
  uninitialised : nat → R;
}.

Section commah.
Context (ext : collaborators).

(** [np.empty_like(a)] *)
Definition empty_like (a : list R) : list R :=
  uninitialised ext <$> seq 0 (length a).

(** ** A-scaling *)

Definition _delta_sigma (cosmo : dict) : result R :=
  let M8_cosmo := radius_to_mass ext 8 cosmo in
  sigma_8 ← getitem cosmo "sigma_8";
  n ← getitem cosmo "n";
  let perturbed_A := (0.796 / sigma_8) * fpow (M8_cosmo / 2.5e14) ((n - 0.963) / 6) in
  Ok perturbed_A.

(** [str.lower], on ASCII letters. *)
Definition ascii_lower (c : Ascii.ascii) : Ascii.ascii :=
  let n := Ascii.nat_of_ascii c in
  if (65 <=? n)%nat && (n <=? 90)%nat then Ascii.ascii_of_nat (n + 32) else c.

Fixpoint lower (s : string) : string :=
  match s with
  | String.EmptyString => String.EmptyString
  | String.String c s => String.String (ascii_lower c) (lower s)
  end.

(** The [cosmology] argument: the name of a cosmology or a dict. *)
Inductive cosmology_val : Type :=
| NameV (name : string)
| DictV (cosmo : dict).

(** Values from Correa 15c *)
Definition Ascaling_table : gmap string R :=
  list_to_map
    [("dragons", 887); ("wmap1", 853); ("wmap3", 850);
     ("wmap5", 887); ("wmap7", 887); ("wmap9", 950);
     ("wmap1_lss", 853); ("wmap3_mean", 850);
     ("wmap5_ml", 887); ("wmap5_lss", 887);
     ("wmap7_lss", 887);
     ("planck13", 880); ("planck15", 880)].

Definition getAscaling (cosmology : cosmology_val) (newcosmo : bool) : result R :=
  if newcosmo then
    match cosmology with
    | DictV cosmo =>
        (* Scale from default WMAP5 cosmology *)
        match Ascaling_table !! "wmap5" with
        | Some A_wmap5 =>
            ds ← _delta_sigma cosmo;
            Ok (A_wmap5 * ds)
        | None => Raise (KeyError "wmap5")
        end
    | NameV _ => Raise TypeError
    end
  else
    match cosmology with
    | NameV name =>
        match Ascaling_table !! lower name with
        | Some A_scaling => Ok A_scaling
        | None => Raise UnboundLocalError
        end
    | DictV _ => Raise AttributeError
    end.

(** ** Growth factor *)

Definition zmax : R := 200.

(** The integrand of the growth integral, where the squared Hubble rate
    [omega_M_0*(1+z)^3 + omega_lambda_0] is positive. *)
Definition growth_integrand (omega_M_0 omega_lambda_0 : R) (z : R) : R :=
  (1 + z) / fpow (omega_M_0 * (1 + z) ^ 3 + omega_lambda_0) 1.5.

(** The two density parameters are read when the integrand is first called
    by [quad]. *)
Definition _int_growth (z : R) (cosmo : dict) : result R :=
  if decide (z < zmax) then
    omega_M_0 ← getitem cosmo "omega_M_0";
    omega_lambda_0 ← getitem cosmo "omega_lambda_0";
    let '(y, yerr) := quad ext (growth_integrand omega_M_0 omega_lambda_0) z zmax in
    Ok y
  else Raise AssertionError.

Definition growthfactor (z : R) (norm : bool) (cosmo : dict) : result R :=
  omega_M_0 ← getitem cosmo "omega_M_0";
  omega_lambda_0 ← getitem cosmo "omega_lambda_0";
  let H := sqrt (omega_M_0 * (1 + z) ^ 3 + omega_lambda_0) in
  ig ← _int_growth z cosmo;
  let growthval := H * ig in
  if norm then
    ig0 ← _int_growth 0 cosmo;
    Ok (growthval / ig0)
  else Ok growthval.

Definition _deriv_growth (z : R) (cosmo : dict) : result R :=
  omega_M_0 ← getitem cosmo "omega_M_0";
  omega_lambda_0 ← getitem cosmo "omega_lambda_0";
  let inv_h := fpow (omega_M_0 * (1 + z) ^ 3 + omega_lambda_0) (-0.5) in
  let fz := (1 + z) * inv_h ^ 3 in
  g1 ← growthfactor z true cosmo;
  omega_M_0' ← getitem cosmo "omega_M_0";
  g2 ← growthfactor z true cosmo;
  ig ← _int_growth z cosmo;
  let deriv_g :=
    g1 * (inv_h ^ 2) * 1.5 * omega_M_0' * (1 + z) ^ 2 - fz * g2 / ig in
  Ok deriv_g.

(** ** Concentration residual and formation redshift *)

Definition _minimize_c (c z a_tilde b_tilde Ascaling omega_M_0 omega_lambda_0 : R) : R :=
  let Y1 := ln 2 - 0.5 in
  let Yc := ln (1 + c) - c / (1 + c) in
  let f1 := Y1 / Yc in
  let rho_2 := 200 * c ^ 3 * Y1 / Yc in
  let zf := fpow (((1 + z) ^ 3 + omega_lambda_0 / omega_M_0) * (rho_2 / Ascaling)
                  - omega_lambda_0 / omega_M_0) (1 / 3) - 1 in
  let f2 := fpow (1 + zf - z) a_tilde * exp ((zf - z) * b_tilde) in
  f1 - f2.

Definition formationz (c z Ascaling omega_M_0 omega_lambda_0 : R) : R :=
  let Y1 := ln 2 - 0.5 in
  let Yc := ln (1 + c) - c / (1 + c) in
  let rho_2 := 200 * (c ^ 3) * Y1 / Yc in
  let zf := fpow (((1 + z) ^ 3 + omega_lambda_0 / omega_M_0) * (rho_2 / Ascaling)
                  - omega_lambda_0 / omega_M_0) (1 / 3) - 1 in
  zf.

(** ** Growth-rate indices *)

Definition calc_ab (zi Mi : R) (cosmo : dict) : result (R * R) :=
  let zf := -0.0064 * (log10 Mi) ^ 2 + 0.0237 * log10 Mi + 1.8837 in
  let q := 4.137 * fpow zf (-0.9476) in
  let R_Mass := mass_to_radius ext Mi cosmo in
  let Rq_Mass := mass_to_radius ext (Mi / q) cosmo in
  let '(sig, err_sig) := sigma_r ext R_Mass 0 cosmo in
  let '(sigq, err_sigq) := sigma_r ext Rq_Mass 0 cosmo in
  let f := fpow (sigq ^ 2 - sig ^ 2) (-0.5) in
  dg ← _deriv_growth zi cosmo;
  gf ← growthfactor zi true cosmo;
  let a_tilde := (sqrt (2 / PI) * 1.686 * dg / gf ^ 2 + 1) * f in
  let b_tilde := - f in
  Ok (a_tilde, b_tilde).

(** ** Accretion rate and mass history *)

Definition acc_rate (z zi Mi : R) (cosmo : dict) : result (R * R) :=
  '(a_tilde, b_tilde) ← calc_ab zi Mi cosmo;
  let Mz := Mi * fpow (1 + z - zi) a_tilde * exp (b_tilde * (z - zi)) in
  h ← getitem cosmo "h";
  omega_M_0 ← getitem cosmo "omega_M_0";
  omega_lambda_0 ← getitem cosmo "omega_lambda_0";
  let dMdt := 71.6 * (Mz / 1e12) * (h / 0.7) *
              (- a_tilde / (1 + z - zi) - b_tilde) * (1 + z) *
              sqrt (omega_M_0 * (1 + z) ^ 3 + omega_lambda_0) in
  Ok (dMdt, Mz).

Definition MAH (z : pyarg) (zi Mi : R) (cosmo : dict) : result (list R * list R) :=
  let z := np_array z in
  let dMdt_array := empty_like z in
  let Mz_array := empty_like z in
  for_each (enumerate z) (dMdt_array, Mz_array)
    (λ '(dMdt_array, Mz_array) '(i_ind, zval),
      '(dMdt, Mz) ← acc_rate zval zi Mi cosmo;
      Ok (<[i_ind := dMdt]> dMdt_array, <[i_ind := Mz]> Mz_array)).

(** ** Concentration *)

(** The root-finding call of [COM] for one redshift and mass. *)
Definition COM_root (zval a_tilde b_tilde : R) (cosmo : dict) : result R :=
  A_scaling ← getitem cosmo "A_scaling";
  omega_M_0 ← getitem cosmo "omega_M_0";
  omega_lambda_0 ← getitem cosmo "omega_lambda_0";
  brentq ext
    (λ c, _minimize_c c zval a_tilde b_tilde A_scaling omega_M_0 omega_lambda_0)
    2 1000.

(** The body of the loop of [COM]: the values [(c, sig, nu, zf)] stored for
    one redshift and mass. *)
Definition COM_row (zval Mval : R) (cosmo : dict) : result (R * R * R * R) :=
  '(a_tilde, b_tilde) ← calc_ab zval Mval cosmo;
  c ← COM_root zval a_tilde b_tilde cosmo;
  if isclose c 0 then
    Ok (-1, -1, -1, -1)
  else
    A_scaling ← getitem cosmo "A_scaling";
    omega_M_0 ← getitem cosmo "omega_M_0";
    omega_lambda_0 ← getitem cosmo "omega_lambda_0";
    let zf := formationz c zval A_scaling omega_M_0 omega_lambda_0 in
    let R_Mass := mass_to_radius ext Mval cosmo in
    let '(sig, err_sig) := sigma_r ext R_Mass 0 cosmo in
    gf ← growthfactor zval true cosmo;
    let nu := 1.686 / (sig * gf) in
    Ok (c, sig, nu, zf).

Definition COM (z M : pyarg) (cosmo : dict)
  : result (list R * list R * list R * list R) :=
  let z := np_array z in
  let M := np_array M in
  let c_array := empty_like z in
  let sig_array := empty_like z in
  let nu_array := empty_like z in
  let zf_array := empty_like z in
  for_each (enumerate (_izip z M)) (c_array, sig_array, nu_array, zf_array)
    (λ '(c_array, sig_array, nu_array, zf_array) '(i_ind, (zval, Mval)),
      '(c, sig, nu, zf) ← COM_row zval Mval cosmo;
      Ok (<[i_ind := c]> c_array, <[i_ind := sig]> sig_array,
          <[i_ind := nu]> nu_array, <[i_ind := zf]> zf_array)).

(** ** The heap of dicts and the trace of calls *)

Definition loc : Type := positive.

(** What [run] does, in order: the calls of the resolver and of the two
    solvers with their arguments, and the rows written to the dataset. *)
Inductive event : Type :=
| CallGetcosmo
| CallMAH (z : list R) (zi Mi : R)
| CallCOM (z M : list R)
| SetItem (i_ind j_ind : nat) (row : list R).

Record world : Type := World {
  heap : gmap loc dict;
  trace : list event;
}.

Definition W (A : Type) : Type := world → result A * world.

#[global] Instance W_ret : MRet W := λ A a w, (Ok a, w).
#[global] Instance W_bind : MBind W := λ A B k m w,
  match m w with
  | (Ok a, w') => k a w'
  | (Raise e, w') => (Raise e, w')
  end.

Definition lift {A} (r : result A) : W A := λ w, (r, w).

Definition emit (e : event) : W () :=
  λ w, (Ok (), World (heap w) (trace w ++ [e])).

(** The dict a reference points to. *)
Definition deref (ref : loc) : W dict :=
  λ w, (Ok (default ∅ (heap w !! ref)), w).

(** In-place change of the dict a reference points to. *)
Definition modify (ref : loc) (f : dict → dict) : W () :=
  λ w, (Ok (), World (<[ref := f (default ∅ (heap w !! ref))]> (heap w)) (trace w)).

(** [ref.update({key: v})] *)
Definition update (ref : loc) (key : string) (v : pyv) : W () :=
  modify ref <[key := v]>.

(** A new dict object. *)
Definition alloc (d : dict) : W loc :=
  λ w, let ref := fresh (dom (heap w)) in
       (Ok ref, World (<[ref := d]> (heap w)) (trace w)).

(** ** Cosmology resolver *)

(** The [cosmology] argument of [getcosmo] and [run]: a name, or a
    reference to the caller's dict. *)
Inductive cosmology_arg : Type :=
| CosmoName (name : string)
| CosmoDict (ref : loc).

Definition defaultcosmologies : gmap string dict :=
  list_to_map
    [("dragons", cg ext "DRAGONS"); ("wmap1", cg ext "WMAP1_Mill");
     ("wmap3", cg ext "WMAP3_ML"); ("wmap5", cg ext "WMAP5_mean");
     ("wmap7", cg ext "WMAP7_ML"); ("wmap9", cg ext "WMAP9_ML");
     ("wmap1_lss", cg ext "WMAP1_2dF_mean");
     ("wmap3_mean", cg ext "WMAP3_mean");
     ("wmap5_ml", cg ext "WMAP5_ML");
     ("wmap5_lss", cg ext "WMAP5_BAO_SN_mean");
     ("wmap7_lss", cg ext "WMAP7_BAO_H0_mean");
     ("planck13", cg ext "Planck_2013");
     ("planck15", cg ext "Planck_2015")].

Definition getcosmo (cosmology : cosmology_arg) : W loc :=
  cosmo ← match cosmology with
          | CosmoDict ref =>
              (* cosmo = cosmology: the same object *)
              let cosmo := ref in
              d ← deref ref;
              _ ← (if bool_decide (d !! "A_scaling" = None) then
                     A_scaling ← lift (getAscaling (DictV d) true);
                     update cosmo "A_scaling" (VNum A_scaling)
                   else mret ());
              _ ← for_each (map fst (map_to_list (cg ext "WMAP5_mean"))) ()
                    (λ _ paramnames,
                      d ← deref ref;
                      if bool_decide (d !! paramnames = None) then
                        update cosmo paramnames (VNum 0)
                      else mret ());
              mret cosmo
          | CosmoName name =>
              match defaultcosmologies !! lower name with
              | Some d =>
                  cosmo ← alloc d;
                  A_scaling ← lift (getAscaling (NameV name) false);
                  _ ← update cosmo "A_scaling" (VNum A_scaling);
                  mret cosmo
              | None => lift (Raise UnboundLocalError)
              end
          end;
  _ ← modify cosmo (set_omega_k_0 ext);
  d ← deref cosmo;
  omega_b_0 ← lift (getitem d "omega_b_0");
  _ ← (if bool_decide (omega_b_0 > 0) then
         update cosmo "baryonic_effects" (VBool true)
       else update cosmo "baryonic_effects" (VBool false));
  mret cosmo.

(** ** Orchestrator *)

(** What [run] returns: the integer [-1], the dataset, or the dataset with
    the cosmology.  A row of the dataset is the tuple of its columns. *)
Inductive run_ret : Type :=
| RunMinusOne
| RunDataset (dataset : list (list (list R)))
| RunDatasetCosmo (dataset : list (list (list R))) (cosmo : loc).

(** [np.zeros((lenm, lenzout), dtype=...)] for a dtype of [ncols] floats. *)
Definition zeros (lenm lenzout ncols : nat) : list (list (list R)) :=
  replicate lenm (replicate lenzout (replicate ncols 0)).

(** [dataset[i_ind, j_ind] = row] *)
Definition setitem (dataset : list (list (list R))) (i_ind j_ind : nat)
    (row : list R) : W (list (list (list R))) :=
  match dataset !! i_ind with
  | Some line =>
      if bool_decide (j_ind < length line)%nat then
        _ ← emit (SetItem i_ind j_ind row);
        mret (<[i_ind := <[j_ind := row]> line]> dataset)
      else lift (Raise IndexError)
  | None => lift (Raise IndexError)
  end.

(** The output redshifts of a halo that starts at [zval]. *)
Definition targets (z : option (list R)) (zval : R) : list R :=
  match z with
  | None => [zval]
  | Some z => filter (λ x, x >= zval) z
  end.

(** The body of the loop of [run] over the haloes. *)
Definition run_halo (cosmo : loc) (z : option (list R)) (com mah : bool)
    (dataset : list (list (list R))) (i_ind : nat) (zval Mval : R)
  : W (list (list (list R))) :=
  let ztemp := targets z zval in
  if bool_decide (ztemp ≠ []) then
    kw ← deref cosmo;
    _ ← emit (CallMAH ztemp zval Mval);
    '(dMdt, Mz) ← lift (MAH (Sequence ztemp) zval Mval kw);
    if mah && com then
      kw ← deref cosmo;
      _ ← emit (CallCOM ztemp Mz);
      '(c, sig, nu, zf) ← lift (COM (Sequence ztemp) (Sequence Mz) kw);
      for_each (enumerate ztemp) dataset
        (λ dataset '(j_ind, j_val),
          zj ← lift (getidx ztemp j_ind);
          dMdtj ← lift (getidx dMdt j_ind);
          Mzj ← lift (getidx Mz j_ind);
          cj ← lift (getidx c j_ind);
          sigj ← lift (getidx sig j_ind);
          nuj ← lift (getidx nu j_ind);
          zfj ← lift (getidx zf j_ind);
          setitem dataset i_ind j_ind
            [zval; Mval; zj; dMdtj; Mzj; cj; sigj; nuj; zfj])
    else if mah then
      for_each (enumerate ztemp) dataset
        (λ dataset '(j_ind, j_val),
          zj ← lift (getidx ztemp j_ind);
          dMdtj ← lift (getidx dMdt j_ind);
          Mzj ← lift (getidx Mz j_ind);
          setitem dataset i_ind j_ind [zval; Mval; zj; dMdtj; Mzj])
    else
      kw ← deref cosmo;
      _ ← emit (CallCOM ztemp Mz);
      '(c, sig, nu, zf) ← lift (COM (Sequence ztemp) (Sequence Mz) kw);
      for_each (enumerate ztemp) dataset
        (λ dataset '(j_ind, j_val),
          zj ← lift (getidx ztemp j_ind);
          cj ← lift (getidx c j_ind);
          sigj ← lift (getidx sig j_ind);
          nuj ← lift (getidx nu j_ind);
          zfj ← lift (getidx zf j_ind);
          setitem dataset i_ind j_ind [zval; Mval; zj; cj; sigj; nuj; zfj])
  else mret dataset.

Definition run (cosmology : cosmology_arg) (zi Mi : pyarg) (z : option pyarg)
    (com mah retcosmo : bool) : W run_ret :=
  if negb com && negb mah then
    mret RunMinusOne
  else
    match _checkinput zi Mi z with
    | CheckMinusOne => mret RunMinusOne
    | CheckTuple zi Mi z lenz lenm lenzout =>
        _ ← emit CallGetcosmo;
        cosmo ← getcosmo cosmology;
        let dataset :=
          zeros lenm lenzout (if mah && com then 9 else if mah then 5 else 7) in
        dataset ← for_each (enumerate (_izip zi Mi)) dataset
                    (λ dataset '(i_ind, (zval, Mval)),
                      run_halo cosmo z com mah dataset i_ind zval Mval);
        if retcosmo then mret (RunDatasetCosmo dataset cosmo)
        else mret (RunDataset dataset)
    end.

End commah.

(** ** Reading a trace *)

(** The arguments [(z, M)] of the calls of [COM], in order. *)
Definition com_calls (evs : list event) : list (list R * list R) :=
  omap (λ e, match e with CallCOM z M => Some (z, M) | _ => None end) evs.

(** One [()] per call of the resolver. *)
Definition getcosmo_calls (evs : list event) : list () :=
  omap (λ e, match e with CallGetcosmo => Some () | _ => None end) evs.

(** The rows written to the dataset, in order, with their two indices. *)
Definition written (evs : list event) : list (nat * nat * list R) :=
  omap (λ e, match e with SetItem i j row => Some (i, j, row) | _ => None end)
    evs.

(** [w'] differs from [w] at most in the dict that [ref] points to, and
    holds the same trace. *)
Definition only_at (ref : loc) (w w' : world) : Prop :=
  trace w' = trace w ∧ ∀ l, l ≠ ref → heap w' !! l = heap w !! l.

(** What one iteration of the loop of [run] leaves in the trace, for a halo
    with output redshifts [ztemp], cosmology [kw] and outcome [r]. *)
Definition halo_outcome (ext : collaborators) (kw : dict) (com mah : bool)
    (dataset : list (list (list R))) (i_ind : nat) (zval Mval : R)
    (ztemp : list R) (evs : list event)
    (r : result (list (list (list R)))) : Prop :=
  getcosmo_calls evs = []
  ∧ (ztemp = [] → evs = [] ∧ r = Ok dataset)
  ∧ (∀ zt M, (zt, M) ∈ com_calls evs →
       com || negb mah = true ∧ zt = ztemp
       ∧ ∃ dMdt, MAH ext (Sequence ztemp) zval Mval kw = Ok (dMdt, M))
  ∧ (∀ dMdt Mz, ztemp ≠ [] → com || negb mah = true →
       MAH ext (Sequence ztemp) zval Mval kw = Ok (dMdt, Mz) →
       (ztemp, Mz) ∈ com_calls evs)
  ∧ (∀ i j row, (i, j, row) ∈ written evs →
       i = i_ind ∧ row !! 0%nat = Some zval ∧ row !! 1%nat = Some Mval
       ∧ ∃ zr, ztemp !! j = Some zr ∧ row !! 2%nat = Some zr)
  ∧ (∀ dataset', r = Ok dataset' →
       (written evs).*1 = (λ j, (i_ind, j)) <$> seq 0 (length ztemp)
       ∧ (com || negb mah = true → ztemp ≠ [] →
            ∃ dMdt Mz,
              MAH ext (Sequence ztemp) zval Mval kw = Ok (dMdt, Mz)
              ∧ com_calls evs = [(ztemp, Mz)])
       ∧ (com || negb mah = false → com_calls evs = [])).

(** The indices [(i_ind, j_ind)] of the rows of a table that holds, for
    every halo, one row per output redshift of that halo. *)
Definition row_indices (z : option (list R)) (samples : list (R * R))
  : list (nat * nat) :=
  mjoin (imap (λ i s, (λ j, (i, j)) <$> seq 0 (length (targets z s.1)))
           samples).

(** The calls of [COM] of a run are those of [calls]: one call per halo
    that has output redshifts, with these redshifts and with the masses
    that [MAH] returns for the halo. *)
Definition com_calls_follow_mah (ext : collaborators) (kw : dict)
    (z : option (list R)) (samples : list (R * R))
    (calls : list (list R * list R)) : Prop :=
  Forall2 (λ s call,
             call.1 = targets z s.1
             ∧ ∃ dMdt, MAH ext (Sequence call.1) s.1 s.2 kw = Ok (dMdt, call.2))
    (filter (λ s, targets z s.1 ≠ []) samples) calls.

(** ** Sample inputs *)

(** The cosmology that the docstrings give as an example of a dict. *)
Definition docstring_cosmo : dict :=
  list_to_map
    [("N_nu", VNum 0); ("Y_He", VNum 0.24); ("h", VNum 0.702);
     ("n", VNum 0.963); ("omega_M_0", VNum 0.275);
     ("omega_b_0", VNum 0.0458); ("omega_lambda_0", VNum 0.725);
     ("omega_n_0", VNum 0.0); ("sigma_8", VNum 0.816); ("t_0", VNum 13.76);
     ("tau", VNum 0.088); ("z_reion", VNum 10.6)].

(** The same cosmology once resolved, with its [A_scaling]. *)
Definition resolved_cosmo : dict :=
  <["A_scaling" := VNum 887]> docstring_cosmo.

(** The midpoint rule, a one-point quadrature. *)
Definition midpoint_quad (f : R → R) (a b : R) : R * R :=
  ((b - a) * f ((a + b) / 2), 0).

(** A root-finder that checks the sign change and answers with the middle
    of the bracket. *)
Definition midpoint_brentq (f : R → R) (a b : R) : result R :=
  if bool_decide (f a * f b <= 0) then Ok ((a + b) / 2) else Raise ValueError.

(** Curvature from the two densities, written into the dict when absent. *)
Definition curvature_set_omega_k_0 (cosmo : dict) : dict :=
  match cosmo !! "omega_k_0", cosmo !! "omega_M_0", cosmo !! "omega_lambda_0" with
  | None, Some (VNum omega_M_0), Some (VNum omega_lambda_0) =>
      <["omega_k_0" := VNum (1 - omega_M_0 - omega_lambda_0)]> cosmo
  | _, _, _ => cosmo
  end.

(** Simple stand-ins for the collaborators: a power-law mass variance, the
    midpoint rule, and every named cosmology equal to the docstring one. *)
Definition sample_collaborators : collaborators := {|
  mass_to_radius := λ M _, Rpower M (1 / 3);
  radius_to_mass := λ r _, r ^ 3;
  sigma_r := λ r _ _, (/ r, 0);
  set_omega_k_0 := curvature_set_omega_k_0;
  quad := midpoint_quad;
  brentq := midpoint_brentq;
  cg := λ _, docstring_cosmo;
  uninitialised := λ _, 0;
|}.

(** The resolved cosmology after [getcosmo] has written the curvature and
    the baryonic flag. *)
Definition completed_cosmo : dict :=
  <["baryonic_effects" := VBool true]>
    (<["omega_k_0" := VNum (1 - 0.275 - 0.725)]> resolved_cosmo).

(** The same collaborators with a root-finder that answers zero. *)
Definition degenerate_collaborators : collaborators := {|
  mass_to_radius := mass_to_radius sample_collaborators;
  radius_to_mass := radius_to_mass sample_collaborators;
  sigma_r := sigma_r sample_collaborators;
  set_omega_k_0 := set_omega_k_0 sample_collaborators;
  quad := quad sample_collaborators;
  brentq := λ _ _ _, Ok 0;
  cg := cg sample_collaborators;
  uninitialised := uninitialised sample_collaborators;
|}.

(** ** Assumptions on cosmologies and collaborators *)

(** A cosmology record is valid when it holds a positive matter density, a
    dark-energy density that is not negative, and the curvature density
    that completes them to one:
    [omega_M_0 + omega_lambda_0 + omega_k_0 = 1]. *)
Definition valid_cosmology (cosmo : dict) : Prop :=
  ∃ omega_M_0 omega_lambda_0 omega_k_0,
    cosmo !! "omega_M_0" = Some (VNum omega_M_0)
    ∧ cosmo !! "omega_lambda_0" = Some (VNum omega_lambda_0)
    ∧ cosmo !! "omega_k_0" = Some (VNum omega_k_0)
    ∧ 0 < omega_M_0 ∧ 0 <= omega_lambda_0
    ∧ omega_M_0 + omega_lambda_0 + omega_k_0 = 1.

(** The quadrature of a positive integrand over a proper interval is
    positive. *)
Definition positive_quadrature (ext : collaborators) : Prop :=
  ∀ f a b, a < b → (∀ x, a <= x <= b → 0 < f x) → 0 < (quad ext f a b).1.

(** The root returned by [brentq] lies in the bracket it was given. *)
Definition brentq_in_bracket (ext : collaborators) : Prop :=
  ∀ f a b x, a <= b → brentq ext f a b = Ok x → a <= x <= b.

(** ** The generator [_izip], for any number of iterables *)

(** One round of the generator: the next element of every iterator, in
    order, or [None] as soon as one of them is exhausted. *)
Fixpoint izip_round {A} (iterators : list (list A))
  : option (list A * list (list A)) :=
  match iterators with
  | [] => Some ([], [])
  | it :: iterators =>
      match it with
      | [] => None
      | elem :: it =>
          '(result, rest) ← izip_round iterators;
          Some (elem :: result, it :: rest)
      end
  end.

(** [while iterators: ...], at most [fuel] rounds. *)
Fixpoint izip_loop {A} (fuel : nat) (iterators : list (list A))
  : list (list A) :=
  match fuel with
  | O => []
  | S fuel =>
      match iterators with
      | [] => []
      | _ :: _ =>
          match izip_round iterators with
          | None => []
          | Some (result, rest) => result :: izip_loop fuel rest
          end
      end
  end.

(** The tuples that [_izip] yields for the given iterables.  One round more
    than the first iterable has elements is enough fuel. *)
Definition _izip_generator {A} (iterables : list (list A)) : list (list A) :=
  izip_loop (S (length (default [] (head iterables)))) iterables.

(** ** Duffy et al. (2008) concentrations *)

Definition cduffy (z M : R) (vir : string) (relaxed : bool) : result R :=
  params ← (if bool_decide (vir = "200crit") then
              if relaxed then Ok [6.71; -0.091; -0.44]
              else Ok [5.71; -0.084; -0.47]
            else if bool_decide (vir = "tophat") then
              if relaxed then Ok [9.23; -0.090; -0.69]
              else Ok [7.85; -0.081; -0.71]
            else if bool_decide (vir = "200mean") then
              if relaxed then Ok [11.93; -0.090; -0.99]
              else Ok [10.14; -0.081; -1.01]
            else Raise UnboundLocalError);
  p0 ← getidx params 0;
  p1 ← getidx params 1;
  p2 ← getidx params 2;
  Ok (p0 * fpow (M / (2e12 / 0.72)) p1 * fpow (1 + z) p2).

(** ** The two halves of the resolver *)

(** The first half of [getcosmo]: the dict that [cosmo] is bound to. *)
Definition resolve_cosmology (ext : collaborators) (cosmology : cosmology_arg)
  : W loc :=
  match cosmology with
  | CosmoDict ref =>
      let cosmo := ref in
      d ← deref ref;
      _ ← (if bool_decide (d !! "A_scaling" = None) then
             A_scaling ← lift (getAscaling ext (DictV d) true);
             update cosmo "A_scaling" (VNum A_scaling)
           else mret ());
      _ ← for_each (map fst (map_to_list (cg ext "WMAP5_mean"))) ()
            (λ _ paramnames,
              d ← deref ref;
              if bool_decide (d !! paramnames = None) then
                update cosmo paramnames (VNum 0)
              else mret ());
      mret cosmo
  | CosmoName name =>
      match defaultcosmologies ext !! lower name with
      | Some d =>
          cosmo ← alloc d;
          A_scaling ← lift (getAscaling ext (NameV name) false);
          _ ← update cosmo "A_scaling" (VNum A_scaling);
          mret cosmo
      | None => lift (Raise UnboundLocalError)
      end
  end.

(** The second half of [getcosmo]: the curvature and the baryonic flag. *)
Definition finish_cosmology (ext : collaborators) (cosmo : loc) : W loc :=
  _ ← modify cosmo (set_omega_k_0 ext);
  d ← deref cosmo;
  omega_b_0 ← lift (getitem d "omega_b_0");
  _ ← (if bool_decide (omega_b_0 > 0) then
         update cosmo "baryonic_effects" (VBool true)
       else update cosmo "baryonic_effects" (VBool false));
  mret cosmo.

(** [set_omega_k_0] keeps the entries of the dict it is given. *)
Definition set_omega_k_0_only_adds (ext : collaborators) : Prop :=
  ∀ d : dict, d ⊆ set_omega_k_0 ext d.

(** ** The table that [run] returns *)

(** The tuple that [run] assigns to [dataset[i_ind, j_ind]] for the halo
    [(zval, Mval)] with the output redshifts [ztemp], in the cosmology
    [kw]. *)
Definition halo_row (ext : collaborators) (kw : dict) (com mah : bool)
    (zval Mval : R) (ztemp : list R) (j_ind : nat) : result (list R) :=
  '(dMdt, Mz) ← MAH ext (Sequence ztemp) zval Mval kw;
  if mah && com then
    '(c, sig, nu, zf) ← COM ext (Sequence ztemp) (Sequence Mz) kw;
    zj ← getidx ztemp j_ind;
    dMdtj ← getidx dMdt j_ind;
    Mzj ← getidx Mz j_ind;
    cj ← getidx c j_ind;
    sigj ← getidx sig j_ind;
    nuj ← getidx nu j_ind;
    zfj ← getidx zf j_ind;
    Ok [zval; Mval; zj; dMdtj; Mzj; cj; sigj; nuj; zfj]
  else if mah then
    zj ← getidx ztemp j_ind;
    dMdtj ← getidx dMdt j_ind;
    Mzj ← getidx Mz j_ind;
    Ok [zval; Mval; zj; dMdtj; Mzj]
  else
    '(c, sig, nu, zf) ← COM ext (Sequence ztemp) (Sequence Mz) kw;
    zj ← getidx ztemp j_ind;
    cj ← getidx c j_ind;
    sigj ← getidx sig j_ind;
    nuj ← getidx nu j_ind;
    zfj ← getidx zf j_ind;
    Ok [zval; Mval; zj; cj; sigj; nuj; zfj].

(** [dataset[i_ind, j_ind]] *)
Definition cell (dataset : list (list (list R))) (i_ind j_ind : nat)
  : option (list R) :=
  line ← dataset !! i_ind; line !! j_ind.

(** How the loop of [run] fails for a halo: in [MAH], or in [COM] when the
    concentrations are computed. *)
Definition halo_raises (ext : collaborators) (kw : dict) (com mah : bool)
    (zval Mval : R) (ztemp : list R) (e : exn) : Prop :=
  MAH ext (Sequence ztemp) zval Mval kw = Raise e
  ∨ ∃ dMdt Mz,
      MAH ext (Sequence ztemp) zval Mval kw = Ok (dMdt, Mz)
      ∧ (com = true ∨ mah = false)
      ∧ COM ext (Sequence ztemp) (Sequence Mz) kw = Raise e.

(** ** An exact quadrature *)

(** The quadrature behaves as an integral at the lower bound [z]: its
    derivative with respect to the lower bound is minus the integrand. *)
Definition quad_lower_bound_derivative (ext : collaborators) (f : R → R)
    (z b : R) : Prop :=
  derivable_pt_lim (λ x, (quad ext f x b).1) z (- f z).

(** A one-point rule that samples the integrand at zero. *)
Definition anchored_quad (f : R → R) (a b : R) : R * R :=
  ((b - a) * f 0, 0).

(** The sample collaborators with that rule. *)
Definition anchored_collaborators : collaborators := {|
  mass_to_radius := mass_to_radius sample_collaborators;
  radius_to_mass := radius_to_mass sample_collaborators;
  sigma_r := sigma_r sample_collaborators;
  set_omega_k_0 := set_omega_k_0 sample_collaborators;
  quad := anchored_quad;
  brentq := brentq sample_collaborators;
  cg := cg sample_collaborators;
  uninitialised := uninitialised sample_collaborators;
|}.

(** ** An open universe *)

(** The resolved docstring cosmology with less matter and less dark energy:
    the two densities add up to [0.8]. *)
Definition open_cosmo : dict :=
  <["omega_lambda_0" := VNum 0.5]> (<["omega_M_0" := VNum 0.3]> resolved_cosmo).

(** That cosmology after [getcosmo] has written the curvature and the
    baryonic flag. *)
Definition open_completed_cosmo : dict :=
  <["baryonic_effects" := VBool true]>
    (<["omega_k_0" := VNum (1 - 0.3 - 0.5)]> open_cosmo).

(** ** The inputs of the growth-rate indices *)

(** The fit of [calc_ab] whose power gives the mass ratio [q]. *)
Definition half_mass_fit (Mi : R) : R :=
  -0.0064 * (log10 Mi) ^ 2 + 0.0237 * log10 Mi + 1.8837.

(** [sigq^2 - sig^2] in [calc_ab]: the mass variance at the radius of the
    mass [Mi/q] minus the one at the radius of [Mi]. *)
Definition variance_gap (ext : collaborators) (Mi : R) (cosmo : dict) : R :=
  let q := 4.137 * fpow (half_mass_fit Mi) (-0.9476) in
  let R_Mass := mass_to_radius ext Mi cosmo in
  let Rq_Mass := mass_to_radius ext (Mi / q) cosmo in
  (sigma_r ext Rq_Mass 0 cosmo).1 ^ 2 - (sigma_r ext R_Mass 0 cosmo).1 ^ 2.

(** The value of the quadrature for the growth integral from [z] is at
    most [1 / (1.5 * omega_M_0 * (1+z) * H(z))], with [H] the Hubble rate.
    For a positive matter density the integrand is at most minus the slope
    of that function of [z], which is positive at the upper bound: the
    integral itself is within this bound. *)
Definition growth_integral_bounded (ext : collaborators)
    (omega_M_0 omega_lambda_0 z : R) : Prop :=
  (quad ext (growth_integrand omega_M_0 omega_lambda_0) z zmax).1
  * (1.5 * omega_M_0 * (1 + z)
     * sqrt (omega_M_0 * (1 + z) ^ 3 + omega_lambda_0)) <= 1.

(** ** A root-finder that fails for one halo *)

(** The completed docstring cosmology with the scaling [A_scaling = 25]. *)
Definition marked_cosmo : dict := <["A_scaling" := VNum 25]> completed_cosmo.

(** The residual of [_minimize_c] at the concentration one, for the halo of
    mass one at redshift zero. *)
Definition marked_residual : R :=
  match calc_ab sample_collaborators 0 1 marked_cosmo with
  | Ok (a_tilde, b_tilde) => _minimize_c 1 0 a_tilde b_tilde 25 0.275 0.725
  | Raise _ => 0
  end.

(** A root-finder that answers zero for the residual of that halo, which it
    recognises by its value at the concentration one, and the middle of the
    bracket for any other function. *)
Definition marked_brentq (f : R → R) (a b : R) : result R :=
  if Req_dec_T (f 1) marked_residual then Ok 0 else Ok ((a + b) / 2).

(** The sample collaborators with that root-finder. *)
Definition marked_collaborators : collaborators := {|
  mass_to_radius := mass_to_radius sample_collaborators;
  radius_to_mass := radius_to_mass sample_collaborators;
  sigma_r := sigma_r sample_collaborators;
  set_omega_k_0 := set_omega_k_0 sample_collaborators;
  quad := quad sample_collaborators;
  brentq := marked_brentq;
  cg := cg sample_collaborators;
  uninitialised := uninitialised sample_collaborators;
|}.

(** A second mass, [10^3.703125], for which the fit of [calc_ab] has the
    same value as for the mass one. *)
Definition twin_mass : R := Rpower 10 3.703125.

(** The table in a value that [run] returns. *)
Definition run_table (v : run_ret) : list (list (list R)) :=
  match v with
  | RunMinusOne => []
  | RunDataset dataset => dataset
  | RunDatasetCosmo dataset _ => dataset
  end.

(** ** Properties of input reconciliation *)

Lemma ones_like_times_repeat (a : list R) (x : R) :
  ones_like_times a x = replicate (length a) x.
Proof.
  unfold ones_like_times. induction a as [|y a IH]; simpl; [done|].
  rewrite IH. f_equal. lra.
Qed.

(** A single mass is replicated over several initial redshifts. *)
Lemma checkinput_scalar_Mi (zi : list R) (m : R) (z : option pyarg) :
  (1 < length zi)%nat →
  _checkinput (Sequence zi) (Scalar m) z
  = CheckTuple zi (replicate (length zi) m) (np_array <$> z)
      (length zi) (length zi) (from_option (λ z, length (np_array z)) 1%nat z).
Proof.
  intros Hlen. unfold _checkinput. cbn [np_array length].
  rewrite (bool_decide_eq_true_2 (1 < length zi)%nat) by done.
  rewrite (bool_decide_eq_false_2 (1 < 1)%nat) by lia.
  rewrite (bool_decide_eq_false_2 (length zi = 1%nat)) by lia.
  rewrite (bool_decide_eq_true_2 (1 = 1)%nat) by done.
  cbn [andb lookup list_lookup default from_option id].
  rewrite ones_like_times_repeat.
  destruct z; cbn; by rewrite ?length_replicate.
Qed.

(** A single initial redshift is replicated over several masses. *)
Lemma checkinput_scalar_zi (x : R) (Mi : list R) (z : option pyarg) :
  (1 < length Mi)%nat →
  _checkinput (Scalar x) (Sequence Mi) z
  = CheckTuple (replicate (length Mi) x) Mi (np_array <$> z)
      (length Mi) (length Mi) (from_option (λ z, length (np_array z)) 1%nat z).
Proof.
  intros Hlen. unfold _checkinput. cbn [np_array length].
  rewrite (bool_decide_eq_false_2 (1 < 1)%nat) by lia.
  rewrite (bool_decide_eq_true_2 (1 = 1)%nat) by done.
  rewrite (bool_decide_eq_true_2 (1 < length Mi)%nat) by done.
  cbn [andb lookup list_lookup default from_option id].
  rewrite ones_like_times_repeat.
  destruct z; cbn; by rewrite ?length_replicate.
Qed.

(** [_checkinput] answers [-1] exactly when both inputs have more than one
    element and their sizes differ. *)
Lemma checkinput_minus_one (zi Mi : pyarg) (z : option pyarg) :
  _checkinput zi Mi z = CheckMinusOne
  ↔ (1 < length (np_array zi))%nat ∧ (1 < length (np_array Mi))%nat
    ∧ length (np_array zi) ≠ length (np_array Mi).
Proof.
  unfold _checkinput.
  repeat case_bool_decide; cbn [andb]; destruct z; split;
    (done || lia || (intros (? & ? & ?); done) || idtac).
Qed.

(** C4. A length-one input is broadcast over the other one: [zi=[0,1]] with
    the scalar [Mi=1e12] gives [Mi=[1e12,1e12]]; the scalar [zi=0] with
    [Mi=[1e10,1e12]] gives [zi=[0,0]]; and [zi=[0,1]] with
    [Mi=[1e10,1e11,1e12]] is rejected as ambiguous ([-1]) instead of
    returning aligned arrays. *)
Theorem checkinput_broadcast :
  (∀ z, _checkinput (Sequence [0; 1]) (Scalar 1e12) z
        = CheckTuple [0; 1] [1e12; 1e12] (np_array <$> z) 2 2
            (from_option (λ z, length (np_array z)) 1%nat z))
  ∧ (∀ z, _checkinput (Scalar 0) (Sequence [1e10; 1e12]) z
          = CheckTuple [0; 0] [1e10; 1e12] (np_array <$> z) 2 2
              (from_option (λ z, length (np_array z)) 1%nat z))
  ∧ (∀ z, _checkinput (Sequence [0; 1]) (Sequence [1e10; 1e11; 1e12]) z
          = CheckMinusOne).
Proof.
  split; [|split]; intros z.
  - rewrite checkinput_scalar_Mi by (cbn; lia). reflexivity.
  - rewrite checkinput_scalar_zi by (cbn; lia). reflexivity.
  - apply checkinput_minus_one. cbn [np_array length]. lia.
Qed.

(** ** Loops that fill arrays *)

Section loops.
Context {A B : Type}.

Lemma mapM_result_Ok (f : A → result B) (xs : list A) (ys : list B) :
  mapM f xs = Ok ys ↔ Forall2 (λ x y, f x = Ok y) xs ys.
Proof.
  revert ys. induction xs as [|x xs IH]; intros ys; cbn.
  - split; [intros [= <-]; constructor|by inversion 1].
  - destruct (f x) as [y|e] eqn:Hfx; cbn.
    + destruct (mapM f xs) as [ys'|e] eqn:Hxs; cbn.
      * split.
        -- intros [= <-]. constructor; [done|]. by apply IH.
        -- inversion 1 as [|? y' ? ys'' Hy Hys]; subst.
           rewrite Hfx in Hy. injection Hy as <-.
           apply IH in Hys. by injection Hys as <-.
      * split; [done|]. inversion 1 as [|? y' ? ys'' Hy Hys]; subst.
        by apply IH in Hys.
    + split; [done|]. inversion 1 as [|? y' ? ys'' Hy Hys]; subst.
      by rewrite Hfx in Hy.
Qed.

Lemma mapM_result_Raise (f : A → result B) (xs : list A) (e : exn) :
  mapM f xs = Raise e → ∃ j x, xs !! j = Some x ∧ f x = Raise e.
Proof.
  induction xs as [|x xs IH]; cbn; [done|].
  destruct (f x) as [y|e'] eqn:Hfx; cbn.
  - destruct (mapM f xs) as [ys|e'] eqn:Hxs; cbn; [done|].
    intros [= ->]. destruct IH as (j & x' & Hj & Hx'); [done|].
    by exists (S j), x'.
  - intros [= ->]. by exists 0%nat, x.
Qed.

(** A loop over [enumerate] that stores one computed value per element is a
    [mapM] followed by the stores. *)
Lemma for_each_result_fill {S : Type} (f : A → result B)
    (upd : nat → B → S → S) (xs : list A) (k : nat) (s : S) :
  for_each (zip (seq k (length xs)) xs) s
    (λ s '(i, x), y ← f x; Ok (upd i y s))
  = ys ← mapM f xs;
    Ok (foldl (λ s '(i, y), upd i y s) s (zip (seq k (length ys)) ys)).
Proof.
  revert k s. induction xs as [|x xs IH]; intros k s; cbn; [done|].
  destruct (f x) as [y|e]; cbn; [|done].
  rewrite IH. by destruct (mapM f xs).
Qed.

Lemma foldl_upd_proj {S C : Type} (upd : nat → B → S → S)
    (proj : S → list C) (g : B → C) (ys : list B) (k : nat) (s : S) :
  (∀ i y s, proj (upd i y s) = <[i := g y]> (proj s)) →
  proj (foldl (λ s '(i, y), upd i y s) s (zip (seq k (length ys)) ys))
  = list_inserts k (g <$> ys) (proj s).
Proof.
  intros Hproj. revert k s.
  induction ys as [|y ys IH]; intros k s; cbn; [done|].
  rewrite IH, Hproj. symmetry. apply list_insert_inserts_lt. lia.
Qed.

End loops.

Lemma for_each_result_ext {A S : Type} (xs : list A) (s : S)
    (body1 body2 : S → A → result S) :
  (∀ s x, body1 s x = body2 s x) →
  for_each xs s body1 = for_each xs s body2.
Proof.
  intros Hext. revert s. induction xs as [|x xs IH]; intros s; cbn; [done|].
  rewrite Hext. destruct (body2 s x); cbn; [apply IH|done].
Qed.

(** ** Properties of the numerical core *)

Section numerical_core.
Context (ext : collaborators).
Implicit Types (cosmo : dict) (z zi Mi : R).

Lemma getitem_num cosmo key x :
  cosmo !! key = Some (VNum x) → getitem cosmo key = Ok x.
Proof. unfold getitem. by intros ->. Qed.

Lemma getitem_Ok cosmo key x :
  getitem cosmo key = Ok x → cosmo !! key = Some (VNum x).
Proof.
  unfold getitem. destruct (cosmo !! key) as [[y|b]|]; intros [=]. by subst.
Qed.

Lemma result_bind_Ok {A B} (r : result A) (k : A → result B) b :
  r ≫= k = Ok b ↔ ∃ a, r = Ok a ∧ k a = Ok b.
Proof.
  destruct r as [a|e]; cbn; split.
  - eauto.
  - by intros (a' & [= ->] & ?).
  - done.
  - by intros (a' & [=] & ?).
Qed.

(** The growth integral below the upper bound of integration. *)
Lemma int_growth_Ok z cosmo omega_M_0 omega_lambda_0 :
  z < zmax →
  cosmo !! "omega_M_0" = Some (VNum omega_M_0) →
  cosmo !! "omega_lambda_0" = Some (VNum omega_lambda_0) →
  _int_growth ext z cosmo
  = Ok (quad ext (growth_integrand omega_M_0 omega_lambda_0) z zmax).1.
Proof.
  intros Hz HM HL. unfold _int_growth.
  rewrite decide_True by done.
  rewrite (getitem_num _ _ _ HM), (getitem_num _ _ _ HL). cbn.
  by destruct (quad _ _ _ _).
Qed.

(** C5. With the indices [a_tilde] and [b_tilde] computed at [(zi, Mi)], the
    accretion integrator returns
    [Mz = Mi * (1+z-zi)^a_tilde * exp(b_tilde*(z-zi))] and
    [dMdt = 71.6 * (Mz/1e12) * (h/0.7) * (-a_tilde/(1+z-zi) - b_tilde)
            * (1+z) * sqrt(omega_M_0*(1+z)^3 + omega_lambda_0)],
    at every redshift [z > zi - 1], where the base [1+z-zi] of the power is
    positive (the output redshifts of a halo are not below [zi]), and for
    a squared Hubble rate that is not negative at [z]. *)
Theorem acc_rate_formula z zi Mi cosmo a_tilde b_tilde h omega_M_0 omega_lambda_0 :
  0 < 1 + z - zi →
  0 <= omega_M_0 * (1 + z) ^ 3 + omega_lambda_0 →
  calc_ab ext zi Mi cosmo = Ok (a_tilde, b_tilde) →
  cosmo !! "h" = Some (VNum h) →
  cosmo !! "omega_M_0" = Some (VNum omega_M_0) →
  cosmo !! "omega_lambda_0" = Some (VNum omega_lambda_0) →
  ∃ dMdt Mz,
    acc_rate ext z zi Mi cosmo = Ok (dMdt, Mz)
    ∧ Mz = Mi * Rpower (1 + z - zi) a_tilde * exp (b_tilde * (z - zi))
    ∧ dMdt = 71.6 * (Mz / 1e12) * (h / 0.7)
             * (- a_tilde / (1 + z - zi) - b_tilde) * (1 + z)
             * sqrt (omega_M_0 * (1 + z) ^ 3 + omega_lambda_0).
Proof.
  intros _ _ Hab Hh HM HL. unfold acc_rate. rewrite Hab. cbn.
  rewrite (getitem_num _ _ _ Hh), (getitem_num _ _ _ HM),
    (getitem_num _ _ _ HL). cbn.
  eexists _, _. split; [reflexivity|]. split; reflexivity.
Qed.

Lemma growth_integrand_pos omega_M_0 omega_lambda_0 x :
  0 <= x → 0 < growth_integrand omega_M_0 omega_lambda_0 x.
Proof.
  intros Hx. unfold growth_integrand, fpow, Rpower.
  apply Rdiv_lt_0_compat; [lra|apply exp_pos].
Qed.

(** At redshift zero the growth integral cancels in the normalised growth
    factor. *)
Lemma growthfactor_at_zero cosmo omega_M_0 omega_lambda_0 :
  cosmo !! "omega_M_0" = Some (VNum omega_M_0) →
  cosmo !! "omega_lambda_0" = Some (VNum omega_lambda_0) →
  (quad ext (growth_integrand omega_M_0 omega_lambda_0) 0 zmax).1 ≠ 0 →
  growthfactor ext 0 true cosmo = Ok (sqrt (omega_M_0 + omega_lambda_0)).
Proof.
  intros HM HL Hquad. unfold growthfactor.
  rewrite (getitem_num _ _ _ HM), (getitem_num _ _ _ HL). cbn -[pow].
  rewrite (int_growth_Ok 0 cosmo omega_M_0 omega_lambda_0)
    by (done || unfold zmax; lra). cbn -[pow].
  f_equal.
  replace (omega_M_0 * (1 + 0) ^ 3 + omega_lambda_0)
    with (omega_M_0 + omega_lambda_0) by lra.
  by field.
Qed.

(** C6. For every valid cosmology record the normalised growth factor at
    redshift zero is [sqrt (omega_M_0 + omega_lambda_0)], that is
    [sqrt (1 - omega_k_0)]: it is one exactly when the curvature density
    [omega_k_0] of the record is zero. *)
Theorem growthfactor_norm_zero cosmo omega_k_0 :
  positive_quadrature ext →
  valid_cosmology cosmo →
  cosmo !! "omega_k_0" = Some (VNum omega_k_0) →
  growthfactor ext 0 true cosmo = Ok (sqrt (1 - omega_k_0))
  ∧ (growthfactor ext 0 true cosmo = Ok 1 ↔ omega_k_0 = 0).
Proof.
  intros Hquad (oM & oL & ok & HM & HL & Hk & HoM & HoL & Hsum) Hk'.
  rewrite Hk in Hk'. injection Hk' as <-.
  rewrite (growthfactor_at_zero cosmo oM oL HM HL).
  2:{ apply Rgt_not_eq, Hquad; [unfold zmax; lra|].
      intros x [Hx _]. by apply growth_integrand_pos. }
  replace (oM + oL) with (1 - ok) by lra.
  split; [done|]. split.
  - intros [= Hsqrt]. assert (0 <= 1 - ok) as Hpos by lra.
    rewrite <-(sqrt_sqrt _ Hpos), Hsqrt in Hpos.
    pose proof (sqrt_sqrt (1 - ok) ltac:(lra)) as Hsq.
    rewrite Hsqrt in Hsq. lra.
  - intros ->. by rewrite Rminus_0_r, sqrt_1.
Qed.

(** *** The mass history *)

Lemma length_empty_like (a : list R) : length (empty_like ext a) = length a.
Proof. unfold empty_like. by rewrite length_fmap, length_seq. Qed.

(** [MAH] applies [acc_rate] to every redshift, in order. *)
Lemma MAH_unfold (z : pyarg) zi Mi cosmo :
  MAH ext z zi Mi cosmo
  = rows ← mapM (λ zval, acc_rate ext zval zi Mi cosmo) (np_array z);
    Ok (rows.*1, rows.*2).
Proof.
  unfold MAH, enumerate.
  erewrite for_each_result_ext; last first.
  { intros [a1 a2] [i x].
    instantiate (1 := λ s '(i, x),
      y ← acc_rate ext x zi Mi cosmo;
      Ok (<[i := y.1]> s.1, <[i := y.2]> s.2)).
    cbn. by destruct (acc_rate ext x zi Mi cosmo) as [[??]|]. }
  rewrite (for_each_result_fill (λ zval, acc_rate ext zval zi Mi cosmo)
             (λ i y s, (<[i := y.1]> s.1, <[i := y.2]> s.2))).
  destruct (mapM _ (np_array z)) as [rows|e] eqn:Hrows; cbn; [|done].
  apply mapM_result_Ok, Forall2_length in Hrows.
  f_equal.
  set (r := foldl _ _ _).
  assert (r.1 = rows.*1 ∧ r.2 = rows.*2) as [H1 H2]; [|by destruct r; cbn in *; subst].
  unfold r. split.
  - rewrite (foldl_upd_proj _ fst fst) by done. cbn.
    rewrite <-(app_nil_r (rows.*1)) at 1.
    rewrite list_inserts_0_l; [done|].
    by rewrite length_fmap, length_empty_like.
  - rewrite (foldl_upd_proj _ snd snd) by done. cbn.
    rewrite <-(app_nil_r (rows.*2)) at 1.
    rewrite list_inserts_0_l; [done|].
    by rewrite length_fmap, length_empty_like.
Qed.

Lemma MAH_Ok (z : pyarg) zi Mi cosmo dMdt Mz :
  MAH ext z zi Mi cosmo = Ok (dMdt, Mz)
  ↔ ∃ rows, Forall2 (λ zval row, acc_rate ext zval zi Mi cosmo = Ok row)
              (np_array z) rows
            ∧ dMdt = rows.*1 ∧ Mz = rows.*2.
Proof.
  rewrite MAH_unfold. split.
  - intros (rows & Hrows & [= <- <-])%result_bind_Ok.
    exists rows. by rewrite <-mapM_result_Ok.
  - intros (rows & Hrows & -> & ->). apply mapM_result_Ok in Hrows.
    by rewrite Hrows.
Qed.

Lemma calc_ab_inv zi Mi cosmo a_tilde b_tilde :
  calc_ab ext zi Mi cosmo = Ok (a_tilde, b_tilde) →
  ∃ f dg gf,
    0 < f
    ∧ _deriv_growth ext zi cosmo = Ok dg
    ∧ growthfactor ext zi true cosmo = Ok gf
    ∧ a_tilde = (sqrt (2 / PI) * 1.686 * dg / gf ^ 2 + 1) * f
    ∧ b_tilde = - f.
Proof.
  unfold calc_ab.
  destruct (sigma_r ext _ 0 cosmo) as [sig err_sig].
  destruct (sigma_r ext _ 0 cosmo) as [sigq err_sigq].
  intros (dg & Hdg & (gf & Hgf & [= <- <-])%result_bind_Ok)%result_bind_Ok.
  eexists _, dg, gf. split; [|done].
  unfold fpow, Rpower. apply exp_pos.
Qed.

Lemma acc_rate_inv z zi Mi cosmo dMdt Mz :
  acc_rate ext z zi Mi cosmo = Ok (dMdt, Mz) →
  ∃ a_tilde b_tilde,
    calc_ab ext zi Mi cosmo = Ok (a_tilde, b_tilde)
    ∧ Mz = Mi * Rpower (1 + z - zi) a_tilde * exp (b_tilde * (z - zi)).
Proof.
  unfold acc_rate.
  intros ([a b] & Hab & (h & _ & (oM & _ & (oL & _ & [= _ <-])%result_bind_Ok
    )%result_bind_Ok)%result_bind_Ok)%result_bind_Ok.
  by exists a, b.
Qed.

Lemma ln_diff_le (x1 x2 : R) : 1 <= x1 → x1 <= x2 → ln x2 - ln x1 <= x2 - x1.
Proof.
  intros H1 H12.
  assert (ln x2 - ln x1 = ln (x2 / x1)) as ->.
  { unfold Rdiv. rewrite ln_mult, ln_Rinv; [lra|lra..|].
    apply Rinv_0_lt_compat; lra. }
  assert (0 < x2 / x1) as Hpos by (apply Rdiv_lt_0_compat; lra).
  assert (ln (x2 / x1) <= x2 / x1 - 1) as Hln.
  { rewrite <-(ln_exp (x2 / x1 - 1)).
    destruct (Req_dec (x2 / x1) (exp (x2 / x1 - 1))) as [<-|Hne]; [lra|].
    left. apply ln_increasing; [done|].
    pose proof (exp_ineq1_le (x2 / x1 - 1)). lra. }
  assert (x2 / x1 - 1 <= x2 - x1); [|lra].
  assert (x2 / x1 - 1 = (x2 - x1) * / x1) as -> by (field; lra).
  rewrite <-(Rmult_1_r (x2 - x1)) at 2.
  apply Rmult_le_compat_l; [lra|].
  rewrite <-Rinv_1. apply Rinv_le_contravar; lra.
Qed.

(** The shape of the mass history: with [b <= 0] and [a + b <= 0] the factor
    [x^a * exp(b*(x-1))] does not increase for [x >= 1]. *)
Lemma mass_factor_decreasing (a b x1 x2 : R) :
  b <= 0 → a + b <= 0 → 1 <= x1 → x1 <= x2 →
  Rpower x2 a * exp (b * (x2 - 1)) <= Rpower x1 a * exp (b * (x1 - 1)).
Proof.
  intros Hb Hab H1 H12. unfold Rpower. rewrite <-!exp_plus.
  assert (a * ln x2 + b * (x2 - 1) <= a * ln x1 + b * (x1 - 1)) as Hle.
  { pose proof (ln_diff_le x1 x2 H1 H12) as Hln.
    assert (0 <= ln x2 - ln x1) as Hln0.
    { destruct (Req_dec x1 x2) as [->|Hne]; [lra|].
      left. apply Rlt_0_minus, ln_increasing; lra. }
    destruct (Rle_dec a 0) as [Ha|Ha]; nra. }
  destruct Hle as [Hlt| ->]; [left; by apply exp_increasing|right; done].
Qed.

Lemma Rinv_sqr_nonneg (x : R) : 0 <= / x ^ 2.
Proof.
  destruct (Req_dec x 0) as [->|Hx].
  - replace (0 ^ 2) with 0 by lra. rewrite Rinv_0. lra.
  - left. apply Rinv_0_lt_compat. nra.
Qed.



(** *** When the indices are defined *)

Lemma int_growth_assert z cosmo : ¬ z < zmax → _int_growth ext z cosmo = Raise AssertionError.
Proof. intros Hz. unfold _int_growth. by rewrite decide_False. Qed.

Lemma growthfactor_Ok z cosmo omega_M_0 omega_lambda_0 :
  z < zmax →
  cosmo !! "omega_M_0" = Some (VNum omega_M_0) →
  cosmo !! "omega_lambda_0" = Some (VNum omega_lambda_0) →
  growthfactor ext z true cosmo
  = Ok (sqrt (omega_M_0 * (1 + z) ^ 3 + omega_lambda_0)
        * (quad ext (growth_integrand omega_M_0 omega_lambda_0) z zmax).1
        / (quad ext (growth_integrand omega_M_0 omega_lambda_0) 0 zmax).1).
Proof.
  intros Hz HM HL. unfold growthfactor.
  rewrite (getitem_num _ _ _ HM), (getitem_num _ _ _ HL). cbn -[pow].
  rewrite (int_growth_Ok z cosmo omega_M_0 omega_lambda_0) by done. cbn -[pow].
  by rewrite (int_growth_Ok 0 cosmo omega_M_0 omega_lambda_0)
    by (done || unfold zmax; lra).
Qed.

Lemma deriv_growth_Ok z cosmo omega_M_0 omega_lambda_0 g :
  z < zmax →
  cosmo !! "omega_M_0" = Some (VNum omega_M_0) →
  cosmo !! "omega_lambda_0" = Some (VNum omega_lambda_0) →
  growthfactor ext z true cosmo = Ok g →
  _deriv_growth ext z cosmo
  = Ok (let inv_h := Rpower (omega_M_0 * (1 + z) ^ 3 + omega_lambda_0) (-0.5) in
        g * inv_h ^ 2 * 1.5 * omega_M_0 * (1 + z) ^ 2
        - (1 + z) * inv_h ^ 3 * g
          / (quad ext (growth_integrand omega_M_0 omega_lambda_0) z zmax).1).
Proof.
  intros Hz HM HL Hg. unfold _deriv_growth.
  rewrite (getitem_num _ _ _ HM), (getitem_num _ _ _ HL). cbn -[pow].
  rewrite Hg. cbn -[pow].
  by rewrite (int_growth_Ok z cosmo omega_M_0 omega_lambda_0) by done.
Qed.

(** The indices are computed for every redshift below the upper bound of
    the growth integral, when the cosmology holds the two densities. *)
Lemma calc_ab_total zi Mi cosmo omega_M_0 omega_lambda_0 :
  zi < zmax →
  cosmo !! "omega_M_0" = Some (VNum omega_M_0) →
  cosmo !! "omega_lambda_0" = Some (VNum omega_lambda_0) →
  ∃ a_tilde b_tilde, calc_ab ext zi Mi cosmo = Ok (a_tilde, b_tilde).
Proof.
  intros Hz HM HL. unfold calc_ab.
  destruct (sigma_r ext _ 0 cosmo) as [sig err_sig].
  destruct (sigma_r ext _ 0 cosmo) as [sigq err_sigq].
  rewrite (deriv_growth_Ok zi cosmo omega_M_0 omega_lambda_0 _ Hz HM HL
             (growthfactor_Ok zi cosmo _ _ Hz HM HL)).
  rewrite (growthfactor_Ok zi cosmo _ _ Hz HM HL). cbn -[pow]. eauto.
Qed.

(** At or beyond the upper bound, the assertion of the growth integral
    fails before any root is looked for. *)
Lemma calc_ab_assert zi Mi cosmo omega_M_0 omega_lambda_0 :
  ¬ zi < zmax →
  cosmo !! "omega_M_0" = Some (VNum omega_M_0) →
  cosmo !! "omega_lambda_0" = Some (VNum omega_lambda_0) →
  calc_ab ext zi Mi cosmo = Raise AssertionError.
Proof.
  intros Hz HM HL. unfold calc_ab.
  destruct (sigma_r ext _ 0 cosmo) as [sig err_sig].
  destruct (sigma_r ext _ 0 cosmo) as [sigq err_sigq].
  unfold _deriv_growth, growthfactor.
  rewrite (getitem_num _ _ _ HM), (getitem_num _ _ _ HL). cbn -[pow].
  by rewrite (int_growth_assert zi) by done.
Qed.

Lemma acc_rate_total z zi Mi cosmo omega_M_0 omega_lambda_0 h :
  zi < zmax →
  cosmo !! "omega_M_0" = Some (VNum omega_M_0) →
  cosmo !! "omega_lambda_0" = Some (VNum omega_lambda_0) →
  cosmo !! "h" = Some (VNum h) →
  ∃ dMdt Mz, acc_rate ext z zi Mi cosmo = Ok (dMdt, Mz).
Proof.
  intros Hz HM HL Hh.
  destruct (calc_ab_total zi Mi cosmo _ _ Hz HM HL) as (a & b & Hab).
  unfold acc_rate. rewrite Hab. cbn -[pow].
  rewrite (getitem_num _ _ _ Hh), (getitem_num _ _ _ HM),
    (getitem_num _ _ _ HL). cbn -[pow]. eauto.
Qed.

Lemma MAH_total (z : pyarg) zi Mi cosmo omega_M_0 omega_lambda_0 h :
  zi < zmax →
  cosmo !! "omega_M_0" = Some (VNum omega_M_0) →
  cosmo !! "omega_lambda_0" = Some (VNum omega_lambda_0) →
  cosmo !! "h" = Some (VNum h) →
  ∃ dMdt Mz, MAH ext z zi Mi cosmo = Ok (dMdt, Mz)
             ∧ length Mz = length (np_array z).
Proof.
  intros Hz HM HL Hh.
  assert (∃ rows, Forall2 (λ zval row, acc_rate ext zval zi Mi cosmo = Ok row)
                    (np_array z) rows) as [rows Hrows].
  { induction (np_array z) as [|zval zs [rows IH]]; [by exists []|].
    destruct (acc_rate_total zval zi Mi cosmo _ _ _ Hz HM HL Hh)
      as (d & m & Hacc).
    exists ((d, m) :: rows). by constructor. }
  exists (rows.*1), (rows.*2). split.
  - apply MAH_Ok. by exists rows.
  - rewrite length_fmap. symmetry. by eapply Forall2_length.
Qed.

(** *** The sign of the growth rate *)

Lemma growth_integrand_positive omega_M_0 omega_lambda_0 x :
  0 < omega_M_0 → 0 <= omega_lambda_0 → -1 < x →
  0 < omega_M_0 * (1 + x) ^ 3 + omega_lambda_0
  ∧ 0 < growth_integrand omega_M_0 omega_lambda_0 x.
Proof.
  intros HM HL Hx.
  assert (0 < (1 + x) ^ 3) as Hcube by (apply pow_lt; lra).
  assert (0 < omega_M_0 * (1 + x) ^ 3 + omega_lambda_0) as HE by nra.
  split; [done|]. unfold growth_integrand, fpow, Rpower.
  apply Rdiv_lt_0_compat; [lra|apply exp_pos].
Qed.

(** The indices in terms of the variance gap. *)
Lemma calc_ab_indices zi Mi cosmo a_tilde b_tilde :
  calc_ab ext zi Mi cosmo = Ok (a_tilde, b_tilde) →
  ∃ dg gf,
    _deriv_growth ext zi cosmo = Ok dg
    ∧ growthfactor ext zi true cosmo = Ok gf
    ∧ a_tilde = (sqrt (2 / PI) * 1.686 * dg / gf ^ 2 + 1)
                * Rpower (variance_gap ext Mi cosmo) (-0.5)
    ∧ b_tilde = - Rpower (variance_gap ext Mi cosmo) (-0.5).
Proof.
  unfold calc_ab, variance_gap, half_mass_fit.
  destruct (sigma_r ext (mass_to_radius ext Mi cosmo) 0 cosmo)
    as [sig err_sig].
  destruct (sigma_r ext _ 0 cosmo) as [sigq err_sigq].
  intros (dg & Hdg & (gf & Hgf & [= <- <-])%result_bind_Ok)%result_bind_Ok.
  by exists dg, gf.
Qed.

(** The indices are computed below the upper bound of the growth integral
    only. *)
Lemma calc_ab_below_zmax zi Mi cosmo a_tilde b_tilde :
  calc_ab ext zi Mi cosmo = Ok (a_tilde, b_tilde) → zi < zmax.
Proof.
  intros Hab. destruct (Rlt_dec zi zmax) as [|Hzi]; [done|].
  pose proof Hab as (dg & gf & _ & Hgf & _)%calc_ab_indices.
  unfold growthfactor in Hgf.
  apply result_bind_Ok in Hgf as (oM & HM%getitem_Ok & Hgf).
  apply result_bind_Ok in Hgf as (oL & HL%getitem_Ok & _).
  by rewrite (calc_ab_assert zi Mi cosmo oM oL Hzi HM HL) in Hab.
Qed.

(** When the value of the quadrature is within the bound of the growth
    integral, the growth factor does not grow with the redshift: the
    value of [_deriv_growth] is not positive. *)
Lemma deriv_growth_nonpos z cosmo omega_M_0 omega_lambda_0 dg :
  z < zmax → -1 < z →
  cosmo !! "omega_M_0" = Some (VNum omega_M_0) →
  cosmo !! "omega_lambda_0" = Some (VNum omega_lambda_0) →
  0 < omega_M_0 → 0 <= omega_lambda_0 →
  positive_quadrature ext →
  growth_integral_bounded ext omega_M_0 omega_lambda_0 z →
  _deriv_growth ext z cosmo = Ok dg →
  dg <= 0.
Proof.
  intros Hz Hz1 HM HL HoM HoL Hquad Hbound Hdg.
  rewrite (deriv_growth_Ok z cosmo omega_M_0 omega_lambda_0 _ Hz HM HL
             (growthfactor_Ok z cosmo _ _ Hz HM HL)) in Hdg.
  injection Hdg as <-. cbv zeta.
  unfold growth_integral_bounded in Hbound.
  destruct (growth_integrand_positive omega_M_0 omega_lambda_0 z HoM HoL Hz1)
    as [HE _].
  set (Iz := (quad ext (growth_integrand omega_M_0 omega_lambda_0) z zmax).1)
    in *.
  set (I0 := (quad ext (growth_integrand omega_M_0 omega_lambda_0) 0 zmax).1).
  assert (0 < Iz) as HIz.
  { apply Hquad; [done|]. intros x [Hx _].
    apply growth_integrand_positive; lra. }
  assert (0 < I0) as HI0.
  { apply Hquad; [unfold zmax; lra|]. intros x [Hx _].
    apply growth_integrand_positive; lra. }
  cbn [pow] in Hbound, HE |- *.
  set (E := omega_M_0 * ((1 + z) * ((1 + z) * ((1 + z) * 1))) + omega_lambda_0)
    in *.
  set (s := sqrt E) in *.
  assert (0 < s) as Hs by (by apply sqrt_lt_R0).
  assert (E = s * s) as HEs by (symmetry; apply sqrt_sqrt; lra).
  assert (Rpower E (-0.5) = / s) as ->.
  { replace (-0.5) with (- / 2) by lra.
    by rewrite Rpower_Ropp, Rpower_sqrt. }
  match goal with
  | |- ?lhs <= 0 =>
      replace lhs
        with ((1 + z) * / (I0 * (s * s))
              * (Iz * (1.5 * omega_M_0 * (1 + z) * s) - 1))
  end.
  2:{ replace 1.5 with (3 / 2) by lra. field. repeat split; lra. }
  assert (0 < (1 + z) * / (I0 * (s * s))) as Hfac.
  { apply Rmult_lt_0_compat; [lra|]. apply Rinv_0_lt_compat.
    apply Rmult_lt_0_compat; [done|]. by apply Rmult_lt_0_compat. }
  assert (Iz * (1.5 * omega_M_0 * (1 + z) * s) - 1 <= 0) as Hle by lra.
  nra.
Qed.

(** C7. The halo mass returned by [MAH] does not increase with the output
    redshift: for target redshifts [z2 > z1 >= zi] the masses satisfy
    [Mz(z1) >= Mz(z2)].  The halo starts with a positive mass at a redshift
    [zi > -1], in a cosmology with a positive matter density and a
    dark-energy density that is not negative; the quadrature is positive on
    positive integrands and its value for the growth integral from [zi] is
    within the bound of that integral; the fit and the variance gap that
    [calc_ab] raises to powers are positive. *)
Theorem MAH_mass_monotone (z : list R) zi Mi cosmo omega_M_0 omega_lambda_0
    dMdt Mz :
  0 < Mi → -1 < zi →
  cosmo !! "omega_M_0" = Some (VNum omega_M_0) →
  cosmo !! "omega_lambda_0" = Some (VNum omega_lambda_0) →
  0 < omega_M_0 → 0 <= omega_lambda_0 →
  positive_quadrature ext →
  growth_integral_bounded ext omega_M_0 omega_lambda_0 zi →
  0 < half_mass_fit Mi →
  0 < variance_gap ext Mi cosmo →
  MAH ext (Sequence z) zi Mi cosmo = Ok (dMdt, Mz) →
  ∀ i j z1 z2 M1 M2,
    z !! i = Some z1 → z !! j = Some z2 →
    Mz !! i = Some M1 → Mz !! j = Some M2 →
    zi <= z1 → z1 < z2 →
    M1 >= M2.
Proof.
  intros HMi Hzi1 HM HL HoM HoL Hquad Hbound _ _
    (rows & Hrows & _ & ->)%MAH_Ok i j z1 z2 M1 M2 Hz1 Hz2 HM1 HM2 Hzi H12.
  cbn in Hrows.
  rewrite list_lookup_fmap in HM1, HM2.
  destruct (rows !! i) as [[d1 m1]|] eqn:Hr1; [|done].
  destruct (rows !! j) as [[d2 m2]|] eqn:Hr2; [|done].
  cbn in HM1, HM2. injection HM1 as ->. injection HM2 as ->.
  pose proof (Forall2_lookup_lr _ _ _ _ _ _ Hrows Hz1 Hr1) as Hacc1.
  pose proof (Forall2_lookup_lr _ _ _ _ _ _ Hrows Hz2 Hr2) as Hacc2.
  apply acc_rate_inv in Hacc1 as (a & b & Hab & ->).
  apply acc_rate_inv in Hacc2 as (a' & b' & Hab' & ->).
  rewrite Hab in Hab'. injection Hab' as <- <-.
  pose proof (calc_ab_below_zmax _ _ _ _ _ Hab) as Hzmax.
  apply calc_ab_indices in Hab as (dg & gf & Hdg & _ & -> & ->).
  pose proof (deriv_growth_nonpos zi cosmo omega_M_0 omega_lambda_0 dg
                Hzmax Hzi1 HM HL HoM HoL Hquad Hbound Hdg) as Hdg0.
  set (f := Rpower (variance_gap ext Mi cosmo) (-0.5)).
  assert (0 < f) as Hf by apply exp_pos.
  set (a := (sqrt (2 / PI) * 1.686 * dg / gf ^ 2 + 1) * f).
  assert (a + - f <= 0) as Hab.
  { unfold a.
    assert (0 <= sqrt (2 / PI)) by apply sqrt_pos.
    pose proof (Rinv_sqr_nonneg gf).
    assert (sqrt (2 / PI) * 1.686 * dg / gf ^ 2 <= 0); [|nra].
    unfold Rdiv. assert (sqrt (2 / PI) * 1.686 * dg <= 0) by nra. nra. }
  pose proof (mass_factor_decreasing a (- f) (1 + z1 - zi) (1 + z2 - zi))
    as Hmono.
  replace (1 + z1 - zi - 1) with (z1 - zi) in Hmono by lra.
  replace (1 + z2 - zi - 1) with (z2 - zi) in Hmono by lra.
  apply Rle_ge. rewrite !Rmult_assoc.
  apply Rmult_le_compat_l; [lra|]. apply Hmono; lra.
Qed.

(** *** The concentration solver *)

(** [COM] applies [COM_row] to every pair of redshift and mass, in order,
    and stores the four values of a row at the index of the pair. *)
Lemma COM_unfold (z M : pyarg) cosmo :
  COM ext z M cosmo
  = rows ← mapM (λ '(zval, Mval), COM_row ext zval Mval cosmo)
             (_izip (np_array z) (np_array M));
    Ok (list_inserts 0 ((λ r, r.1.1.1) <$> rows) (empty_like ext (np_array z)),
        list_inserts 0 ((λ r, r.1.1.2) <$> rows) (empty_like ext (np_array z)),
        list_inserts 0 ((λ r, r.1.2) <$> rows) (empty_like ext (np_array z)),
        list_inserts 0 ((λ r, r.2) <$> rows) (empty_like ext (np_array z))).
Proof.
  unfold COM, enumerate.
  erewrite for_each_result_ext; last first.
  { intros [[[a1 a2] a3] a4] [i [zval Mval]].
    instantiate (1 := λ s '(i, x),
      y ← (let '(zval, Mval) := x in COM_row ext zval Mval cosmo);
      Ok (<[i := y.1.1.1]> s.1.1.1, <[i := y.1.1.2]> s.1.1.2,
          <[i := y.1.2]> s.1.2, <[i := y.2]> s.2)).
    cbn. by destruct (COM_row ext zval Mval cosmo) as [[[[??]?]?]|]. }
  rewrite (for_each_result_fill
             (λ x, let '(zval, Mval) := x in COM_row ext zval Mval cosmo)
             (λ i y s, (<[i := y.1.1.1]> s.1.1.1, <[i := y.1.1.2]> s.1.1.2,
                        <[i := y.1.2]> s.1.2, <[i := y.2]> s.2))).
  destruct (mapM _ (_izip _ _)) as [rows|e] eqn:Hrows; cbn; [|done].
  f_equal.
  set (r := foldl _ _ _).
  assert (r.1.1.1 = list_inserts 0 ((λ r, r.1.1.1) <$> rows) (empty_like ext (np_array z))
          ∧ r.1.1.2 = list_inserts 0 ((λ r, r.1.1.2) <$> rows) (empty_like ext (np_array z))
          ∧ r.1.2 = list_inserts 0 ((λ r, r.1.2) <$> rows) (empty_like ext (np_array z))
          ∧ r.2 = list_inserts 0 ((λ r, r.2) <$> rows) (empty_like ext (np_array z)))
    as (H1 & H2 & H3 & H4).
  { unfold r. repeat split.
    - by rewrite (foldl_upd_proj _ (λ s, s.1.1.1) (λ r, r.1.1.1)).
    - by rewrite (foldl_upd_proj _ (λ s, s.1.1.2) (λ r, r.1.1.2)).
    - by rewrite (foldl_upd_proj _ (λ s, s.1.2) (λ r, r.1.2)).
    - by rewrite (foldl_upd_proj _ (λ s, s.2) (λ r, r.2)). }
  destruct r as [[[??]?]?]. cbn in *. by subst.
Qed.

(** The rows of a successful call of [COM]. *)
Lemma COM_Ok_lookup (z M : pyarg) cosmo cs sigs nus zfs j zval Mval :
  COM ext z M cosmo = Ok (cs, sigs, nus, zfs) →
  np_array z !! j = Some zval → np_array M !! j = Some Mval →
  ∃ c sig nu zf,
    COM_row ext zval Mval cosmo = Ok (c, sig, nu, zf)
    ∧ cs !! j = Some c ∧ sigs !! j = Some sig
    ∧ nus !! j = Some nu ∧ zfs !! j = Some zf.
Proof.
  rewrite COM_unfold.
  intros (rows & Hrows & [= <- <- <- <-])%result_bind_Ok Hz HM.
  apply mapM_result_Ok in Hrows.
  assert (_izip (np_array z) (np_array M) !! j = Some (zval, Mval)) as Hzip.
  { unfold _izip. by apply lookup_zip_Some. }
  destruct (Forall2_lookup_l _ _ _ _ _ Hrows Hzip) as ([[[c sig] nu] zf] & Hrow & Hc).
  exists c, sig, nu, zf. split; [done|].
  assert (j < length rows)%nat by (by eapply lookup_lt_Some).
  assert (j < length (empty_like ext (np_array z)))%nat.
  { rewrite length_empty_like. by eapply lookup_lt_Some. }
  rewrite !list_lookup_inserts by (rewrite ?length_fmap; lia).
  rewrite Nat.sub_0_r, !list_lookup_fmap, Hrow. done.
Qed.

(** An exception of [COM] is the exception of one of its rows. *)
Lemma COM_Raise (z M : pyarg) cosmo e :
  COM ext z M cosmo = Raise e →
  ∃ j zval Mval,
    np_array z !! j = Some zval ∧ np_array M !! j = Some Mval
    ∧ COM_row ext zval Mval cosmo = Raise e.
Proof.
  rewrite COM_unfold.
  destruct (mapM _ _) as [rows|e'] eqn:Hrows; cbn; [done|].
  intros [= ->]. apply mapM_result_Raise in Hrows as (j & [zval Mval] & Hj & He).
  unfold _izip in Hj. apply lookup_zip_Some in Hj as [??].
  by exists j, zval, Mval.
Qed.

Lemma isclose_0_small (c : R) : isclose c 0 = true ↔ Rabs c <= 1e-8.
Proof.
  unfold isclose. rewrite bool_decide_eq_true.
  rewrite Rminus_0_r, Rabs_R0. split; lra.
Qed.

Lemma COM_root_inv zval a_tilde b_tilde cosmo c :
  COM_root ext zval a_tilde b_tilde cosmo = Ok c →
  ∃ A_scaling omega_M_0 omega_lambda_0,
    getitem cosmo "A_scaling" = Ok A_scaling
    ∧ getitem cosmo "omega_M_0" = Ok omega_M_0
    ∧ getitem cosmo "omega_lambda_0" = Ok omega_lambda_0
    ∧ brentq ext (λ c, _minimize_c c zval a_tilde b_tilde A_scaling
                         omega_M_0 omega_lambda_0) 2 1000 = Ok c.
Proof.
  unfold COM_root.
  intros (A & HA & (oM & HM & (oL & HL & Hroot)%result_bind_Ok
    )%result_bind_Ok)%result_bind_Ok.
  by exists A, oM, oL.
Qed.

Lemma COM_root_bracket zval a_tilde b_tilde cosmo c :
  brentq_in_bracket ext →
  COM_root ext zval a_tilde b_tilde cosmo = Ok c →
  2 <= c <= 1000 ∧ isclose c 0 = false.
Proof.
  intros Hbr (A & oM & oL & _ & _ & _ & Hroot)%COM_root_inv.
  apply Hbr in Hroot; [|lra].
  split; [done|].
  apply not_true_is_false. rewrite isclose_0_small.
  rewrite Rabs_pos_eq by lra. lra.
Qed.

(** What a row of [COM] holds when it is computed. *)
Lemma COM_row_inv zval Mval cosmo c sig nu zf :
  COM_row ext zval Mval cosmo = Ok (c, sig, nu, zf) →
  ∃ a_tilde b_tilde c0,
    calc_ab ext zval Mval cosmo = Ok (a_tilde, b_tilde)
    ∧ COM_root ext zval a_tilde b_tilde cosmo = Ok c0
    ∧ (isclose c0 0 = true ∧ c = -1 ∧ sig = -1 ∧ nu = -1 ∧ zf = -1
       ∨ isclose c0 0 = false ∧ c = c0).
Proof.
  unfold COM_row.
  intros ([a b] & Hab & (c0 & Hroot & Hrest)%result_bind_Ok)%result_bind_Ok.
  exists a, b, c0. split; [done|]. split; [done|].
  destruct (isclose c0 0).
  - left. by injection Hrest as <- <- <- <-.
  - right. split; [done|].
    apply result_bind_Ok in Hrest as (A & _ & Hrest).
    apply result_bind_Ok in Hrest as (oM & _ & Hrest).
    apply result_bind_Ok in Hrest as (oL & _ & Hrest).
    destruct (sigma_r ext _ 0 cosmo) as [sig' err_sig].
    apply result_bind_Ok in Hrest as (gf & _ & Hrest).
    by injection Hrest as <- _ _ _.
Qed.

(** An exception of a row comes from the computation of the indices or from
    the root-finding call: nothing raises once the root is found. *)
Lemma COM_row_Raise zval Mval cosmo e :
  COM_row ext zval Mval cosmo = Raise e →
  calc_ab ext zval Mval cosmo = Raise e
  ∨ ∃ a_tilde b_tilde,
      calc_ab ext zval Mval cosmo = Ok (a_tilde, b_tilde)
      ∧ COM_root ext zval a_tilde b_tilde cosmo = Raise e.
Proof.
  unfold COM_row.
  destruct (calc_ab ext zval Mval cosmo) as [[a b]|e'] eqn:Hab; cbn;
    [|intros [= ->]; by left].
  destruct (COM_root ext zval a b cosmo) as [c|e'] eqn:Hroot; cbn;
    [|intros [= ->]; right; by exists a, b].
  destruct (isclose c 0); [done|].
  apply COM_root_inv in Hroot as (A & oM & oL & -> & -> & -> & _). cbn.
  destruct (sigma_r ext _ 0 cosmo) as [sig err_sig].
  apply calc_ab_inv in Hab as (f & dg & gf & _ & _ & -> & _). done.
Qed.

(** What a row of [COM] holds: the four [-1] when the root is close to
    zero, and otherwise the root, the mass variance at the radius of the
    mass, the peak height and the formation redshift of the root. *)
Lemma COM_row_values zval Mval cosmo c sig nu zf :
  COM_row ext zval Mval cosmo = Ok (c, sig, nu, zf) →
  ∃ a_tilde b_tilde c0,
    calc_ab ext zval Mval cosmo = Ok (a_tilde, b_tilde)
    ∧ COM_root ext zval a_tilde b_tilde cosmo = Ok c0
    ∧ if isclose c0 0 then c = -1 ∧ sig = -1 ∧ nu = -1 ∧ zf = -1
      else
        ∃ A_scaling omega_M_0 omega_lambda_0 gf,
          cosmo !! "A_scaling" = Some (VNum A_scaling)
          ∧ cosmo !! "omega_M_0" = Some (VNum omega_M_0)
          ∧ cosmo !! "omega_lambda_0" = Some (VNum omega_lambda_0)
          ∧ growthfactor ext zval true cosmo = Ok gf
          ∧ c = c0
          ∧ zf = formationz c0 zval A_scaling omega_M_0 omega_lambda_0
          ∧ sig = (sigma_r ext (mass_to_radius ext Mval cosmo) 0 cosmo).1
          ∧ nu = 1.686
                 / ((sigma_r ext (mass_to_radius ext Mval cosmo) 0 cosmo).1
                    * gf).
Proof.
  unfold COM_row.
  intros ([a b] & Hab & (c0 & Hroot & Hrest)%result_bind_Ok)%result_bind_Ok.
  exists a, b, c0. split; [done|]. split; [done|].
  destruct (isclose c0 0).
  - by injection Hrest as <- <- <- <-.
  - apply result_bind_Ok in Hrest as (A & HA%getitem_Ok & Hrest).
    apply result_bind_Ok in Hrest as (oM & HoM%getitem_Ok & Hrest).
    apply result_bind_Ok in Hrest as (oL & HoL%getitem_Ok & Hrest).
    destruct (sigma_r ext _ 0 cosmo) as [sig' err_sig].
    apply result_bind_Ok in Hrest as (gf & Hgf & Hrest).
    injection Hrest as <- <- <- <-.
    by exists A, oM, oL, gf.
Qed.

(** C2. When the root found for a row of [COM] is close to zero, the row is
    reported as [c = sig = nu = zf = -1]; the row raises no exception, and
    the other rows of the call are computed as usual.  An exception of the
    call is raised for another row, by the computation of its indices or
    by its root-finding call; when these return for every other row, the
    call returns.  A call that returns holds [-1] in that row; every row
    holds the root found for it, the formation redshift of that root, the
    mass variance at the radius of its mass and the peak height
    [1.686 / (sig * D(z))] (for a divisor that is not zero), or the four
    [-1] when its root is close to zero too. *)
Theorem COM_degenerate_row (z M : list R) cosmo i zval Mval a_tilde b_tilde c :
  z !! i = Some zval → M !! i = Some Mval →
  calc_ab ext zval Mval cosmo = Ok (a_tilde, b_tilde) →
  COM_root ext zval a_tilde b_tilde cosmo = Ok c →
  isclose c 0 = true →
  (∀ e, COM ext (Sequence z) (Sequence M) cosmo = Raise e →
        ∃ j zj Mj,
          j ≠ i ∧ z !! j = Some zj ∧ M !! j = Some Mj
          ∧ (calc_ab ext zj Mj cosmo = Raise e
             ∨ ∃ aj bj,
                 calc_ab ext zj Mj cosmo = Ok (aj, bj)
                 ∧ COM_root ext zj aj bj cosmo = Raise e))
  ∧ ((∀ j zj Mj, j ≠ i → z !! j = Some zj → M !! j = Some Mj →
        ∃ aj bj cj,
          calc_ab ext zj Mj cosmo = Ok (aj, bj)
          ∧ COM_root ext zj aj bj cosmo = Ok cj) →
     ∃ cs sigs nus zfs,
       COM ext (Sequence z) (Sequence M) cosmo = Ok (cs, sigs, nus, zfs))
  ∧ (∀ cs sigs nus zfs,
        COM ext (Sequence z) (Sequence M) cosmo = Ok (cs, sigs, nus, zfs) →
        cs !! i = Some (-1) ∧ sigs !! i = Some (-1)
        ∧ nus !! i = Some (-1) ∧ zfs !! i = Some (-1)
        ∧ ∀ j zj Mj, z !! j = Some zj → M !! j = Some Mj →
            ∃ aj bj cj,
              calc_ab ext zj Mj cosmo = Ok (aj, bj)
              ∧ COM_root ext zj aj bj cosmo = Ok cj
              ∧ if isclose cj 0 then
                  cs !! j = Some (-1) ∧ sigs !! j = Some (-1)
                  ∧ nus !! j = Some (-1) ∧ zfs !! j = Some (-1)
                else
                  ∃ A_scaling omega_M_0 omega_lambda_0 gf,
                    cosmo !! "A_scaling" = Some (VNum A_scaling)
                    ∧ cosmo !! "omega_M_0" = Some (VNum omega_M_0)
                    ∧ cosmo !! "omega_lambda_0" = Some (VNum omega_lambda_0)
                    ∧ growthfactor ext zj true cosmo = Ok gf
                    ∧ cs !! j = Some cj
                    ∧ zfs !! j
                      = Some (formationz cj zj A_scaling omega_M_0
                                omega_lambda_0)
                    ∧ sigs !! j
                      = Some (sigma_r ext (mass_to_radius ext Mj cosmo) 0
                                cosmo).1
                    ∧ ((sigma_r ext (mass_to_radius ext Mj cosmo) 0
                          cosmo).1 * gf ≠ 0 →
                       nus !! j
                       = Some (1.686
                               / ((sigma_r ext (mass_to_radius ext Mj cosmo)
                                     0 cosmo).1 * gf)))).
Proof.
  intros Hz HM Hab Hroot Hclose.
  assert (COM_row ext zval Mval cosmo = Ok (-1, -1, -1, -1)) as Hrow.
  { unfold COM_row. rewrite Hab. cbn. rewrite Hroot. cbn. by rewrite Hclose. }
  assert (∀ e, COM ext (Sequence z) (Sequence M) cosmo = Raise e →
            ∃ j zj Mj,
              j ≠ i ∧ z !! j = Some zj ∧ M !! j = Some Mj
              ∧ (calc_ab ext zj Mj cosmo = Raise e
                 ∨ ∃ aj bj,
                     calc_ab ext zj Mj cosmo = Ok (aj, bj)
                     ∧ COM_root ext zj aj bj cosmo = Raise e)) as Hraise.
  { intros e (j & zj & Mj & Hzj & HMj & He)%COM_Raise. cbn in Hzj, HMj.
    exists j, zj, Mj. split; [|split; [done|split; [done|]]].
    - intros ->. rewrite Hz in Hzj. rewrite HM in HMj.
      injection Hzj as <-. injection HMj as <-. by rewrite Hrow in He.
    - by apply COM_row_Raise. }
  split; [done|]. split.
  - intros Hothers.
    destruct (COM ext (Sequence z) (Sequence M) cosmo)
      as [[[[cs sigs] nus] zfs]|e] eqn:HCOM; [by eexists _, _, _, _|].
    destruct (Hraise e eq_refl) as (j & zj & Mj & Hji & Hzj & HMj & He).
    destruct (Hothers j zj Mj Hji Hzj HMj) as (aj & bj & cj & Habj & Hrootj).
    destruct He as [He|(aj' & bj' & Habj' & He)]; [congruence|].
    rewrite Habj in Habj'. injection Habj' as <- <-. congruence.
  - intros cs sigs nus zfs HCOM.
    destruct (COM_Ok_lookup _ _ _ _ _ _ _ i zval Mval HCOM Hz HM)
      as (c' & sig' & nu' & zf' & Hrow' & Hc & Hsig & Hnu & Hzf).
    rewrite Hrow in Hrow'. injection Hrow' as <- <- <- <-.
    repeat (split; [done|]).
    intros j zj Mj Hzj HMj.
    destruct (COM_Ok_lookup _ _ _ _ _ _ _ j zj Mj HCOM Hzj HMj)
      as (cj' & sigj & nuj & zfj & Hrowj & Hcj & Hsigj & Hnuj & Hzfj).
    apply COM_row_values in Hrowj as (aj & bj & cj & Habj & Hrootj & Hvals).
    exists aj, bj, cj. split; [done|]. split; [done|].
    destruct (isclose cj 0).
    + destruct Hvals as (-> & -> & -> & ->). done.
    + destruct Hvals
        as (A & oM & oL & gf & HA & HoM & HoL & Hgf & -> & -> & -> & ->).
      exists A, oM, oL, gf. by repeat (split; [done|]).
Qed.

(** C10. The root returned by [brentq] lies in the bracket it is given.
    Then every concentration that [COM] stores lies in the bracket
    [[2, 1000]], the test for a root close to zero never holds, so the
    sentinel branch is never taken; and [COM] either returns concentrations
    in [[2, 1000]] for all rows, or propagates an exception raised for one
    row by the computation of the indices or by the root-finding call. *)
Theorem COM_concentration_in_bracket (z M : pyarg) cosmo :
  brentq_in_bracket ext →
  (∀ zval a_tilde b_tilde c,
      COM_root ext zval a_tilde b_tilde cosmo = Ok c →
      2 <= c <= 1000 ∧ isclose c 0 = false)
  ∧ (∀ cs sigs nus zfs,
      COM ext z M cosmo = Ok (cs, sigs, nus, zfs) →
      ∀ j zval Mval,
        np_array z !! j = Some zval → np_array M !! j = Some Mval →
        ∃ c, cs !! j = Some c ∧ 2 <= c <= 1000)
  ∧ (∀ e,
      COM ext z M cosmo = Raise e →
      ∃ j zval Mval,
        np_array z !! j = Some zval ∧ np_array M !! j = Some Mval
        ∧ (calc_ab ext zval Mval cosmo = Raise e
           ∨ ∃ a_tilde b_tilde,
               calc_ab ext zval Mval cosmo = Ok (a_tilde, b_tilde)
               ∧ COM_root ext zval a_tilde b_tilde cosmo = Raise e)).
Proof.
  intros Hbr. split; [|split].
  - intros zval a b c. by apply COM_root_bracket.
  - intros cs sigs nus zfs HCOM j zval Mval Hz HM.
    destruct (COM_Ok_lookup _ _ _ _ _ _ _ j zval Mval HCOM Hz HM)
      as (c & sig & nu & zf & Hrow & Hc & _).
    exists c. split; [done|].
    apply COM_row_inv in Hrow as (a & b & c0 & _ & Hroot & Hcase).
    destruct (COM_root_bracket _ _ _ _ _ Hbr Hroot) as [Hin Hfar].
    destruct Hcase as [[Hclose _]|[_ ->]]; [congruence|done].
  - intros e (j & zval & Mval & Hz & HM & Hrow)%COM_Raise.
    exists j, zval, Mval. repeat split; try done.
    by apply COM_row_Raise.
Qed.

End numerical_core.

(** ** Properties of the orchestrator *)

Section world_monad.

Lemma W_bind_unfold {A B} (m : W A) (k : A → W B) (w : world) :
  (m ≫= k) w
  = match m w with
    | (Ok a, w') => k a w'
    | (Raise e, w') => (Raise e, w')
    end.
Proof. reflexivity. Qed.

Lemma for_each_W_ext {A S} (xs : list A) (body1 body2 : S → A → W S) s w :
  (∀ s x w, body1 s x w = body2 s x w) →
  for_each xs s body1 w = for_each xs s body2 w.
Proof.
  intros Hext. revert s w. induction xs as [|x xs IH]; intros s w; [done|].
  cbn [for_each]. rewrite !W_bind_unfold, Hext.
  destruct (body2 s x w) as [[s'|e] w']; [apply IH|done].
Qed.

(** The invariant rule of a [for] loop: [Inv k] holds before the iteration
    of index [k], and [Stop] holds when an iteration raises. *)
Lemma for_each_W_inv {A St} (xs : list A) (body : St → A → W St)
    (Inv : nat → St → world → Prop) (Stop : world → Prop) s w :
  Inv 0%nat s w →
  (∀ k x s w, xs !! k = Some x → Inv k s w →
     match body s x w with
     | (Ok s', w') => Inv (S k) s' w'
     | (Raise _, w') => Stop w'
     end) →
  match for_each xs s body w with
  | (Ok s', w') => Inv (length xs) s' w'
  | (Raise _, w') => Stop w'
  end.
Proof.
  revert Inv s w. induction xs as [|x xs IH]; intros Inv s w H0 Hstep; [done|].
  cbn [for_each length]. rewrite W_bind_unfold.
  pose proof (Hstep 0%nat x s w eq_refl H0) as Hx.
  destruct (body s x w) as [[s'|e] w']; [|done].
  apply (IH (λ k, Inv (S k))); [done|].
  intros k y s'' w'' Hy. by apply (Hstep (S k)).
Qed.

Lemma enumerate_lookup {A} (xs : list A) k j x :
  enumerate xs !! k = Some (j, x) ↔ j = k ∧ xs !! k = Some x.
Proof.
  unfold enumerate. rewrite lookup_zip_Some, lookup_seq. cbn.
  split; [intros [[-> ?] ?]; done|intros [-> Hx]].
  split; [|done]. split; [done|]. by eapply lookup_lt_Some.
Qed.

Lemma length_enumerate {A} (xs : list A) : length (enumerate xs) = length xs.
Proof. unfold enumerate. rewrite length_zip, length_seq. lia. Qed.

Lemma getidx_Ok (a : list R) i x : getidx a i = Ok x ↔ a !! i = Some x.
Proof. unfold getidx. destruct (a !! i); split; by intros [= ->]. Qed.

(** The rows of one halo: the loop writes the rows [mk 0], [mk 1], ... at
    the indices [(i_ind, 0)], [(i_ind, 1)], ... and does nothing else. *)
Lemma row_loop_spec (mk : nat → result (list R)) (i_ind : nat) (ztemp : list R)
    (dataset : list (list (list R))) (w : world) :
  match for_each (enumerate ztemp) dataset
          (λ dataset '(j_ind, j_val),
            row ← lift (mk j_ind); setitem dataset i_ind j_ind row) w with
  | (r, w') =>
      heap w' = heap w
      ∧ ∃ rows : list (list R),
          trace w' = trace w ++ imap (λ j row, SetItem i_ind j row) rows
          ∧ (length rows ≤ length ztemp)%nat
          ∧ (∀ j row, rows !! j = Some row → mk j = Ok row)
          ∧ (∀ dataset', r = Ok dataset' → length rows = length ztemp)
  end.
Proof.
  set (Inv := λ (k : nat) (_ : list (list (list R))) (w' : world),
    heap w' = heap w
    ∧ ∃ rows : list (list R),
        trace w' = trace w ++ imap (λ j row, SetItem i_ind j row) rows
        ∧ length rows = k
        ∧ (∀ j row, rows !! j = Some row → mk j = Ok row)).
  set (Stop := λ w' : world,
    heap w' = heap w
    ∧ ∃ rows : list (list R),
        trace w' = trace w ++ imap (λ j row, SetItem i_ind j row) rows
        ∧ (length rows < length ztemp)%nat
        ∧ (∀ j row, rows !! j = Some row → mk j = Ok row)).
  pose proof (for_each_W_inv (enumerate ztemp)
    (λ dataset '(j_ind, j_val),
       row ← lift (mk j_ind); setitem dataset i_ind j_ind row)
    Inv Stop dataset w) as Hloop.
  destruct (@for_each W _ _ _ _ _ _ _ w) as [[ds'|e] w'];
    (destruct Hloop as (Hheap & rows & Htrace & Hlen & Hrows);
     [split; [done|]; exists []; cbn; by rewrite app_nil_r| |]).
  1,3: intros k [j x] ds w1 [-> Hx]%enumerate_lookup
         (Hheap & rows & Htrace & Hlen & Hrows);
       assert (k < length ztemp)%nat by (by eapply lookup_lt_Some);
       rewrite W_bind_unfold; unfold lift;
       (destruct (mk k) as [row|e'] eqn:Hmk;
          [|split; [done|]; exists rows; repeat split; (done || lia)]);
       unfold setitem;
       (destruct (ds !! i_ind) as [line|];
          [|split; [done|]; exists rows; repeat split; (done || lia)]);
       (case_bool_decide;
          [|split; [done|]; exists rows; repeat split; (done || lia)]);
       rewrite W_bind_unfold; cbn;
       split; [done|]; exists (rows ++ [row]);
       rewrite imap_app, Htrace, <-app_assoc; cbn; rewrite Nat.add_0_r, Hlen;
       (split; [done|]); (split; [rewrite length_app; cbn; lia|]);
       intros j row' [?|[? Hj]]%lookup_app_Some; [by eauto|];
       apply list_lookup_singleton_Some in Hj as [Hj <-];
       by replace j with k by lia.
  - rewrite length_enumerate in Hlen.
    split; [done|]. exists rows. split; [done|]. split; [lia|]. done.
  - split; [done|]. exists rows. split; [done|]. split; [lia|]. done.
Qed.

Lemma com_calls_app (evs1 evs2 : list event) :
  com_calls (evs1 ++ evs2) = com_calls evs1 ++ com_calls evs2.
Proof. apply omap_app. Qed.

Lemma written_app (evs1 evs2 : list event) :
  written (evs1 ++ evs2) = written evs1 ++ written evs2.
Proof. apply omap_app. Qed.

Lemma written_setitems (i_ind : nat) (rows : list (list R)) :
  written (imap (λ j row, SetItem i_ind j row) rows)
  = imap (λ j row, (i_ind, j, row)) rows.
Proof.
  unfold written.
  assert (∀ k, omap (λ e, match e with
                          | SetItem i j row => Some (i, j, row)
                          | _ => None
                          end)
                 (imap (λ j row, SetItem i_ind (k + j) row) rows)
               = imap (λ j row, (i_ind, (k + j)%nat, row)) rows) as Hgen.
  { induction rows as [|row rows IH]; intros k; [done|].
    cbn. rewrite Nat.add_0_r. f_equal.
    etrans; [|etrans; [apply (IH (S k))|]].
    - f_equal. apply imap_ext. intros j r _. cbn. f_equal. lia.
    - apply imap_ext. intros j r _. cbn. do 2 f_equal. lia. }
  apply (Hgen 0%nat).
Qed.

Lemma com_calls_setitems (i_ind : nat) (rows : list (list R)) :
  com_calls (imap (λ j row, SetItem i_ind j row) rows) = [].
Proof.
  unfold com_calls.
  assert (∀ k, omap (λ e, match e with
                          | CallCOM z M => Some (z, M)
                          | _ => None
                          end)
                 (imap (λ j row, SetItem i_ind (k + j) row) rows) = [])
    as Hgen.
  { induction rows as [|row rows IH]; intros k; [done|].
    cbn. rewrite <-(IH (S k)). f_equal. apply imap_ext. intros j r _. cbn.
    f_equal. lia. }
  apply (Hgen 0%nat).
Qed.

Lemma getcosmo_calls_app (evs1 evs2 : list event) :
  getcosmo_calls (evs1 ++ evs2) = getcosmo_calls evs1 ++ getcosmo_calls evs2.
Proof. apply omap_app. Qed.

Lemma getcosmo_calls_setitems (i_ind : nat) (rows : list (list R)) :
  getcosmo_calls (imap (λ j row, SetItem i_ind j row) rows) = [].
Proof.
  unfold getcosmo_calls.
  assert (∀ k, omap (λ e, match e with
                          | CallGetcosmo => Some ()
                          | _ => None
                          end)
                 (imap (λ j row, SetItem i_ind (k + j) row) rows) = [])
    as Hgen.
  { induction rows as [|row rows IH]; intros k; [done|].
    cbn. rewrite <-(IH (S k)). f_equal. apply imap_ext. intros j r _. cbn.
    f_equal. lia. }
  apply (Hgen 0%nat).
Qed.

Lemma fst_imap_indices (i_ind : nat) (rows : list (list R)) :
  (imap (λ j row, (i_ind, j, row)) rows).*1
  = (λ j, (i_ind, j)) <$> seq 0 (length rows).
Proof.
  apply list_eq. intros j.
  rewrite !list_lookup_fmap, list_lookup_imap.
  destruct (rows !! j) as [row|] eqn:Hj; cbn.
  - rewrite lookup_seq_lt by (by eapply lookup_lt_Some). done.
  - apply lookup_ge_None in Hj. by rewrite lookup_seq_ge by lia.
Qed.

(** The events of the loop over the rows of one halo. *)
Lemma row_loop_events (mk : nat → result (list R)) (i_ind : nat)
    (ztemp : list R) (zval Mval : R) (dataset : list (list (list R)))
    (w : world) :
  (∀ j row, mk j = Ok row →
     row !! 0%nat = Some zval ∧ row !! 1%nat = Some Mval
     ∧ ∃ zr, ztemp !! j = Some zr ∧ row !! 2%nat = Some zr) →
  match for_each (enumerate ztemp) dataset
          (λ dataset '(j_ind, j_val),
            row ← lift (mk j_ind); setitem dataset i_ind j_ind row) w with
  | (r, w') =>
      heap w' = heap w
      ∧ ∃ evs,
          trace w' = trace w ++ evs
          ∧ com_calls evs = []
          ∧ getcosmo_calls evs = []
          ∧ (∀ i j row, (i, j, row) ∈ written evs →
               i = i_ind ∧ row !! 0%nat = Some zval ∧ row !! 1%nat = Some Mval
               ∧ ∃ zr, ztemp !! j = Some zr ∧ row !! 2%nat = Some zr)
          ∧ (∀ dataset', r = Ok dataset' →
               (written evs).*1 = (λ j, (i_ind, j)) <$> seq 0 (length ztemp))
  end.
Proof.
  intros Hmk.
  pose proof (row_loop_spec mk i_ind ztemp dataset w) as Hloop.
  destruct (@for_each W _ _ _ _ _ _ _ w) as [r w'].
  destruct Hloop as (Hheap & rows & Htrace & Hlen & Hrows & HOk).
  split; [done|]. exists (imap (λ j row, SetItem i_ind j row) rows).
  split; [done|]. split; [apply com_calls_setitems|].
  split; [apply getcosmo_calls_setitems|].
  rewrite written_setitems. split.
  - intros i j row (j' & row' & [= -> -> ->] & Hj)%elem_of_lookup_imap.
    split; [done|]. by apply Hmk, Hrows.
  - intros ds' Hr. by rewrite fst_imap_indices, (HOk ds' Hr).
Qed.

End world_monad.

Section orchestrator.
Context (ext : collaborators).

(** The output redshifts of a halo are the requested ones that are not
    below its initial redshift. *)
Lemma targets_spec (zs : list R) (zval x : R) :
  x ∈ targets (Some zs) zval ↔ x ∈ zs ∧ x >= zval.
Proof. unfold targets. rewrite list_elem_of_filter. tauto. Qed.

Lemma targets_nil (zs : list R) (zval : R) :
  targets (Some zs) zval = [] ↔ ∀ x, x ∈ zs → x < zval.
Proof.
  split.
  - intros Hnil x Hx. destruct (Rlt_dec x zval) as [|Hge]; [done|].
    assert (x ∈ targets (Some zs) zval) as Hin.
    { apply targets_spec. split; [done|lra]. }
    rewrite Hnil in Hin. by apply elem_of_nil in Hin.
  - intros Hlt. destruct (targets (Some zs) zval) as [|x l] eqn:Ht; [done|].
    assert (x ∈ targets (Some zs) zval) as [Hx Hge]%targets_spec.
    { rewrite Ht. apply list_elem_of_here. }
    specialize (Hlt x Hx). lra.
Qed.

(** What one iteration of the loop of [run] does. *)
Lemma run_halo_spec cosmo z com mah dataset i_ind zval Mval w :
  let ztemp := targets z zval in
  let kw := default ∅ (heap w !! cosmo) in
  match run_halo ext cosmo z com mah dataset i_ind zval Mval w with
  | (r, w') =>
      heap w' = heap w
      ∧ ∃ evs,
          trace w' = trace w ++ evs
          ∧ halo_outcome ext kw com mah dataset i_ind zval Mval ztemp evs r
  end.
Proof.
  intros ztemp kw. unfold run_halo. fold ztemp.
  case_bool_decide as Hne.
  2:{ split; [done|]. exists []. rewrite app_nil_r.
      unfold halo_outcome. rewrite Hne. repeat split; try done;
        intros; match goal with H : _ ∈ _ |- _ => by apply elem_of_nil in H end. }
  rewrite W_bind_unfold. cbn [deref]. fold kw.
  rewrite W_bind_unfold. cbn [emit].
  set (w1 := World (heap w) (trace w ++ [CallMAH ztemp zval Mval])).
  rewrite W_bind_unfold. unfold lift at 1.
  destruct (MAH ext (Sequence ztemp) zval Mval kw) as [[dMdt Mz]|e] eqn:HMAH.
  2:{ split; [done|]. exists [CallMAH ztemp zval Mval].
      unfold halo_outcome. rewrite HMAH. repeat split; try done;
        intros; match goal with H : _ ∈ _ |- _ => by apply elem_of_nil in H end. }
  assert (∀ e, com || negb mah = true →
               halo_outcome ext kw com mah dataset i_ind zval Mval ztemp
                 [CallMAH ztemp zval Mval; CallCOM ztemp Mz] (Raise e))
    as Hbroken.
  { intros e Hflag. unfold halo_outcome. rewrite HMAH. cbn.
    split; [done|]. split; [done|]. split; [|split; [|split; [|done]]].
    - intros zt M [= -> ->]%list_elem_of_singleton. by eauto.
    - intros dMdt' Mz' _ _ [= _ <-]. apply list_elem_of_here.
    - by intros i j row ?%elem_of_nil. }
  assert (∀ (pre : list event) (w2 : world) (mk : nat → result (list R))
            (body : list (list (list R)) → nat * R → W (list (list (list R)))),
    heap w2 = heap w → trace w2 = trace w ++ pre →
    written pre = [] → getcosmo_calls pre = [] →
    (com_calls pre = [] ∧ com || negb mah = false
     ∨ com_calls pre = [(ztemp, Mz)] ∧ com || negb mah = true) →
    (∀ ds x w0, body ds x w0
       = (let '(j_ind, j_val) := x in
          row ← lift (mk j_ind); setitem ds i_ind j_ind row) w0) →
    (∀ j row, mk j = Ok row →
       row !! 0%nat = Some zval ∧ row !! 1%nat = Some Mval
       ∧ ∃ zr, ztemp !! j = Some zr ∧ row !! 2%nat = Some zr) →
    match for_each (enumerate ztemp) dataset body w2 with
    | (r, w') =>
      heap w' = heap w
      ∧ ∃ evs,
          trace w' = trace w ++ evs
          ∧ halo_outcome ext kw com mah dataset i_ind zval Mval ztemp evs r
    end) as Hrows.
  { intros pre w2 mk body Hheap2 Htrace2 Hwpre Hgpre Hcpre Hbody Hmk.
    rewrite (for_each_W_ext _ body
               (λ ds '(j_ind, j_val),
                  row ← lift (mk j_ind); setitem ds i_ind j_ind row))
      by (intros ds [j x] w0; apply Hbody).
    pose proof (row_loop_events mk i_ind ztemp zval Mval dataset w2 Hmk)
      as Hloop.
    destruct (@for_each W _ _ _ _ _ _ _ w2) as [r w'].
    destruct Hloop as (Hheap & evs & Htr & Hcc & Hgc & Hwr & HOk).
    split; [congruence|]. exists (pre ++ evs).
    split; [by rewrite Htr, Htrace2, app_assoc|].
    unfold halo_outcome.
    rewrite getcosmo_calls_app, com_calls_app, written_app, Hcc, Hgc, Hwpre,
      Hgpre, HMAH, app_nil_r.
    cbn [app].
    split; [done|]. split; [done|].
    split; [|split; [|split; [done|]]].
    - intros zt M HzM. destruct Hcpre as [[Hc _]|[Hc Hflag]]; rewrite Hc in HzM.
      + by apply elem_of_nil in HzM.
      + apply list_elem_of_singleton in HzM as [= -> ->]. eauto.
    - intros dMdt' Mz' _ Hflag [= _ <-].
      destruct Hcpre as [[_ Hno]|[-> _]]; [congruence|apply list_elem_of_here].
    - intros ds' Hr. split; [by apply (HOk ds')|].
      destruct Hcpre as [[Hc Hflag]|[Hc Hflag]]; rewrite Hc, Hflag;
        split; try done. eauto. }
  destruct mah, com; cbn [andb orb negb] in *.
  - (* mah and com *)
    rewrite W_bind_unfold. cbn [deref heap w1]. fold kw.
    rewrite W_bind_unfold. cbn [emit heap trace w1].
    rewrite W_bind_unfold. unfold lift at 1.
    destruct (COM ext (Sequence ztemp) (Sequence Mz) kw)
      as [[[[c sig] nu] zf]|e].
    2:{ split; [done|]. exists [CallMAH ztemp zval Mval; CallCOM ztemp Mz].
        rewrite <-app_assoc. split; [done|]. by apply Hbroken. }
    apply (Hrows [CallMAH ztemp zval Mval; CallCOM ztemp Mz] _
             (λ j, zj ← getidx ztemp j; dMdtj ← getidx dMdt j;
                   Mzj ← getidx Mz j; cj ← getidx c j; sigj ← getidx sig j;
                   nuj ← getidx nu j; zfj ← getidx zf j;
                   Ok [zval; Mval; zj; dMdtj; Mzj; cj; sigj; nuj; zfj]));
      [done|by rewrite <-app_assoc|done|done|by right| |].
    + intros ds [j x] w0. rewrite !W_bind_unfold. unfold lift.
      repeat (match goal with
              | |- context [getidx ?a ?i] => destruct (getidx a i)
              end; cbn; try done).
    + intros j row (zj & Hzj%getidx_Ok & Hrow)%result_bind_Ok.
      repeat (apply result_bind_Ok in Hrow as (? & _ & Hrow)).
      injection Hrow as <-. cbn. eauto.
  - (* mah only *)
    apply (Hrows [CallMAH ztemp zval Mval] w1
             (λ j, zj ← getidx ztemp j; dMdtj ← getidx dMdt j;
                   Mzj ← getidx Mz j;
                   Ok [zval; Mval; zj; dMdtj; Mzj]));
      [done|done|done|done|by left| |].
    + intros ds [j x] w0. rewrite !W_bind_unfold. unfold lift.
      repeat (match goal with
              | |- context [getidx ?a ?i] => destruct (getidx a i)
              end; cbn; try done).
    + intros j row (zj & Hzj%getidx_Ok & Hrow)%result_bind_Ok.
      repeat (apply result_bind_Ok in Hrow as (? & _ & Hrow)).
      injection Hrow as <-. cbn. eauto.
  - (* com only *)
    rewrite W_bind_unfold. cbn [deref heap w1]. fold kw.
    rewrite W_bind_unfold. cbn [emit heap trace w1].
    rewrite W_bind_unfold. unfold lift at 1.
    destruct (COM ext (Sequence ztemp) (Sequence Mz) kw)
      as [[[[c sig] nu] zf]|e].
    2:{ split; [done|]. exists [CallMAH ztemp zval Mval; CallCOM ztemp Mz].
        rewrite <-app_assoc. split; [done|]. by apply Hbroken. }
    apply (Hrows [CallMAH ztemp zval Mval; CallCOM ztemp Mz] _
             (λ j, zj ← getidx ztemp j; cj ← getidx c j; sigj ← getidx sig j;
                   nuj ← getidx nu j; zfj ← getidx zf j;
                   Ok [zval; Mval; zj; cj; sigj; nuj; zfj]));
      [done|by rewrite <-app_assoc|done|done|by right| |].
    + intros ds [j x] w0. rewrite !W_bind_unfold. unfold lift.
      repeat (match goal with
              | |- context [getidx ?a ?i] => destruct (getidx a i)
              end; cbn; try done).
    + intros j row (zj & Hzj%getidx_Ok & Hrow)%result_bind_Ok.
      repeat (apply result_bind_Ok in Hrow as (? & _ & Hrow)).
      injection Hrow as <-. cbn. eauto.
  - (* neither: the last branch is taken *)
    rewrite W_bind_unfold. cbn [deref heap w1]. fold kw.
    rewrite W_bind_unfold. cbn [emit heap trace w1].
    rewrite W_bind_unfold. unfold lift at 1.
    destruct (COM ext (Sequence ztemp) (Sequence Mz) kw)
      as [[[[c sig] nu] zf]|e].
    2:{ split; [done|]. exists [CallMAH ztemp zval Mval; CallCOM ztemp Mz].
        rewrite <-app_assoc. split; [done|]. by apply Hbroken. }
    apply (Hrows [CallMAH ztemp zval Mval; CallCOM ztemp Mz] _
             (λ j, zj ← getidx ztemp j; cj ← getidx c j; sigj ← getidx sig j;
                   nuj ← getidx nu j; zfj ← getidx zf j;
                   Ok [zval; Mval; zj; cj; sigj; nuj; zfj]));
      [done|by rewrite <-app_assoc|done|done|by right| |].
    + intros ds [j x] w0. rewrite !W_bind_unfold. unfold lift.
      repeat (match goal with
              | |- context [getidx ?a ?i] => destruct (getidx a i)
              end; cbn; try done).
    + intros j row (zj & Hzj%getidx_Ok & Hrow)%result_bind_Ok.
      repeat (apply result_bind_Ok in Hrow as (? & _ & Hrow)).
      injection Hrow as <-. cbn. eauto.
Qed.

(** *** The resolver *)

Lemma only_at_refl ref w : only_at ref w w.
Proof. by split. Qed.

Lemma only_at_trans ref w1 w2 w3 :
  only_at ref w1 w2 → only_at ref w2 w3 → only_at ref w1 w3.
Proof.
  intros [Ht1 Hh1] [Ht2 Hh2]. split; [congruence|].
  intros l Hl. by rewrite Hh2, Hh1.
Qed.

Lemma only_at_modify ref f w : only_at ref w (modify ref f w).2.
Proof.
  split; [done|]. intros l Hl. cbn. by rewrite lookup_insert_ne.
Qed.

(** The loop of [getcosmo] that adds the missing parameters never raises and
    writes only into the caller's dict. *)
Lemma fill_missing_spec (ref : loc) (keys : list string) (w : world) :
  match for_each keys ()
          (λ _ paramnames,
            d ← deref ref;
            if bool_decide (d !! paramnames = None) then
              update ref paramnames (VNum 0)
            else mret ()) w with
  | (r, w') => r = Ok () ∧ only_at ref w w'
  end.
Proof.
  revert w. induction keys as [|key keys IH]; intros w.
  - split; [done|apply only_at_refl].
  - cbn [for_each]. rewrite !W_bind_unfold. cbn [deref].
    case_bool_decide.
    + unfold update.
      pose proof (only_at_modify ref <[key := VNum 0]> w) as Hmod.
      destruct (modify ref <[key:=VNum 0]> w) as [[[]|e] w1] eqn:Hm;
        [|discriminate Hm].
      specialize (IH w1). destruct (@for_each W _ _ _ _ _ _ _ w1) as [r w'].
      destruct IH as [-> Hw']. split; [done|]. by eapply only_at_trans.
    + cbn. apply IH.
Qed.

(** The end of [getcosmo]: the curvature and the baryonic flag are written
    into the dict that was resolved. *)
Lemma getcosmo_finish_spec (a : loc) (w : world) :
  match (modify a (set_omega_k_0 ext)
         ≫= λ _ : (),
              deref a
              ≫= λ d : dict,
                   lift (getitem d "omega_b_0")
                   ≫= λ omega_b_0 : R,
                        (if bool_decide (omega_b_0 > 0)
                         then update a "baryonic_effects" (VBool true)
                         else update a "baryonic_effects" (VBool false))
                        ≫= λ _ : (), mret a) w with
  | (r, w') =>
      only_at a w w'
      ∧ ∀ cosmo, r = Ok cosmo →
          cosmo = a
          ∧ ∃ d b, heap w' !! a = Some d
                   ∧ d !! "baryonic_effects" = Some (VBool b)
  end.
Proof.
  rewrite W_bind_unfold.
  pose proof (only_at_modify a (set_omega_k_0 ext) w) as Hmod.
  destruct (modify a (set_omega_k_0 ext) w) as [[[]|e] w1] eqn:Hm;
    [|discriminate Hm].
  cbn [snd] in Hmod.
  rewrite W_bind_unfold. cbn [deref].
  rewrite W_bind_unfold. unfold lift.
  destruct (getitem _ "omega_b_0") as [omega_b_0|e]; [|by split].
  rewrite W_bind_unfold.
  case_bool_decide; unfold update;
    (split; [eapply only_at_trans; [done|apply only_at_modify]|]);
    intros cosmo [= <-]; (split; [done|]); cbn;
    rewrite lookup_insert_eq; eexists _, _; (split; [done|]);
    by rewrite lookup_insert_eq.
Qed.

Lemma getcosmo_dict_spec (ref : loc) (w : world) :
  match getcosmo ext (CosmoDict ref) w with
  | (r, w') =>
      only_at ref w w'
      ∧ ∀ cosmo, r = Ok cosmo →
          cosmo = ref
          ∧ ∃ d b, heap w' !! ref = Some d
                   ∧ d !! "baryonic_effects" = Some (VBool b)
  end.
Proof.
  unfold getcosmo.
  rewrite W_bind_unfold.
  rewrite (W_bind_unfold (deref ref)). cbn [deref].
  set (d0 := default ∅ (heap w !! ref)).
  rewrite W_bind_unfold.
  assert (∃ w1, only_at ref w w1
          ∧ ((if bool_decide (d0 !! "A_scaling" = None)
              then A_scaling ← lift (getAscaling ext (DictV d0) true);
                   update ref "A_scaling" (VNum A_scaling)
              else mret ()) w = (Ok (), w1)
             ∨ ∃ e, (if bool_decide (d0 !! "A_scaling" = None)
              then A_scaling ← lift (getAscaling ext (DictV d0) true);
                   update ref "A_scaling" (VNum A_scaling)
              else mret ()) w = (Raise e, w1))) as (w1 & Hw1 & Hstep).
  { case_bool_decide.
    - rewrite W_bind_unfold. unfold lift.
      destruct (getAscaling ext (DictV d0) true) as [A|e].
      + eexists. split; [|left; reflexivity]. apply only_at_modify.
      + exists w. split; [apply only_at_refl|]. right. by exists e.
    - exists w. split; [apply only_at_refl|]. by left. }
  destruct Hstep as [->|[e ->]]; [|by split].
  rewrite W_bind_unfold.
  pose proof (fill_missing_spec ref
                (map fst (map_to_list (cg ext "WMAP5_mean"))) w1) as Hfill.
  destruct (@for_each W _ _ _ _ _ _ _ w1) as [r w2].
  destruct Hfill as [-> Hw2]. cbn [mret W_ret].
  pose proof (getcosmo_finish_spec ref w2) as Hfin.
  match goal with
  | |- context [(modify ref ?f ≫= ?k) w2] =>
      destruct ((modify ref f ≫= k) w2) as [r w3]
  end.
  destruct Hfin as [Hw3 Hr]. split; [|done].
  eapply only_at_trans; [done|]. by eapply only_at_trans.
Qed.

Lemma getcosmo_name_spec (name : string) (w : world) :
  match getcosmo ext (CosmoName name) w with
  | (r, w') =>
      trace w' = trace w
      ∧ (∀ l d, heap w !! l = Some d → heap w' !! l = Some d)
      ∧ ∀ cosmo, r = Ok cosmo →
          ∃ d b, heap w' !! cosmo = Some d
                 ∧ d !! "baryonic_effects" = Some (VBool b)
  end.
Proof.
  unfold getcosmo. rewrite W_bind_unfold.
  destruct (defaultcosmologies ext !! lower name) as [d0|]; [|done].
  rewrite W_bind_unfold. cbn [alloc].
  set (ref := fresh (dom (heap w))).
  assert (heap w !! ref = None) as Hfresh.
  { apply not_elem_of_dom. apply is_fresh. }
  rewrite W_bind_unfold. unfold lift at 1.
  destruct (getAscaling ext (NameV name) false) as [A|e].
  2:{ cbn. split; [done|]. split; [|done]. intros l d Hl.
      rewrite lookup_insert_ne; [done|]. intros <-. congruence. }
  rewrite W_bind_unfold. unfold update at 1. cbn [modify heap trace].
  cbn [mret W_ret].
  match goal with
  | |- context [(modify ref ?f ≫= ?k) ?w2] =>
      pose proof (getcosmo_finish_spec ref w2) as Hfin;
      destruct ((modify ref f ≫= k) w2) as [r w3]
  end.
  destruct Hfin as [[Htr Hheap] Hr]. cbn in Htr, Hheap.
  split; [done|]. split.
  - intros l d Hl. assert (l ≠ ref) as Hne by (intros ->; congruence).
    rewrite Hheap by done. by rewrite !lookup_insert_ne.
  - intros cosmo Hcosmo. destruct (Hr cosmo Hcosmo) as (-> & d & b & ? & ?).
    eauto.
Qed.

Lemma getcosmo_spec (cosmology : cosmology_arg) (w : world) :
  match getcosmo ext cosmology w with
  | (r, w') =>
      trace w' = trace w
      ∧ ∀ cosmo, r = Ok cosmo →
          ∃ d b, heap w' !! cosmo = Some d
                 ∧ d !! "baryonic_effects" = Some (VBool b)
  end.
Proof.
  destruct cosmology as [name|ref].
  - pose proof (getcosmo_name_spec name w) as H.
    destruct (getcosmo ext (CosmoName name) w) as [r w'].
    destruct H as (? & _ & ?). done.
  - pose proof (getcosmo_dict_spec ref w) as H.
    destruct (getcosmo ext (CosmoDict ref) w) as [r w'].
    destruct H as ([? _] & Hr). split; [done|].
    intros cosmo Hc. destruct (Hr cosmo Hc) as (-> & ?). done.
Qed.

(** *** The loop over the haloes *)

Lemma row_indices_snoc z (samples : list (R * R)) (s : R * R) :
  row_indices z (samples ++ [s])
  = row_indices z samples
    ++ ((λ j, (length samples, j)) <$> seq 0 (length (targets z s.1))).
Proof.
  unfold row_indices. rewrite imap_app, join_app. cbn.
  by rewrite app_nil_r, Nat.add_0_r.
Qed.

Lemma com_calls_follow_mah_snoc kw z (samples : list (R * R)) (s : R * R)
    (calls1 calls2 : list (list R * list R)) :
  com_calls_follow_mah ext kw z samples calls1 →
  (targets z s.1 = [] → calls2 = []) →
  (targets z s.1 ≠ [] →
     ∃ dMdt Mz, MAH ext (Sequence (targets z s.1)) s.1 s.2 kw = Ok (dMdt, Mz)
                ∧ calls2 = [(targets z s.1, Mz)]) →
  com_calls_follow_mah ext kw z (samples ++ [s]) (calls1 ++ calls2).
Proof.
  intros H1 Hnil Hne. unfold com_calls_follow_mah in *.
  rewrite filter_app. apply Forall2_app; [done|].
  rewrite filter_cons, filter_nil.
  destruct (decide (targets z s.1 ≠ [])) as [Hs|Hs].
  - destruct (Hne Hs) as (dMdt & Mz & HMAH & ->).
    repeat constructor. cbn. by exists dMdt.
  - rewrite Hnil; [constructor|].
    by destruct (targets z s.1); [|exfalso; apply Hs].
Qed.

Lemma run_loop_spec cosmo z com mah (samples : list (R * R)) dataset w1 :
  com || mah = true →
  let kw := default ∅ (heap w1 !! cosmo) in
  match for_each (enumerate samples) dataset
          (λ dataset '(i_ind, (zval, Mval)),
            run_halo ext cosmo z com mah dataset i_ind zval Mval) w1 with
  | (r, w') =>
      heap w' = heap w1
      ∧ ∃ evs,
          trace w' = trace w1 ++ evs
          ∧ getcosmo_calls evs = []
          ∧ (∀ zt M, (zt, M) ∈ com_calls evs →
               com = true
               ∧ ∃ zval Mval dMdt,
                   (zval, Mval) ∈ samples ∧ zt = targets z zval
                   ∧ MAH ext (Sequence zt) zval Mval kw = Ok (dMdt, M))
          ∧ (∀ i j row, (i, j, row) ∈ written evs →
               ∃ zval Mval zr,
                 samples !! i = Some (zval, Mval)
                 ∧ row !! 0%nat = Some zval ∧ row !! 1%nat = Some Mval
                 ∧ targets z zval !! j = Some zr ∧ row !! 2%nat = Some zr)
          ∧ (∀ dataset', r = Ok dataset' →
               (written evs).*1 = row_indices z samples
               ∧ (com = true →
                    com_calls_follow_mah ext kw z samples (com_calls evs))
               ∧ (com = false → com_calls evs = []))
  end.
Proof.
  intros Hsel kw.
  set (A := λ evs : list event,
    getcosmo_calls evs = []
    ∧ (∀ zt M, (zt, M) ∈ com_calls evs →
       com = true
       ∧ ∃ zval Mval dMdt,
           (zval, Mval) ∈ samples ∧ zt = targets z zval
           ∧ MAH ext (Sequence zt) zval Mval kw = Ok (dMdt, M))
    ∧ (∀ i j row, (i, j, row) ∈ written evs →
         ∃ zval Mval zr,
           samples !! i = Some (zval, Mval)
           ∧ row !! 0%nat = Some zval ∧ row !! 1%nat = Some Mval
           ∧ targets z zval !! j = Some zr ∧ row !! 2%nat = Some zr)).
  set (C := λ (k : nat) (evs : list event),
    (written evs).*1 = row_indices z (take k samples)
    ∧ (com = true →
         com_calls_follow_mah ext kw z (take k samples) (com_calls evs))
    ∧ (com = false → com_calls evs = [])).
  set (Inv := λ (k : nat) (_ : list (list (list R))) (w' : world),
    heap w' = heap w1 ∧ ∃ evs, trace w' = trace w1 ++ evs ∧ A evs ∧ C k evs).
  set (Stop := λ w' : world,
    heap w' = heap w1 ∧ ∃ evs, trace w' = trace w1 ++ evs ∧ A evs).
  assert (Inv 0%nat dataset w1) as Hinit.
  { split; [done|]. exists []. rewrite app_nil_r. split; [done|].
    split; [split; [done|]; split; intros;
              by match goal with
                 | H : _ ∈ _ |- _ => apply elem_of_nil in H
                 end|].
    repeat split; try done. intros _. constructor. }
  assert (∀ k x ds wk, enumerate samples !! k = Some x → Inv k ds wk →
            match (let '(i_ind, (zval, Mval)) := x in
                   run_halo ext cosmo z com mah ds i_ind zval Mval) wk with
            | (Ok s', w') => Inv (S k) s' w'
            | (Raise _, w') => Stop w'
            end) as Hstep.
  { intros k [i [zval Mval]] ds wk [-> Hk]%enumerate_lookup
      (Hheapk & evs & Htrace & (HA0 & HA1 & HA2) & HC1 & HC2 & HC3).
    pose proof (run_halo_spec cosmo z com mah ds k zval Mval wk) as Hhalo.
    cbn zeta in Hhalo. rewrite Hheapk in Hhalo. fold kw in Hhalo.
    destruct (run_halo ext cosmo z com mah ds k zval Mval wk) as [r wk'].
    destruct Hhalo
      as (Hheap' & evs' & Htrace' & Hgc & Hnil & Hcom & Hreach & Hwr & HOk).
    assert (A (evs ++ evs')) as HA'.
    { split; [by rewrite getcosmo_calls_app, HA0, Hgc|]. split.
      - intros zt M. rewrite com_calls_app.
        intros [Hin|Hin]%elem_of_app; [by apply HA1|].
        destruct (Hcom zt M Hin) as (Hflag & -> & dMdt & HMAH).
        split; [by destruct com, mah|].
        exists zval, Mval, dMdt. split; [by eapply list_elem_of_lookup_2|done].
      - intros i j row. rewrite written_app.
        intros [Hin|Hin]%elem_of_app; [by apply HA2|].
        destruct (Hwr i j row Hin) as (-> & ? & ? & zr & ? & ?).
        by exists zval, Mval, zr. }
    assert (trace wk' = trace w1 ++ evs ++ evs') as Htr
      by (by rewrite Htrace', Htrace, app_assoc).
    destruct r as [ds2|e2]; [|split; [congruence|]; by exists (evs ++ evs')].
    split; [congruence|]. exists (evs ++ evs').
    split; [done|]. split; [done|].
    destruct (HOk ds2 eq_refl) as (Hidx & Hcalls & Hnocalls).
    unfold C. rewrite (take_S_r _ _ _ Hk).
    assert (length (take k samples) = k) as Hlen.
    { apply length_take_le, Nat.lt_le_incl. by eapply lookup_lt_Some. }
    split; [|split].
    - by rewrite written_app, fmap_app, HC1, Hidx, row_indices_snoc, Hlen.
    - intros ->. rewrite com_calls_app.
      apply com_calls_follow_mah_snoc; [by apply HC2| |].
      + intros Hz. by destruct (Hnil Hz) as [-> _].
      + intros Hz. by apply Hcalls.
    - intros ->. rewrite com_calls_app, HC3 by done.
      apply Hnocalls. by destruct mah. }
  pose proof (for_each_W_inv (enumerate samples)
    (λ dataset '(i_ind, (zval, Mval)),
       run_halo ext cosmo z com mah dataset i_ind zval Mval)
    Inv Stop dataset w1 Hinit Hstep) as Hloop.
  destruct (@for_each W _ _ _ _ _ _ _ w1) as [[ds'|e] w'].
  - destruct Hloop
      as (Hheap & evs & Htrace & (HA0 & HA1 & HA2) & HC1 & HC2 & HC3).
    rewrite length_enumerate, firstn_all in HC1, HC2.
    split; [done|]. exists evs. by repeat (split; [done|]).
  - destruct Hloop as (Hheap & evs & Htrace & (HA0 & HA1 & HA2)).
    split; [done|]. exists evs. by repeat (split; [done|]).
Qed.

(** *** The run *)

(** A run that passes the two checks: the resolver is called, then the loop
    over the haloes. *)
Lemma run_spec cosmology zi Mi z com mah retcosmo w zi' Mi' z' lenz lenm lenzout :
  com || mah = true →
  _checkinput zi Mi z = CheckTuple zi' Mi' z' lenz lenm lenzout →
  match getcosmo ext cosmology (World (heap w) (trace w ++ [CallGetcosmo])) with
  | (Raise e, w1) =>
      run ext cosmology zi Mi z com mah retcosmo w = (Raise e, w1)
      ∧ trace w1 = trace w ++ [CallGetcosmo]
  | (Ok cosmo, w1) =>
      let kw := default ∅ (heap w1 !! cosmo) in
      let samples := _izip zi' Mi' in
      match run ext cosmology zi Mi z com mah retcosmo w with
      | (r, w') =>
          heap w' = heap w1
          ∧ r ≠ Ok RunMinusOne
          ∧ is_Some (heap w1 !! cosmo)
          ∧ ∃ evs,
              trace w' = trace w ++ CallGetcosmo :: evs
              ∧ getcosmo_calls evs = []
              ∧ (∀ zt M, (zt, M) ∈ com_calls evs →
                   com = true
                   ∧ ∃ zval Mval dMdt,
                       (zval, Mval) ∈ samples ∧ zt = targets z' zval
                       ∧ MAH ext (Sequence zt) zval Mval kw = Ok (dMdt, M))
              ∧ (∀ i j row, (i, j, row) ∈ written evs →
                   ∃ zval Mval zr,
                     samples !! i = Some (zval, Mval)
                     ∧ row !! 0%nat = Some zval ∧ row !! 1%nat = Some Mval
                     ∧ targets z' zval !! j = Some zr ∧ row !! 2%nat = Some zr)
              ∧ (∀ v, r = Ok v →
                   (written evs).*1 = row_indices z' samples
                   ∧ (com = true →
                        com_calls_follow_mah ext kw z' samples (com_calls evs))
                   ∧ (com = false → com_calls evs = []))
      end
  end.
Proof.
  intros Hsel Hcheck. unfold run.
  assert (negb com && negb mah = false) as -> by (by destruct com, mah).
  rewrite Hcheck. rewrite W_bind_unfold. cbn [emit].
  set (w0 := World (heap w) (trace w ++ [CallGetcosmo])).
  rewrite W_bind_unfold.
  pose proof (getcosmo_spec cosmology w0) as Hget.
  destruct (getcosmo ext cosmology w0) as [[cosmo|e] w1];
    destruct Hget as [Htr1 Hcosmo]; [|done].
  destruct (Hcosmo cosmo eq_refl) as (d & b & Hd & _).
  cbn zeta. rewrite W_bind_unfold.
  pose proof (run_loop_spec cosmo z' com mah (_izip zi' Mi')
                (zeros lenm lenzout
                   (if mah && com then 9 else if mah then 5 else 7)) w1 Hsel)
    as Hloop.
  cbn zeta in Hloop.
  destruct (@for_each W _ _ _ _ _ _ _ w1) as [[ds|e] w'];
    destruct Hloop as (Hheap & evs & Htr & Hgc & HA1 & HA2 & HC).
  - assert (trace w' = trace w ++ CallGetcosmo :: evs) as Htrace.
    { rewrite Htr, Htr1. cbn. by rewrite <-app_assoc. }
    destruct retcosmo; cbn [mret W_ret];
      (split; [done|]); (split; [done|]); (split; [by eexists|]);
      exists evs; repeat (split; [done|]); intros v _; by apply (HC ds).
  - assert (trace w' = trace w ++ CallGetcosmo :: evs) as Htrace.
    { rewrite Htr, Htr1. cbn. by rewrite <-app_assoc. }
    split; [done|]. split; [done|]. split; [by eexists|].
    exists evs. by repeat (split; [done|]).
Qed.

(** C3. [run] returns [-1], and raises nothing, in exactly two cases: when
    neither [com] nor [mah] is selected, and when [zi] and [Mi] both hold
    more than one element and differ in size.  In both cases it returns
    before the cosmology is resolved and before any row is computed: the
    heap and the trace are unchanged. *)
Theorem run_minus_one cosmology zi Mi z com mah retcosmo w :
  match run ext cosmology zi Mi z com mah retcosmo w with
  | (r, w') =>
      (r = Ok RunMinusOne
       ↔ (com = false ∧ mah = false)
         ∨ ((1 < length (np_array zi))%nat ∧ (1 < length (np_array Mi))%nat
            ∧ length (np_array zi) ≠ length (np_array Mi)))
      ∧ (r = Ok RunMinusOne → w' = w)
  end.
Proof.
  destruct (com || mah) eqn:Hsel.
  - destruct (_checkinput zi Mi z) as [|zi' Mi' z' lenz lenm lenzout] eqn:Hcheck.
    + unfold run. rewrite Hcheck.
      assert (negb com && negb mah = false) as -> by (by destruct com, mah).
      cbn. split; [|done]. split; [|done]. intros _. right.
      by apply (checkinput_minus_one zi Mi z).
    + pose proof (run_spec cosmology zi Mi z com mah retcosmo w
                    _ _ _ _ _ _ Hsel Hcheck) as Hrun.
      assert (¬ ((1 < length (np_array zi))%nat
                 ∧ (1 < length (np_array Mi))%nat
                 ∧ length (np_array zi) ≠ length (np_array Mi))) as Hsizes.
      { rewrite <-(checkinput_minus_one zi Mi z), Hcheck. done. }
      destruct (getcosmo ext cosmology _) as [[cosmo|e] w1].
      * cbn zeta in Hrun.
        destruct (run ext cosmology zi Mi z com mah retcosmo w) as [r w'].
        destruct Hrun as (_ & Hr & _). split; [|done]. split; [done|].
        intros [[-> ->]|?]; done.
      * destruct Hrun as [-> _]. split; [|done]. split; [done|].
        intros [[-> ->]|?]; done.
  - unfold run. destruct com, mah; try done. cbn.
    split; [|done]. split; [|done]. intros _. by left.
Qed.

Lemma targets_lookup z zval j zr :
  targets z zval !! j = Some zr →
  zr >= zval ∧ ∀ zs, z = Some zs → zr ∈ zs.
Proof.
  intros Hj%list_elem_of_lookup_2. destruct z as [zs|].
  - apply targets_spec in Hj as [? ?]. split; [done|]. by intros ? [= <-].
  - apply list_elem_of_singleton in Hj as ->. split; [apply Rge_refl|done].
Qed.



(** C9. The cosmology is resolved once per run, and no dict is changed
    after the resolver has returned: the solvers only read the cosmology.
    The resolver itself writes into the dict it resolves.  When the caller
    passes a dict, this is the caller's own object: no other dict is
    changed, and after a run that returns a dataset the caller's dict holds
    the key [baryonic_effects]. *)
Theorem run_resolves_cosmology_once cosmology zi Mi z com mah retcosmo w
    zi' Mi' z' lenz lenm lenzout :
  com || mah = true →
  _checkinput zi Mi z = CheckTuple zi' Mi' z' lenz lenm lenzout →
  match run ext cosmology zi Mi z com mah retcosmo w with
  | (r, w') =>
      (∃ evs, trace w' = trace w ++ evs ∧ getcosmo_calls evs = [()])
      ∧ heap w'
        = heap (getcosmo ext cosmology
                  (World (heap w) (trace w ++ [CallGetcosmo]))).2
      ∧ ∀ ref, cosmology = CosmoDict ref →
          (∀ l, l ≠ ref → heap w' !! l = heap w !! l)
          ∧ ∀ v, r = Ok v →
              ∃ d b, heap w' !! ref = Some d
                     ∧ d !! "baryonic_effects" = Some (VBool b)
  end.
Proof.
  intros Hsel Hcheck.
  pose proof (run_spec cosmology zi Mi z com mah retcosmo w
                _ _ _ _ _ _ Hsel Hcheck) as Hrun.
  set (w0 := World (heap w) (trace w ++ [CallGetcosmo])) in *.
  assert (∀ ref, cosmology = CosmoDict ref →
            match getcosmo ext cosmology w0 with
            | (r1, w1) =>
                (∀ l, l ≠ ref → heap w1 !! l = heap w !! l)
                ∧ ∀ cosmo, r1 = Ok cosmo →
                    ∃ d b, heap w1 !! ref = Some d
                           ∧ d !! "baryonic_effects" = Some (VBool b)
            end) as Hdict.
  { intros ref ->. pose proof (getcosmo_dict_spec ref w0) as Hget.
    destruct (getcosmo ext (CosmoDict ref) w0) as [r1 w1].
    destruct Hget as [[_ Hframe] Hr]. split; [done|].
    intros cosmo Hcosmo. by destruct (Hr cosmo Hcosmo) as (_ & ?). }
  destruct (getcosmo ext cosmology w0) as [[cosmo|e] w1].
  - cbn zeta in Hrun.
    destruct (run ext cosmology zi Mi z com mah retcosmo w) as [r w'].
    destruct Hrun as (Hheap & _ & _ & evs & Htrace & Hgc & _).
    split; [|split; [done|]].
    + exists (CallGetcosmo :: evs). split; [done|].
      change (getcosmo_calls (CallGetcosmo :: evs))
        with (() :: getcosmo_calls evs). by rewrite Hgc.
    + intros ref Href. destruct (Hdict ref Href) as [Hframe Hr].
      rewrite Hheap. split; [done|]. intros v _. by apply (Hr cosmo).
  - destruct Hrun as [-> Htrace]. split; [|split; [done|]].
    + by exists [CallGetcosmo].
    + intros ref Href. destruct (Hdict ref Href) as [Hframe Hr].
      split; [done|]. by intros v [=].
Qed.

End orchestrator.

(** ** Sample runs of the numerical core *)

Lemma resolved_cosmo_omega_M_0 : resolved_cosmo !! "omega_M_0" = Some (VNum 0.275).
Proof. reflexivity. Qed.

Lemma resolved_cosmo_omega_lambda_0 :
  resolved_cosmo !! "omega_lambda_0" = Some (VNum 0.725).
Proof. reflexivity. Qed.

Lemma resolved_cosmo_h : resolved_cosmo !! "h" = Some (VNum 0.702).
Proof. reflexivity. Qed.

Lemma resolved_cosmo_A_scaling : resolved_cosmo !! "A_scaling" = Some (VNum 887).
Proof. reflexivity. Qed.

Lemma sample_brentq_in_bracket : brentq_in_bracket sample_collaborators.
Proof.
  intros f a b x Hab. cbn. unfold midpoint_brentq.
  case_bool_decide; [|done]. intros [= <-]. lra.
Qed.

(** C10, as stated, fails at redshift 200: the assertion of the growth
    integral stops [COM] before the root-finder is called, so [COM] neither
    returns concentrations nor propagates an exception of the root-finder. *)
Lemma COM_assertion_before_root_finder :
  brentq_in_bracket sample_collaborators
  ∧ ¬ ((∃ cs sigs nus zfs,
          COM sample_collaborators (Scalar 200) (Scalar 1e12) resolved_cosmo
          = Ok (cs, sigs, nus, zfs))
       ∨ (∃ e f a b,
          COM sample_collaborators (Scalar 200) (Scalar 1e12) resolved_cosmo
          = Raise e
          ∧ brentq sample_collaborators f a b = Raise e)).
Proof.
  split; [apply sample_brentq_in_bracket|].
  assert (COM sample_collaborators (Scalar 200) (Scalar 1e12) resolved_cosmo
          = Raise AssertionError) as HCOM.
  { rewrite COM_unfold. cbn [np_array _izip zip zip_with mapM].
    unfold COM_row.
    rewrite (calc_ab_assert sample_collaborators 200 1e12 resolved_cosmo
               0.275 0.725); [done| |done..].
    unfold zmax. lra. }
  rewrite HCOM. intros [(cs & sigs & nus & zfs & [=])|(e & f & a & b & [= <-] & Hbr)].
  cbn in Hbr. unfold midpoint_brentq in Hbr. by case_bool_decide.
Qed.

Lemma sample_positive_quadrature : positive_quadrature sample_collaborators.
Proof.
  intros f a b Hab Hf. cbn. apply Rmult_lt_0_compat; [lra|].
  apply Hf. lra.
Qed.

Lemma completed_cosmo_valid : valid_cosmology completed_cosmo.
Proof.
  exists 0.275, 0.725, (1 - 0.275 - 0.725).
  repeat split; (reflexivity || lra).
Qed.

Lemma Rpower_1_l (y : R) : Rpower 1 y = 1.
Proof. unfold Rpower. by rewrite ln_1, Rmult_0_r, exp_0. Qed.

(** With the midpoint rule the growth factor of the docstring cosmology
    decreases with redshift at redshift zero. *)
Lemma sample_deriv_growth :
  ∃ dg, _deriv_growth sample_collaborators 0 resolved_cosmo = Ok dg ∧ dg <= 0.
Proof.
  pose proof sample_positive_quadrature as Hquad.
  assert (0 < (quad sample_collaborators (growth_integrand 0.275 0.725) 0 zmax).1)
    as Hpos.
  { apply Hquad; [unfold zmax; lra|]. intros x [Hx _].
    by apply growth_integrand_pos. }
  eexists. split.
  - apply (deriv_growth_Ok sample_collaborators 0 resolved_cosmo 0.275 0.725 1);
      [unfold zmax; lra|reflexivity|reflexivity|].
    rewrite (growthfactor_at_zero sample_collaborators resolved_cosmo
               0.275 0.725); [|reflexivity|reflexivity|lra].
    f_equal. replace (0.275 + 0.725) with 1 by lra. apply sqrt_1.
  - cbn zeta.
    replace (0.275 * (1 + 0) ^ 3 + 0.725) with 1 by lra.
    rewrite Rpower_1_l.
    set (I := (quad sample_collaborators (growth_integrand 0.275 0.725) 0 zmax).1)
      in *.
    assert (I <= 1) as HI.
    { unfold I. cbn. unfold midpoint_quad, growth_integrand, fpow, zmax. cbn [fst].
      set (X := 0.275 * (1 + (0 + 200) / 2) ^ 3 + 0.725).
      assert (20200 <= X) as HX by (unfold X; lra).
      assert (X <= Rpower X 1.5) as HXp.
      { rewrite <-(Rpower_1 X) at 1 by lra. apply Rle_Rpower; lra. }
      assert (0 < Rpower X 1.5) by lra.
      replace ((200 - 0) * ((1 + (0 + 200) / 2) / Rpower X 1.5))
        with (20200 / Rpower X 1.5) by (field; lra).
      apply (Rmult_le_reg_r (Rpower X 1.5)); [done|].
      replace (20200 / Rpower X 1.5 * Rpower X 1.5) with 20200 by (field; lra).
      lra. }
    assert (1 <= / I) as Hinv.
    { rewrite <-Rinv_1. apply Rinv_le_contravar; lra. }
    unfold Rdiv. nra.
Qed.

Lemma acc_rate_formula_witness :
  ∃ a_tilde b_tilde dMdt Mz,
    calc_ab sample_collaborators 0 1e12 completed_cosmo = Ok (a_tilde, b_tilde)
    ∧ acc_rate sample_collaborators 1 0 1e12 completed_cosmo = Ok (dMdt, Mz)
    ∧ Mz = 1e12 * Rpower (1 + 1 - 0) a_tilde * exp (b_tilde * (1 - 0))
    ∧ dMdt = 71.6 * (Mz / 1e12) * (0.702 / 0.7)
             * (- a_tilde / (1 + 1 - 0) - b_tilde) * (1 + 1)
             * sqrt (0.275 * (1 + 1) ^ 3 + 0.725).
Proof.
  destruct (calc_ab_total sample_collaborators 0 1e12 completed_cosmo
              0.275 0.725) as (a & b & Hab);
    [unfold zmax; lra|reflexivity|reflexivity|].
  destruct (acc_rate_formula sample_collaborators 1 0 1e12 completed_cosmo
              a b 0.702 0.275 0.725 ltac:(lra) ltac:(lra)
              Hab eq_refl eq_refl eq_refl)
    as (dMdt & Mz & Hacc & HMz & HdMdt).
  exists a, b, dMdt, Mz. split; [exact Hab|]. split; [exact Hacc|].
  split; [exact HMz|exact HdMdt].
Defined.

Lemma growthfactor_norm_zero_witness :
  positive_quadrature sample_collaborators
  ∧ valid_cosmology completed_cosmo
  ∧ growthfactor sample_collaborators 0 true completed_cosmo
    = Ok (sqrt (1 - (1 - 0.275 - 0.725)))
  ∧ (growthfactor sample_collaborators 0 true completed_cosmo = Ok 1
     ↔ 1 - 0.275 - 0.725 = 0).
Proof.
  split; [exact sample_positive_quadrature|].
  split; [exact completed_cosmo_valid|].
  exact (growthfactor_norm_zero sample_collaborators completed_cosmo
           (1 - 0.275 - 0.725)
           sample_positive_quadrature completed_cosmo_valid eq_refl).
Defined.

(** The mass ratio [q] of [calc_ab] is above one wherever the fit is
    positive. *)
Lemma half_mass_ratio_above_one (Mi : R) :
  0 < half_mass_fit Mi → 1 < 4.137 * Rpower (half_mass_fit Mi) (-0.9476).
Proof.
  intros Hfit.
  assert (half_mass_fit Mi <= 2) as Hle.
  { unfold half_mass_fit in *. set (x := log10 Mi) in *.
    pose proof (pow2_ge_0 (x - 2)). nra. }
  set (t := half_mass_fit Mi) in *.
  destruct (Rle_dec t 1) as [Ht|Ht].
  - assert (1 <= Rpower t (-0.9476)); [|lra].
    unfold Rpower.
    assert (ln t <= 0) as Hln.
    { rewrite <-ln_1. destruct Ht as [Ht| ->]; [|lra].
      left. by apply ln_increasing. }
    rewrite <-exp_0.
    destruct (Req_dec (-0.9476 * ln t) 0) as [->|Hne]; [lra|].
    left. apply exp_increasing. nra.
  - assert (/ t <= Rpower t (-0.9476)) as Hinv.
    { replace (/ t) with (Rpower t (- (1))).
      - apply Rle_Rpower; lra.
      - rewrite Rpower_Ropp, Rpower_1 by done. done. }
    assert (/ 2 <= / t) by (apply Rinv_le_contravar; lra).
    lra.
Qed.

(** With the power-law mass variance of the sample collaborators the
    variance gap is positive. *)
Lemma sample_variance_gap (Mi : R) (cosmo : dict) :
  0 < Mi → 0 < half_mass_fit Mi →
  0 < variance_gap sample_collaborators Mi cosmo.
Proof.
  intros HMi Hfit. pose proof (half_mass_ratio_above_one Mi Hfit) as Hq.
  unfold variance_gap, fpow. cbn [mass_to_radius sigma_r sample_collaborators fst].
  set (q := 4.137 * Rpower (half_mass_fit Mi) (-0.9476)) in *.
  assert (0 < Mi / q) as Hpos by (apply Rdiv_lt_0_compat; lra).
  assert (Mi / q < Mi) as Hlt.
  { apply (Rmult_lt_reg_r q); [lra|].
    replace (Mi / q * q) with Mi by (field; lra). nra. }
  assert (Rpower (Mi / q) (1 / 3) < Rpower Mi (1 / 3)) as Hr
    by (apply Rlt_Rpower_l; lra).
  assert (0 < Rpower (Mi / q) (1 / 3)) as Hrq by apply exp_pos.
  assert (/ Rpower Mi (1 / 3) < / Rpower (Mi / q) (1 / 3)) as Hinv
    by (apply Rinv_lt_contravar; [apply Rmult_lt_0_compat; lra|done]).
  assert (0 < / Rpower Mi (1 / 3)) by (apply Rinv_0_lt_compat; lra).
  nra.
Qed.

Lemma half_mass_fit_1e12 : 0 < half_mass_fit 1e12.
Proof.
  assert (log10 1e12 = 12) as Hlog.
  { unfold log10. replace 1e12 with (10 ^ 12) by lra.
    rewrite ln_pow by lra.
    replace (INR 12) with 12 by (simpl; lra).
    assert (0 < ln 10) by (rewrite <-ln_1; apply ln_increasing; lra).
    field. lra. }
  unfold half_mass_fit. rewrite Hlog. lra.
Qed.

(** The midpoint rule gives at most one for the growth integral of the
    docstring cosmology from redshift zero. *)
Lemma sample_growth_integral_le_1 :
  (quad sample_collaborators (growth_integrand 0.275 0.725) 0 zmax).1 <= 1.
Proof.
  cbn. unfold midpoint_quad, growth_integrand, fpow, zmax. cbn [fst].
  set (X := 0.275 * (1 + (0 + 200) / 2) ^ 3 + 0.725).
  assert (20200 <= X) as HX by (unfold X; lra).
  assert (X <= Rpower X 1.5) as HXp.
  { rewrite <-(Rpower_1 X) at 1 by lra. apply Rle_Rpower; lra. }
  assert (0 < Rpower X 1.5) by lra.
  replace ((200 - 0) * ((1 + (0 + 200) / 2) / Rpower X 1.5))
    with (20200 / Rpower X 1.5) by (field; lra).
  apply (Rmult_le_reg_r (Rpower X 1.5)); [done|].
  replace (20200 / Rpower X 1.5 * Rpower X 1.5) with 20200 by (field; lra).
  lra.
Qed.

Lemma sample_growth_integral_bounded :
  growth_integral_bounded sample_collaborators 0.275 0.725 0.
Proof.
  unfold growth_integral_bounded.
  pose proof sample_growth_integral_le_1 as HI.
  assert (0 < (quad sample_collaborators (growth_integrand 0.275 0.725)
                 0 zmax).1) as Hpos.
  { apply sample_positive_quadrature; [unfold zmax; lra|]. intros x [Hx _].
    by apply growth_integrand_pos. }
  replace (0.275 * (1 + 0) ^ 3 + 0.725) with 1 by lra. rewrite sqrt_1.
  nra.
Qed.

Lemma MAH_mass_monotone_witness :
  ∃ dMdt M1 M2,
    MAH sample_collaborators (Sequence [0; 1]) 0 1e12 completed_cosmo
    = Ok (dMdt, [M1; M2])
    ∧ M1 >= M2.
Proof.
  destruct (MAH_total sample_collaborators (Sequence [0; 1]) 0 1e12
              completed_cosmo 0.275 0.725 0.702)
    as (dMdt & Mz & HMAH & Hlen);
    [unfold zmax; lra|reflexivity|reflexivity|reflexivity|].
  destruct Mz as [|M1 [|M2 [|M3 Mz]]]; try discriminate Hlen.
  exists dMdt, M1, M2. split; [exact HMAH|].
  apply (MAH_mass_monotone sample_collaborators [0; 1] 0 1e12 completed_cosmo
           0.275 0.725 dMdt [M1; M2] ltac:(lra) ltac:(lra) eq_refl eq_refl
           ltac:(lra) ltac:(lra) sample_positive_quadrature
           sample_growth_integral_bounded half_mass_fit_1e12
           (sample_variance_gap 1e12 completed_cosmo ltac:(lra)
              half_mass_fit_1e12)
           HMAH 0%nat 1%nat 0 1 M1 M2);
    (reflexivity || lra).
Defined.

(** *** A call of [COM] with one degenerate row *)

Lemma ln_2_above_half : 0.5 < ln 2.
Proof.
  assert (exp 0.5 < 2) as Hexp.
  { assert (0 < exp 0.5) as Hpos by apply exp_pos.
    assert (exp 0.5 * exp 0.5 <= 3) as Hsq.
    { rewrite <-exp_plus. replace (0.5 + 0.5) with 1 by lra. apply exp_le_3. }
    nra. }
  rewrite <-(ln_exp 0.5). apply ln_increasing; [apply exp_pos|done].
Qed.

(** With [A_scaling = 25] the formation redshift of the concentration one
    lies above redshift zero, by [d], and the residual at that
    concentration is [1 - (1+d)^a * exp(d*b)]. *)
Lemma residual_at_one :
  ∃ d, 0 < d
       ∧ ∀ a b, _minimize_c 1 0 a b 25 0.275 0.725
                = 1 - Rpower (1 + d) a * exp (d * b).
Proof.
  pose proof ln_2_above_half as Hln.
  set (inner := ((1 + 0) ^ 3 + 0.725 / 0.275) * (200 / 25) - 0.725 / 0.275).
  exists (Rpower inner (1 / 3) - 1). split.
  - assert (1 < inner) as Hinner by (unfold inner; lra).
    assert (Rpower 1 (1 / 3) < Rpower inner (1 / 3)) as Hlt
      by (apply Rlt_Rpower_l; lra).
    rewrite Rpower_1_l in Hlt. lra.
  - intros a b. unfold _minimize_c, fpow.
    replace (ln (1 + 1) - 1 / (1 + 1)) with (ln 2 - 0.5)
      by (replace (1 + 1) with 2 by lra; lra).
    replace (200 * 1 ^ 3 * (ln 2 - 0.5) / (ln 2 - 0.5)) with 200
      by (field; lra).
    fold inner.
    replace (1 + (Rpower inner (1 / 3) - 1) - 0)
      with (1 + (Rpower inner (1 / 3) - 1)) by lra.
    replace (Rpower inner (1 / 3) - 1 - 0)
      with (Rpower inner (1 / 3) - 1) by lra.
    field. lra.
Qed.

Lemma half_mass_fit_one : half_mass_fit 1 = 1.8837.
Proof. unfold half_mass_fit, log10. rewrite ln_1. lra. Qed.

Lemma half_mass_fit_twin : half_mass_fit twin_mass = 1.8837.
Proof.
  assert (0 < ln 10) by (rewrite <-ln_1; apply ln_increasing; lra).
  assert (log10 twin_mass = 3.703125) as Hlog.
  { unfold log10, twin_mass, Rpower. rewrite ln_exp. field. lra. }
  unfold half_mass_fit. rewrite Hlog. lra.
Qed.

Lemma twin_mass_above_one : 1 < twin_mass.
Proof.
  assert (0 < ln 10) by (rewrite <-ln_1; apply ln_increasing; lra).
  unfold twin_mass, Rpower. rewrite <-exp_0. apply exp_increasing. nra.
Qed.

(** The variance gap of the second mass is positive and smaller than the
    one of the mass one. *)
Lemma twin_variance_gap (cosmo : dict) :
  0 < variance_gap sample_collaborators twin_mass cosmo
  ∧ variance_gap sample_collaborators twin_mass cosmo
    < variance_gap sample_collaborators 1 cosmo.
Proof.
  pose proof twin_mass_above_one as HT.
  pose proof (sample_variance_gap 1 cosmo ltac:(lra)
                ltac:(rewrite half_mass_fit_one; lra)) as Hgap1.
  pose proof (half_mass_ratio_above_one 1
                ltac:(rewrite half_mass_fit_one; lra)) as Hq.
  unfold variance_gap, fpow in *.
  cbn [mass_to_radius sigma_r sample_collaborators fst] in *.
  rewrite half_mass_fit_twin. rewrite half_mass_fit_one in Hgap1, Hq |- *.
  set (q := 4.137 * Rpower 1.8837 (-0.9476)) in *.
  assert (0 < / q) as Hinvq by (apply Rinv_0_lt_compat; lra).
  replace (1 / q) with (/ q) in * by lra.
  replace (twin_mass / q) with (twin_mass * / q) by lra.
  rewrite <-Rpower_mult_distr by lra.
  rewrite Rpower_1_l in Hgap1 |- *.
  set (t := Rpower twin_mass (1 / 3)).
  set (u := Rpower (/ q) (1 / 3)) in *.
  assert (1 < t) as Ht.
  { assert (Rpower 1 (1 / 3) < t) as Hlt by (apply Rlt_Rpower_l; lra).
    by rewrite Rpower_1_l in Hlt. }
  assert (0 < u) as Hu by apply exp_pos.
  assert ((/ (t * u)) ^ 2 - (/ t) ^ 2 = (/ t) ^ 2 * ((/ u) ^ 2 - (/ 1) ^ 2))
    as -> by (field; lra).
  assert (0 < / t) as Hit by (apply Rinv_0_lt_compat; lra).
  assert (/ t < 1) as Hit1.
  { rewrite <-Rinv_1. apply Rinv_lt_contravar; lra. }
  assert (0 < (/ t) ^ 2 < 1) as [Hsq0 Hsq1] by nra.
  split; nra.
Qed.

(** The indices of the two haloes differ in the factor
    [f = (sigq^2 - sig^2)^(-0.5)] only, so that their residuals at the
    concentration one differ. *)
Lemma twin_residual a_tilde b_tilde :
  calc_ab sample_collaborators 0 twin_mass marked_cosmo
  = Ok (a_tilde, b_tilde) →
  _minimize_c 1 0 a_tilde b_tilde 25 0.275 0.725 ≠ marked_residual.
Proof.
  intros Hab1.
  destruct (calc_ab_total sample_collaborators 0 1 marked_cosmo 0.275 0.725)
    as (a0 & b0 & Hab0); [unfold zmax; lra|reflexivity|reflexivity|].
  unfold marked_residual. rewrite Hab0.
  destruct residual_at_one as (d & Hd & Hres). rewrite !Hres.
  apply calc_ab_indices in Hab0 as (dg & gf & Hdg & Hgf & -> & ->).
  apply calc_ab_indices in Hab1 as (dg' & gf' & Hdg' & Hgf' & -> & ->).
  rewrite Hdg in Hdg'. injection Hdg' as <-.
  rewrite Hgf in Hgf'. injection Hgf' as <-.
  assert (dg <= 0) as Hdg0.
  { apply (deriv_growth_nonpos sample_collaborators 0 marked_cosmo
             0.275 0.725 dg);
      [unfold zmax; lra|lra|reflexivity|reflexivity|lra|lra| | |done].
    - exact sample_positive_quadrature.
    - exact sample_growth_integral_bounded. }
  set (k := sqrt (2 / PI) * 1.686 * dg / gf ^ 2).
  assert (k <= 0) as Hk.
  { unfold k. assert (0 <= sqrt (2 / PI)) by apply sqrt_pos.
    pose proof (Rinv_sqr_nonneg gf).
    unfold Rdiv. assert (sqrt (2 / PI) * 1.686 * dg <= 0) by nra. nra. }
  destruct (twin_variance_gap marked_cosmo) as [Hg1 Hg10].
  set (g0 := variance_gap sample_collaborators 1 marked_cosmo) in *.
  set (g1 := variance_gap sample_collaborators twin_mass marked_cosmo) in *.
  assert (Rpower g0 (-0.5) < Rpower g1 (-0.5)) as HF.
  { unfold Rpower. apply exp_increasing.
    assert (ln g1 < ln g0) by (apply ln_increasing; lra). lra. }
  set (F0 := Rpower g0 (-0.5)) in *. set (F1 := Rpower g1 (-0.5)) in *.
  assert (0 < ln (1 + d) < d) as [HL0 HLd].
  { split.
    - rewrite <-ln_1. apply ln_increasing; lra.
    - rewrite <-(ln_exp d) at 2. apply ln_increasing; [lra|].
      apply exp_ineq1. lra. }
  intros Heq.
  assert (Rpower (1 + d) ((k + 1) * F1) * exp (d * - F1)
          = Rpower (1 + d) ((k + 1) * F0) * exp (d * - F0)) as Heq' by lra.
  unfold Rpower in Heq'. rewrite <-!exp_plus in Heq'.
  apply exp_inv in Heq'.
  assert ((F1 - F0) * ((k + 1) * ln (1 + d) - d) = 0) as Hprod by lra.
  apply Rmult_integral in Hprod as [Hprod|Hprod]; [lra|nra].
Qed.

Lemma marked_calc_ab zi Mi cosmo :
  calc_ab marked_collaborators zi Mi cosmo
  = calc_ab sample_collaborators zi Mi cosmo.
Proof. reflexivity. Qed.

Lemma marked_COM_root zval a_tilde b_tilde :
  COM_root marked_collaborators zval a_tilde b_tilde marked_cosmo
  = marked_brentq
      (λ c, _minimize_c c zval a_tilde b_tilde 25 0.275 0.725) 2 1000.
Proof. reflexivity. Qed.

Lemma COM_degenerate_row_witness :
  ∃ cs sigs nus zfs,
    COM marked_collaborators (Sequence [0; 0]) (Sequence [1; twin_mass])
      marked_cosmo
    = Ok (cs, sigs, nus, zfs)
    ∧ cs !! 0%nat = Some (-1) ∧ sigs !! 0%nat = Some (-1)
    ∧ nus !! 0%nat = Some (-1) ∧ zfs !! 0%nat = Some (-1)
    ∧ cs !! 1%nat = Some ((2 + 1000) / 2)
    ∧ zfs !! 1%nat = Some (formationz ((2 + 1000) / 2) 0 25 0.275 0.725).
Proof.
  destruct (calc_ab_total marked_collaborators 0 1 marked_cosmo 0.275 0.725)
    as (a0 & b0 & Hab0); [unfold zmax; lra|reflexivity|reflexivity|].
  destruct (calc_ab_total marked_collaborators 0 twin_mass marked_cosmo
              0.275 0.725)
    as (a1 & b1 & Hab1); [unfold zmax; lra|reflexivity|reflexivity|].
  assert (COM_root marked_collaborators 0 a0 b0 marked_cosmo = Ok 0)
    as Hroot0.
  { rewrite marked_COM_root. unfold marked_brentq.
    destruct (Req_dec_T _ _) as [_|Hne]; [reflexivity|].
    exfalso. apply Hne. unfold marked_residual.
    rewrite marked_calc_ab in Hab0. by rewrite Hab0. }
  assert (COM_root marked_collaborators 0 a1 b1 marked_cosmo
          = Ok ((2 + 1000) / 2)) as Hroot1.
  { rewrite marked_COM_root. unfold marked_brentq.
    destruct (Req_dec_T _ _) as [Heq|_]; [|reflexivity].
    exfalso. rewrite marked_calc_ab in Hab1.
    exact (twin_residual a1 b1 Hab1 Heq). }
  assert (isclose 0 0 = true) as Hclose0.
  { apply isclose_0_small. rewrite Rabs_R0. lra. }
  assert (isclose ((2 + 1000) / 2) 0 = false) as Hclose1.
  { apply not_true_is_false. rewrite isclose_0_small.
    rewrite Rabs_pos_eq by lra. lra. }
  destruct (COM_degenerate_row marked_collaborators [0; 0] [1; twin_mass]
              marked_cosmo 0%nat 0 1 a0 b0 0 eq_refl eq_refl Hab0 Hroot0
              Hclose0) as (_ & Hreturns & Hrows).
  destruct Hreturns as (cs & sigs & nus & zfs & HCOM).
  { intros [|[|j]] zj Mj Hj Hzj HMj; [done| |done].
    injection Hzj as <-. injection HMj as <-.
    exists a1, b1, ((2 + 1000) / 2). split; [exact Hab1|exact Hroot1]. }
  destruct (Hrows cs sigs nus zfs HCOM) as (Hc & Hsig & Hnu & Hzf & Hother).
  destruct (Hother 1%nat 0 twin_mass eq_refl eq_refl)
    as (aj & bj & cj & Habj & Hrootj & Hvals).
  rewrite Hab1 in Habj. injection Habj as <- <-.
  rewrite Hroot1 in Hrootj. injection Hrootj as <-.
  rewrite Hclose1 in Hvals.
  destruct Hvals as (A & oM & oL & gf & HA & HoM & HoL & _ & Hc1 & Hzf1 & _).
  injection HA as <-. injection HoM as <-. injection HoL as <-.
  exists cs, sigs, nus, zfs.
  split; [exact HCOM|]. split; [exact Hc|]. split; [exact Hsig|].
  split; [exact Hnu|]. split; [exact Hzf|]. split; [exact Hc1|exact Hzf1].
Defined.

Lemma COM_concentration_in_bracket_witness :
  brentq_in_bracket sample_collaborators
  ∧ ∀ cs sigs nus zfs,
      COM sample_collaborators (Scalar 0) (Scalar 1e12) resolved_cosmo
      = Ok (cs, sigs, nus, zfs) →
      ∃ c, cs !! 0%nat = Some c ∧ 2 <= c <= 1000.
Proof.
  split; [exact sample_brentq_in_bracket|].
  intros cs sigs nus zfs HCOM.
  exact (proj1 (proj2 (COM_concentration_in_bracket sample_collaborators
                         (Scalar 0) (Scalar 1e12) resolved_cosmo
                         sample_brentq_in_bracket))
           cs sigs nus zfs HCOM 0%nat 0 1e12 eq_refl eq_refl).
Defined.

(** ** Sample runs of the resolver *)

(** When no parameter is missing, the loop that adds the missing ones
    changes nothing. *)
Lemma fill_missing_present (ref : loc) (keys : list string) (d : dict)
    (w : world) :
  heap w !! ref = Some d →
  (∀ key, key ∈ keys → is_Some (d !! key)) →
  for_each keys ()
    (λ _ paramnames,
      d ← deref ref;
      if bool_decide (d !! paramnames = None) then
        update ref paramnames (VNum 0)
      else mret ()) w
  = (Ok (), w).
Proof.
  intros Href. induction keys as [|key keys IH]; intros Hkeys; [done|].
  cbn [for_each]. rewrite !W_bind_unfold. cbn [deref]. rewrite Href.
  cbn [default from_option id Datatypes.id].
  destruct (Hkeys key) as [v Hv]; [apply list_elem_of_here|].
  rewrite bool_decide_eq_false_2 by (rewrite Hv; done).
  cbn. apply IH. intros key' Hkey'. apply Hkeys. by apply list_elem_of_further.
Qed.

Lemma docstring_keys_resolved (key : string) :
  key ∈ map fst (map_to_list docstring_cosmo) → is_Some (resolved_cosmo !! key).
Proof.
  intros ([key' v] & -> & Hin%elem_of_map_to_list)%list_elem_of_fmap.
  unfold resolved_cosmo. apply lookup_insert_is_Some'. right. by exists v.
Qed.

Lemma sample_set_omega_k_0 :
  set_omega_k_0 sample_collaborators resolved_cosmo
  = <["omega_k_0" := VNum (1 - 0.275 - 0.725)]> resolved_cosmo.
Proof. reflexivity. Qed.

(** The end of [getcosmo] on the resolved docstring cosmology. *)
Lemma sample_getcosmo_finish (ref : loc) (h : gmap loc dict) (tr : list event) :
  (modify ref (set_omega_k_0 sample_collaborators)
   ≫= λ _ : (),
        deref ref
        ≫= λ d : dict,
             lift (getitem d "omega_b_0")
             ≫= λ omega_b_0 : R,
                  (if bool_decide (omega_b_0 > 0)
                   then update ref "baryonic_effects" (VBool true)
                   else update ref "baryonic_effects" (VBool false))
                  ≫= λ _ : (), mret ref)
    (World (<[ref := resolved_cosmo]> h) tr)
  = (Ok ref, World (<[ref := completed_cosmo]> h) tr).
Proof.
  rewrite W_bind_unfold. cbn [modify heap trace].
  rewrite lookup_insert_eq, insert_insert_eq.
  cbn [default from_option id Datatypes.id].
  rewrite sample_set_omega_k_0.
  rewrite W_bind_unfold. cbn [deref heap].
  rewrite lookup_insert_eq. cbn [default from_option id Datatypes.id].
  rewrite W_bind_unfold. unfold lift.
  assert (getitem (<["omega_k_0" := VNum (1 - 0.275 - 0.725)]> resolved_cosmo)
            "omega_b_0" = Ok 0.0458) as -> by reflexivity.
  rewrite bool_decide_eq_true_2 by lra.
  rewrite W_bind_unfold. unfold update. cbn [modify heap trace].
  rewrite lookup_insert_eq, insert_insert_eq. done.
Qed.

Lemma sample_getcosmo_dict (tr : list event) :
  getcosmo sample_collaborators (CosmoDict 1%positive)
    (World {[1%positive := resolved_cosmo]} tr)
  = (Ok 1%positive, World {[1%positive := completed_cosmo]} tr).
Proof.
  unfold getcosmo. rewrite W_bind_unfold.
  rewrite (W_bind_unfold (deref 1%positive)). cbn [deref heap].
  rewrite lookup_singleton_eq. cbn [default from_option id Datatypes.id].
  rewrite (bool_decide_eq_false_2 (_ !! "A_scaling" = None)) by done.
  rewrite W_bind_unfold. cbn [mret W_ret].
  unfold mbind at 1. unfold W_bind at 1.
  rewrite (fill_missing_present 1%positive _ resolved_cosmo);
    [|apply lookup_singleton_eq|apply docstring_keys_resolved].
  cbv beta iota. unfold mret at 1. unfold W_ret at 1. cbv beta iota.
  rewrite <-!insert_empty.
  apply (sample_getcosmo_finish 1%positive ∅ tr).
Qed.

Lemma sample_getcosmo_name (tr : list event) :
  getcosmo sample_collaborators (CosmoName "WMAP5") (World ∅ tr)
  = (Ok 1%positive, World {[1%positive := completed_cosmo]} tr).
Proof.
  unfold getcosmo. rewrite W_bind_unfold.
  assert (defaultcosmologies sample_collaborators !! lower "WMAP5"
          = Some docstring_cosmo) as -> by reflexivity.
  rewrite W_bind_unfold. cbn [alloc heap trace].
  repeat match goal with
         | |- context [@fresh ?A ?C ?I ?X] =>
             change (@fresh A C I X) with 1%positive
         end.
  rewrite W_bind_unfold. unfold lift at 1.
  assert (getAscaling sample_collaborators (NameV "WMAP5") false = Ok 887)
    as -> by reflexivity.
  rewrite W_bind_unfold. unfold update at 1. cbn [modify heap trace].
  rewrite lookup_insert_eq, insert_insert_eq.
  cbn [default from_option id Datatypes.id mret W_ret].
  fold resolved_cosmo. rewrite <-!insert_empty.
  apply (sample_getcosmo_finish 1%positive ∅ tr).
Qed.

(** ** The growth factor of an open universe *)

Lemma docstring_keys_open (key : string) :
  key ∈ map fst (map_to_list docstring_cosmo) → is_Some (open_cosmo !! key).
Proof.
  intros Hkey%docstring_keys_resolved. unfold open_cosmo.
  apply lookup_insert_is_Some'. right.
  apply lookup_insert_is_Some'. by right.
Qed.

Lemma sample_getcosmo_open (tr : list event) :
  getcosmo sample_collaborators (CosmoDict 1%positive)
    (World {[1%positive := open_cosmo]} tr)
  = (Ok 1%positive, World {[1%positive := open_completed_cosmo]} tr).
Proof.
  unfold getcosmo. rewrite W_bind_unfold.
  rewrite (W_bind_unfold (deref 1%positive)). cbn [deref heap].
  rewrite lookup_singleton_eq. cbn [default from_option id Datatypes.id].
  rewrite (bool_decide_eq_false_2 (_ !! "A_scaling" = None)) by done.
  rewrite W_bind_unfold. cbn [mret W_ret].
  unfold mbind at 1. unfold W_bind at 1.
  rewrite (fill_missing_present 1%positive _ open_cosmo);
    [|apply lookup_singleton_eq|apply docstring_keys_open].
  cbv beta iota. unfold mret at 1. unfold W_ret at 1. cbv beta iota.
  rewrite W_bind_unfold. cbn [modify heap trace].
  rewrite lookup_singleton_eq, insert_singleton_eq.
  cbn [default from_option id Datatypes.id].
  assert (set_omega_k_0 sample_collaborators open_cosmo
          = <["omega_k_0" := VNum (1 - 0.3 - 0.5)]> open_cosmo) as ->
    by reflexivity.
  rewrite W_bind_unfold. cbn [deref heap].
  rewrite lookup_singleton_eq. cbn [default from_option id Datatypes.id].
  rewrite W_bind_unfold. unfold lift.
  assert (getitem (<["omega_k_0" := VNum (1 - 0.3 - 0.5)]> open_cosmo)
            "omega_b_0" = Ok 0.0458) as -> by reflexivity.
  rewrite bool_decide_eq_true_2 by lra.
  rewrite W_bind_unfold. unfold update. cbn [modify heap trace].
  rewrite lookup_singleton_eq, insert_singleton_eq. done.
Qed.

(** C6, as stated, fails for an open universe.  The resolver accepts the
    caller's dict with [omega_M_0 = 0.3] and [omega_lambda_0 = 0.5] and
    records the curvature [0.2] without changing the densities; the
    resolved record is valid, and its normalised growth factor at redshift
    zero is [sqrt 0.8], not one. *)
Lemma growthfactor_norm_zero_open_universe :
  getcosmo sample_collaborators (CosmoDict 1%positive)
    (World {[1%positive := open_cosmo]} [])
  = (Ok 1%positive, World {[1%positive := open_completed_cosmo]} [])
  ∧ valid_cosmology open_completed_cosmo
  ∧ positive_quadrature sample_collaborators
  ∧ growthfactor sample_collaborators 0 true open_completed_cosmo
    = Ok (sqrt 0.8)
  ∧ growthfactor sample_collaborators 0 true open_completed_cosmo ≠ Ok 1.
Proof.
  split; [apply sample_getcosmo_open|].
  split.
  { exists 0.3, 0.5, (1 - 0.3 - 0.5). repeat split; (reflexivity || lra). }
  split; [exact sample_positive_quadrature|].
  assert (growthfactor sample_collaborators 0 true open_completed_cosmo
          = Ok (sqrt 0.8)) as Hg.
  { rewrite (growthfactor_at_zero sample_collaborators open_completed_cosmo
               0.3 0.5); [|reflexivity|reflexivity|].
    - do 2 f_equal. lra.
    - apply Rgt_not_eq, sample_positive_quadrature; [unfold zmax; lra|].
      intros x [Hx _]. by apply growth_integrand_pos. }
  split; [exact Hg|]. rewrite Hg. intros [= Hsqrt].
  pose proof (sqrt_sqrt 0.8 ltac:(lra)) as Hsq. rewrite Hsqrt in Hsq. lra.
Qed.



(** ** Sample runs of the orchestrator *)


Lemma completed_cosmo_omega_M_0 :
  completed_cosmo !! "omega_M_0" = Some (VNum 0.275).
Proof. reflexivity. Qed.

Lemma completed_cosmo_omega_lambda_0 :
  completed_cosmo !! "omega_lambda_0" = Some (VNum 0.725).
Proof. reflexivity. Qed.

Lemma completed_cosmo_h : completed_cosmo !! "h" = Some (VNum 0.702).
Proof. reflexivity. Qed.


(** C9, as stated, fails when the caller passes the resolved docstring
    cosmology: after the run the caller's dict holds a key that it did not
    hold before. *)
Lemma run_writes_into_caller_dict :
  heap (run sample_collaborators (CosmoDict 1%positive) (Scalar 0)
          (Scalar 1e12) None true true false
          (World {[1%positive := resolved_cosmo]} [])).2 !! 1%positive
  = Some completed_cosmo
  ∧ completed_cosmo !! "baryonic_effects" = Some (VBool true)
  ∧ resolved_cosmo !! "baryonic_effects" = None.
Proof.
  split; [|split; reflexivity].
  assert (_checkinput (Scalar 0) (Scalar 1e12) None
          = CheckTuple [0] [1e12] None 1 1 1) as Hcheck by reflexivity.
  pose proof (run_spec sample_collaborators (CosmoDict 1%positive) (Scalar 0)
                (Scalar 1e12) None true true false
                (World {[1%positive := resolved_cosmo]} [])
                _ _ _ _ _ _ eq_refl Hcheck) as Hrun.
  cbn [heap trace app] in Hrun. rewrite sample_getcosmo_dict in Hrun.
  cbn zeta in Hrun.
  destruct (run _ _ _ _ _ _ _ _ _) as [r w'].
  destruct Hrun as (Hheap & _). cbn [snd]. rewrite Hheap. cbn [heap].
  apply lookup_singleton_eq.
Qed.


Lemma run_resolves_cosmology_once_witness :
  true || true = true
  ∧ _checkinput (Scalar 0) (Scalar 1e12) None = CheckTuple [0] [1e12] None 1 1 1
  ∧ ∃ evs,
      trace (run sample_collaborators (CosmoDict 1%positive) (Scalar 0)
               (Scalar 1e12) None true true false
               (World {[1%positive := resolved_cosmo]} [])).2
      = [] ++ evs
      ∧ getcosmo_calls evs = [()].
Proof.
  split; [reflexivity|]. split; [reflexivity|].
  pose proof (run_resolves_cosmology_once sample_collaborators
                (CosmoDict 1%positive) (Scalar 0) (Scalar 1e12) None
                true true false (World {[1%positive := resolved_cosmo]} [])
                [0] [1e12] None 1%nat 1%nat 1%nat eq_refl eq_refl) as Hrun.
  destruct (run _ _ _ _ _ _ _ _ _) as [r w'].
  exact (proj1 Hrun).
Defined.

(** ** The generator [_izip] *)

Section izip_generator.
Context {A : Type}.
Implicit Types (iterators rest : list (list A)) (result : list A).

Lemma izip_round_Some iterators result rest :
  izip_round iterators = Some (result, rest) →
  iterators = zip_with cons result rest ∧ length result = length rest.
Proof.
  revert result rest.
  induction iterators as [|it iterators IH]; intros result rest; cbn.
  - by intros [= <- <-].
  - destruct it as [|elem it]; [done|].
    destruct (izip_round iterators) as [[res rs]|]; [|done]. cbn.
    intros [= <- <-]. destruct (IH res rs eq_refl) as [-> Hlen].
    cbn. by rewrite Hlen.
Qed.

Lemma izip_round_None iterators :
  izip_round iterators = None → [] ∈ iterators.
Proof.
  induction iterators as [|it iterators IH]; cbn; [done|].
  destruct it as [|elem it]; [intros _; apply list_elem_of_here|].
  destruct (izip_round iterators) as [[res rs]|]; [done|].
  intros _. apply list_elem_of_further. by apply IH.
Qed.

Lemma mapM_lookup_exhausted iterators j :
  [] ∈ iterators → mapM (λ it : list A, it !! j) iterators = None.
Proof.
  intros Hin. apply mapM_None. apply Exists_exists. by exists [].
Qed.

Lemma mapM_lookup_heads result rest :
  length result = length rest →
  mapM (λ it : list A, it !! 0%nat) (zip_with cons result rest) = Some result.
Proof.
  revert rest. induction result as [|x result IH]; intros [|r rest] Hlen;
    try done.
  cbn. rewrite IH; [done|]. by injection Hlen.
Qed.

Lemma mapM_lookup_tails result rest j :
  length result = length rest →
  mapM (λ it : list A, it !! S j) (zip_with cons result rest)
  = mapM (λ it : list A, it !! j) rest.
Proof.
  revert rest. induction result as [|x result IH]; intros [|r rest] Hlen;
    try done.
  cbn. rewrite IH; [done|]. by injection Hlen.
Qed.

(** With fuel left, the [j]-th tuple holds the [j]-th element of every
    iterator. *)
Lemma izip_loop_lookup fuel iterators j :
  iterators ≠ [] → (j < fuel)%nat →
  izip_loop fuel iterators !! j = mapM (λ it : list A, it !! j) iterators.
Proof.
  revert iterators j. induction fuel as [|fuel IH]; intros iterators j Hne Hj;
    [lia|].
  destruct iterators as [|it iterators]; [done|].
  cbn [izip_loop].
  destruct (izip_round (it :: iterators)) as [[result rest]|] eqn:Hround.
  - apply izip_round_Some in Hround as [Heq Hlen]. rewrite Heq.
    destruct j as [|j]; cbn [lookup list_lookup].
    + by rewrite mapM_lookup_heads.
    + rewrite mapM_lookup_tails by done. apply IH; [|lia].
      intros ->. destruct result; [done|]. done.
  - apply izip_round_None in Hround.
    by rewrite mapM_lookup_exhausted.
Qed.

Lemma length_izip_loop fuel iterators :
  (length (izip_loop fuel iterators) ≤ fuel)%nat.
Proof.
  revert iterators. induction fuel as [|fuel IH]; intros iterators; [done|].
  destruct iterators as [|it iterators]; cbn [izip_loop]; [cbn; lia|].
  destruct (izip_round _) as [[result rest]|]; cbn; [|lia].
  specialize (IH rest). lia.
Qed.

Lemma izip_generator_lookup iterables j :
  iterables ≠ [] →
  _izip_generator iterables !! j = mapM (λ it : list A, it !! j) iterables.
Proof.
  intros Hne. unfold _izip_generator.
  destruct iterables as [|it iterables]; [done|].
  change (default [] (head (it :: iterables))) with it.
  destruct (decide (j < S (length it))%nat) as [Hj|Hj].
  - by apply izip_loop_lookup.
  - rewrite lookup_ge_None_2.
    + symmetry. cbn. rewrite lookup_ge_None_2; [done|lia].
    + pose proof (length_izip_loop (S (length it)) (it :: iterables)). lia.
Qed.

(** X1. [_izip] yields nothing without iterables; otherwise its [j]-th tuple
    exists exactly when every iterable has a [j]-th element, and holds these
    elements in the order of the iterables: the generator stops at the
    shortest iterable.  More fuel than the default changes nothing. *)
Theorem izip_generator_tuples (iterables : list (list A)) :
  _izip_generator ([] : list (list A)) = []
  ∧ (iterables ≠ [] →
     (∀ j, _izip_generator iterables !! j
           = mapM (λ it : list A, it !! j) iterables)
     ∧ ∀ fuel, (length (default [] (head iterables)) < fuel)%nat →
         izip_loop fuel iterables = _izip_generator iterables).
Proof.
  split; [done|]. intros Hne. split.
  - intros j. by apply izip_generator_lookup.
  - intros fuel Hfuel. apply list_eq. intros j.
    rewrite izip_generator_lookup by done.
    destruct (decide (j < fuel)%nat) as [Hj|Hj].
    + by apply izip_loop_lookup.
    + rewrite lookup_ge_None_2.
      * destruct iterables as [|it iterables]; [done|]. cbn in *.
        rewrite lookup_ge_None_2; [done|lia].
      * pose proof (length_izip_loop fuel iterables). lia.
Qed.

(** X2. For two iterables the generator yields the pairs of [zip]: the
    two-argument [_izip] that [COM] and [run] loop over. *)
Theorem izip_generator_two (xs ys : list A) :
  _izip_generator [xs; ys] = (λ p, [p.1; p.2]) <$> _izip xs ys.
Proof.
  apply list_eq. intros j.
  rewrite izip_generator_lookup by done.
  rewrite list_lookup_fmap. unfold _izip. cbn.
  destruct (zip xs ys !! j) as [[x y]|] eqn:Hzip.
  - apply lookup_zip_Some in Hzip as [-> ->]. done.
  - destruct (xs !! j) as [x|] eqn:Hx; [|done]. cbn.
    destruct (ys !! j) as [y|] eqn:Hy; [|done].
    assert (zip xs ys !! j = Some (x, y)) by (by apply lookup_zip_Some).
    congruence.
Qed.

End izip_generator.

(** ** Duffy concentrations *)

Lemma Rpower_neg_decreasing (x y p : R) :
  0 < x → x <= y → p <= 0 → Rpower y p <= Rpower x p.
Proof.
  intros Hx Hxy Hp. unfold Rpower.
  assert (ln x <= ln y) as Hln.
  { destruct Hxy as [Hlt| ->]; [left; apply ln_increasing; lra|lra]. }
  assert (p * ln y <= p * ln x) as [Hlt|Heq] by nra.
  - left. by apply exp_increasing.
  - right. by rewrite Heq.
Qed.

(** The fit of a recognised halo definition: a positive amplitude and two
    negative slopes, whatever the mass and the redshift. *)
Lemma cduffy_params (vir : string) (relaxed : bool) :
  vir ∈ ["200crit"; "tophat"; "200mean"] →
  ∃ p0 p1 p2,
    0 < p0 ∧ p1 < 0 ∧ p2 < 0
    ∧ ∀ z M, cduffy z M vir relaxed
             = Ok (p0 * Rpower (M / (2e12 / 0.72)) p1 * Rpower (1 + z) p2).
Proof.
  intros Hvir. unfold cduffy.
  apply elem_of_cons in Hvir as [->|Hvir];
    [|apply elem_of_cons in Hvir as [->|Hvir];
      [|apply list_elem_of_singleton in Hvir as ->]].
  all: repeat (case_bool_decide; try done).
  all: destruct relaxed; cbn; eexists _, _, _;
    (split; [|split; [|split; [|reflexivity]]]); lra.
Qed.

Lemma cduffy_unrecognised (z M : R) (vir : string) (relaxed : bool) :
  vir ∉ ["200crit"; "tophat"; "200mean"] →
  cduffy z M vir relaxed = Raise UnboundLocalError.
Proof.
  intros Hvir. unfold cduffy.
  rewrite !bool_decide_eq_false_2; [done|..];
    intros ->; apply Hvir; set_solver.
Qed.

(** X3. [cduffy] knows three halo boundary definitions, ['200crit'],
    ['tophat'] and ['200mean'].  For any other one it fails with
    [UnboundLocalError] (the parameters are never assigned), whatever the
    other arguments, so that it returns for a recognised definition only;
    and for a recognised definition, a positive mass and a redshift above
    [-1], where the two powers are powers of positive numbers, it returns
    a positive concentration. *)
Theorem cduffy_recognised (z M : R) (vir : string) (relaxed : bool) :
  (vir ∉ ["200crit"; "tophat"; "200mean"] →
   cduffy z M vir relaxed = Raise UnboundLocalError)
  ∧ (∀ c, cduffy z M vir relaxed = Ok c →
          vir ∈ ["200crit"; "tophat"; "200mean"])
  ∧ (vir ∈ ["200crit"; "tophat"; "200mean"] → 0 < M → -1 < z →
     ∃ c, cduffy z M vir relaxed = Ok c ∧ 0 < c).
Proof.
  split; [apply cduffy_unrecognised|]. split.
  - intros c Hc.
    destruct (decide (vir ∈ ["200crit"; "tophat"; "200mean"])) as [|Hvir];
      [done|].
    by rewrite cduffy_unrecognised in Hc.
  - intros Hvir _ _.
    destruct (cduffy_params vir relaxed Hvir)
      as (p0 & p1 & p2 & Hp0 & _ & _ & ->).
    eexists. split; [done|]. unfold Rpower.
    repeat apply Rmult_lt_0_compat; (done || apply exp_pos).
Qed.

Lemma cduffy_recognised_witness :
  ∃ c, cduffy 0 1e12 "200crit" true = Ok c ∧ 0 < c.
Proof.
  apply (proj2 (proj2 (cduffy_recognised 0 1e12 "200crit" true)));
    [apply list_elem_of_here|lra|lra].
Defined.

(** X4. For every recognised halo definition, relaxed or not, the Duffy
    concentration does not increase with the halo mass (for positive
    masses) nor with the redshift (for [z > -1]). *)
Theorem cduffy_decreasing (z1 z2 M1 M2 : R) (vir : string) (relaxed : bool)
    (c1 c2 : R) :
  0 < M1 → M1 <= M2 → -1 < z1 → z1 <= z2 →
  cduffy z1 M1 vir relaxed = Ok c1 →
  cduffy z2 M2 vir relaxed = Ok c2 →
  c2 <= c1.
Proof.
  intros HM1 HM12 Hz1 Hz12 Hc1 Hc2.
  destruct (decide (vir ∈ ["200crit"; "tophat"; "200mean"])) as [Hvir|Hvir];
    [|by rewrite cduffy_unrecognised in Hc1].
  destruct (cduffy_params vir relaxed Hvir)
    as (p0 & p1 & p2 & Hp0 & Hp1 & Hp2 & Hval).
  rewrite Hval in Hc1, Hc2. injection Hc1 as <-. injection Hc2 as <-.
  assert (Rpower (M2 / (2e12 / 0.72)) p1 <= Rpower (M1 / (2e12 / 0.72)) p1)
    as HM.
  { apply Rpower_neg_decreasing; [|unfold Rdiv|lra].
    - apply Rdiv_lt_0_compat; lra.
    - apply Rmult_le_compat_r; [|done]. left. apply Rinv_0_lt_compat. lra. }
  assert (Rpower (1 + z2) p2 <= Rpower (1 + z1) p2) as Hz
    by (apply Rpower_neg_decreasing; lra).
  assert (0 < Rpower (M2 / (2e12 / 0.72)) p1) by apply exp_pos.
  assert (0 < Rpower (1 + z2) p2) by apply exp_pos.
  rewrite !Rmult_assoc. apply Rmult_le_compat_l; [lra|].
  apply Rmult_le_compat; lra.
Qed.

Lemma cduffy_decreasing_witness :
  ∃ c1 c2,
    cduffy 0 1e12 "200crit" true = Ok c1
    ∧ cduffy 1 1e13 "200crit" true = Ok c2
    ∧ c2 <= c1.
Proof.
  destruct (cduffy_params "200crit" true) as (p0 & p1 & p2 & _ & _ & _ & Hval);
    [set_solver|].
  eexists _, _. split; [apply Hval|]. split; [apply Hval|].
  apply (cduffy_decreasing 0 1 1e12 1e13 "200crit" true _ _);
    [lra|lra|lra|lra|apply Hval|apply Hval].
Defined.

(** X5. The Duffy concentration is a power law in the mass and in
    [1+z], with negative slopes that depend on the halo definition and on
    the sample only: multiplying the mass by [k] multiplies the
    concentration by [k^p1], and multiplying [1+z] by [j] multiplies it by
    [j^p2]. *)
Theorem cduffy_power_law (vir : string) (relaxed : bool) :
  vir ∈ ["200crit"; "tophat"; "200mean"] →
  ∃ p1 p2,
    p1 < 0 ∧ p2 < 0
    ∧ ∀ z M k j c,
        0 < M → 0 < k → 0 < 1 + z → 0 < j →
        cduffy z M vir relaxed = Ok c →
        cduffy z (k * M) vir relaxed = Ok (Rpower k p1 * c)
        ∧ cduffy (j * (1 + z) - 1) M vir relaxed = Ok (Rpower j p2 * c).
Proof.
  intros Hvir.
  destruct (cduffy_params vir relaxed Hvir)
    as (p0 & p1 & p2 & Hp0 & Hp1 & Hp2 & Hval).
  exists p1, p2. split; [done|]. split; [done|].
  intros z M k j c HM Hk Hz Hj Hc. rewrite Hval in Hc. injection Hc as <-.
  rewrite !Hval. split; f_equal.
  - replace (k * M / (2e12 / 0.72)) with (k * (M / (2e12 / 0.72)))
      by (field; lra).
    rewrite <-Rpower_mult_distr; [ring|done|].
    apply Rdiv_lt_0_compat; lra.
  - replace (1 + (j * (1 + z) - 1)) with (j * (1 + z)) by lra.
    rewrite <-Rpower_mult_distr by done. ring.
Qed.

Lemma cduffy_power_law_witness :
  ∃ p1 p2,
    p1 < 0 ∧ p2 < 0
    ∧ ∀ z M k j c,
        0 < M → 0 < k → 0 < 1 + z → 0 < j →
        cduffy z M "200crit" true = Ok c →
        cduffy z (k * M) "200crit" true = Ok (Rpower k p1 * c)
        ∧ cduffy (j * (1 + z) - 1) M "200crit" true = Ok (Rpower j p2 * c).
Proof.
  apply (cduffy_power_law "200crit" true). apply list_elem_of_here.
Defined.

(** ** More on input reconciliation *)

(** X6. What [_checkinput] returns.  It answers [-1] only for two inputs of
    different sizes greater than one.  Otherwise the two size counters are
    the sizes of the returned arrays, [lenzout] is the number of output
    redshifts (one when none is given), every returned value is one of the
    caller's values, and inputs of equal sizes are returned as they are.
    Two non-empty inputs come back with the same size, the larger of the
    two input sizes; an empty input is not rejected and comes back
    unaligned. *)
Theorem checkinput_aligned (zi Mi : pyarg) (z : option pyarg) :
  match _checkinput zi Mi z with
  | CheckMinusOne =>
      (1 < length (np_array zi))%nat ∧ (1 < length (np_array Mi))%nat
      ∧ length (np_array zi) ≠ length (np_array Mi)
  | CheckTuple zi' Mi' z' lenz lenm lenzout =>
      lenz = length zi' ∧ lenm = length Mi'
      ∧ z' = np_array <$> z
      ∧ lenzout = from_option length 1%nat z'
      ∧ (∀ x, x ∈ zi' → x ∈ np_array zi)
      ∧ (∀ m, m ∈ Mi' → m ∈ np_array Mi)
      ∧ (length (np_array zi) = length (np_array Mi) →
           zi' = np_array zi ∧ Mi' = np_array Mi)
      ∧ (np_array zi ≠ [] → np_array Mi ≠ [] →
           length zi' = length Mi'
           ∧ length zi' = (length (np_array zi) `max` length (np_array Mi))%nat)
      ∧ (np_array zi = [] → zi' = [] ∧ Mi' = np_array Mi)
  end.
Proof.
  destruct (_checkinput zi Mi z) as [|zi' Mi' z' lenz lenm lenzout] eqn:Hcheck.
  { by apply (checkinput_minus_one zi Mi z). }
  unfold _checkinput in Hcheck. rewrite !ones_like_times_repeat in Hcheck.
  set (a := np_array zi) in *. set (b := np_array Mi) in *.
  assert (∀ (l : list R) n x, length l = 1%nat →
            x ∈ replicate n (default 0 (l !! 0%nat)) → x ∈ l) as Hone.
  { intros [|y [|??]] n x Hl; try done.
    intros [-> _]%elem_of_replicate. apply list_elem_of_here. }
  assert (∀ l : list R, l ≠ [] → (0 < length l)%nat) as Hpos.
  { intros [|??] ?; [done|cbn; lia]. }
  repeat case_bool_decide; cbn [andb] in Hcheck;
    destruct z as [z|]; try discriminate Hcheck;
    injection Hcheck as <- <- <- <- <- <-;
    rewrite ?length_replicate;
    (split; [done|]); (split; [done|]); (split; [done|]); (split; [done|]);
    (split; [by eauto|]); (split; [by eauto|]);
    (split; [intros ?; try lia; done|]);
    (split; [intros ?%Hpos ?%Hpos; rewrite ?length_replicate; lia|]);
    intros Hnil; rewrite Hnil in *; cbn in *; try lia; done.
Qed.

(** ** More on the resolver *)

Section resolver.
Context (ext : collaborators).

Lemma getcosmo_split (cosmology : cosmology_arg) :
  getcosmo ext cosmology
  = resolve_cosmology ext cosmology ≫= finish_cosmology ext.
Proof. by destruct cosmology. Qed.

Lemma ascii_lower_idemp (c : Ascii.ascii) :
  ascii_lower (ascii_lower c) = ascii_lower c.
Proof. by destruct c as [[] [] [] [] [] [] [] []]. Qed.

Lemma lower_idemp (s : string) : lower (lower s) = lower s.
Proof.
  induction s as [|c s IH]; [done|]. cbn. by rewrite ascii_lower_idemp, IH.
Qed.

(** The names that [getcosmo] recognises are those of the table of
    [getAscaling]. *)
Lemma name_tables_agree (key : string) :
  defaultcosmologies ext !! key = None ↔ Ascaling_table !! key = None.
Proof.
  unfold defaultcosmologies, Ascaling_table.
  by rewrite <-!not_elem_of_list_to_map.
Qed.

Lemma Ascaling_table_values (key : string) (A_scaling : R) :
  Ascaling_table !! key = Some A_scaling → 850 <= A_scaling <= 950.
Proof.
  unfold Ascaling_table. intros Hin%elem_of_list_to_map_2.
  repeat (apply elem_of_cons in Hin as [[= _ ->]|Hin]; [lra|]).
  by apply elem_of_nil in Hin.
Qed.

(** X7. Names of cosmologies are case-insensitive: a name and its
    lower-case form get the same [A_scaling] and are resolved in the same
    way. *)
Theorem getcosmo_case_insensitive (name : string) (w : world) :
  getAscaling ext (NameV name) false = getAscaling ext (NameV (lower name)) false
  ∧ getcosmo ext (CosmoName name) w = getcosmo ext (CosmoName (lower name)) w.
Proof.
  assert (getAscaling ext (NameV name) false
          = getAscaling ext (NameV (lower name)) false) as HA.
  { cbn. by rewrite lower_idemp. }
  split; [done|]. unfold getcosmo. rewrite lower_idemp, HA. reflexivity.
Qed.

(** X8. For a name, [getAscaling] returns the entry of its table for the
    lower-case name, a value between 850 and 950, and fails with
    [UnboundLocalError] exactly when the table has no such entry. *)
Theorem getAscaling_named (name : string) :
  match getAscaling ext (NameV name) false with
  | Ok A_scaling =>
      Ascaling_table !! lower name = Some A_scaling
      ∧ 850 <= A_scaling <= 950
  | Raise e => e = UnboundLocalError ∧ Ascaling_table !! lower name = None
  end.
Proof.
  unfold getAscaling.
  destruct (Ascaling_table !! lower name) as [A|] eqn:HA; [|by split].
  split; [done|]. by eapply Ascaling_table_values.
Qed.

(** The value of [getAscaling] for a dict that holds [sigma_8] and [n]. *)
Lemma getAscaling_dict (cosmo : dict) (sigma_8 n : R) :
  cosmo !! "sigma_8" = Some (VNum sigma_8) →
  cosmo !! "n" = Some (VNum n) →
  getAscaling ext (DictV cosmo) true
  = Ok (887 * (0.796 / sigma_8
               * Rpower (radius_to_mass ext 8 cosmo / 2.5e14)
                   ((n - 0.963) / 6))).
Proof.
  intros Hs Hn. unfold getAscaling.
  assert (Ascaling_table !! "wmap5" = Some 887) as -> by reflexivity.
  unfold _delta_sigma.
  by rewrite (getitem_num _ _ _ Hs), (getitem_num _ _ _ Hn).
Qed.

(** X9. When [getAscaling] returns for a dict of the caller, the dict holds
    [sigma_8] and [n], and for a positive mass [M8] enclosed in 8 Mpc/h and
    [sigma_8] not zero the value is the WMAP5 one perturbed:
    [887 * (0.796/sigma_8) * (M8/2.5e14)^((n-0.963)/6)].  For the
    reference values [sigma_8 = 0.796] and [n = 0.963] the perturbation is
    neutral: the value is 887, whatever [M8] and the other parameters. *)
Theorem getAscaling_reference (cosmo : dict) (A_scaling : R) :
  getAscaling ext (DictV cosmo) true = Ok A_scaling →
  ∃ sigma_8 n,
    cosmo !! "sigma_8" = Some (VNum sigma_8)
    ∧ cosmo !! "n" = Some (VNum n)
    ∧ (0 < radius_to_mass ext 8 cosmo → sigma_8 ≠ 0 →
       A_scaling = 887 * (0.796 / sigma_8
                          * Rpower (radius_to_mass ext 8 cosmo / 2.5e14)
                              ((n - 0.963) / 6)))
    ∧ (sigma_8 = 0.796 → n = 0.963 → A_scaling = 887).
Proof.
  intros HA. pose proof HA as HA'. unfold getAscaling in HA'.
  assert (Ascaling_table !! "wmap5" = Some 887) as Htab by reflexivity.
  rewrite Htab in HA'. unfold _delta_sigma in HA'.
  apply result_bind_Ok in HA' as (ds & Hds & _).
  apply result_bind_Ok in Hds as (sigma_8 & Hs%getitem_Ok & Hds).
  apply result_bind_Ok in Hds as (n & Hn%getitem_Ok & _).
  rewrite (getAscaling_dict cosmo sigma_8 n Hs Hn) in HA.
  injection HA as <-.
  exists sigma_8, n. split; [done|]. split; [done|]. split; [done|].
  intros -> ->. unfold Rpower.
  replace ((0.963 - 0.963) / 6) with 0 by lra.
  rewrite Rmult_0_l, exp_0. lra.
Qed.

(** X10. A dict without [A_scaling] and without [sigma_8] cannot be
    resolved: [getcosmo] fails with a [KeyError] and leaves the caller's
    dict, every other dict and the trace as they were. *)
Theorem getcosmo_missing_sigma_8 (ref : loc) (d : dict) (w : world) :
  heap w !! ref = Some d →
  d !! "A_scaling" = None →
  d !! "sigma_8" = None →
  ∃ key, getcosmo ext (CosmoDict ref) w = (Raise (KeyError key), w).
Proof.
  intros Href HA Hs. exists "sigma_8". unfold getcosmo.
  rewrite W_bind_unfold, (W_bind_unfold (deref ref)). cbn [deref].
  rewrite Href. cbn [default from_option id Datatypes.id].
  rewrite bool_decide_eq_true_2 by done.
  rewrite !W_bind_unfold. unfold lift at 1.
  assert (getAscaling ext (DictV d) true = Raise (KeyError "sigma_8")) as ->;
    [|done].
  unfold getAscaling.
  assert (Ascaling_table !! "wmap5" = Some 887) as -> by reflexivity.
  unfold _delta_sigma, getitem. by rewrite Hs.
Qed.

(** X11. [getcosmo] fails with [UnboundLocalError] exactly for a name that
    is not in the table of cosmologies (in lower case), and then it changes
    nothing: no dict is created and none is written. *)
Theorem getcosmo_unrecognised_name (name : string) (w : world) :
  ((getcosmo ext (CosmoName name) w).1 = Raise UnboundLocalError
   ↔ Ascaling_table !! lower name = None)
  ∧ (Ascaling_table !! lower name = None →
     (getcosmo ext (CosmoName name) w).2 = w).
Proof.
  destruct (Ascaling_table !! lower name) as [A|] eqn:HA.
  - split; [|done]. split; [|done].
    unfold getcosmo. rewrite W_bind_unfold.
    destruct (defaultcosmologies ext !! lower name) as [d0|] eqn:Hd.
    2:{ apply name_tables_agree in Hd. congruence. }
    rewrite W_bind_unfold. cbn [alloc].
    rewrite W_bind_unfold. unfold lift at 1. cbn [getAscaling].
    rewrite HA. rewrite W_bind_unfold. unfold update at 1.
    cbn [modify heap trace mret W_ret].
    rewrite W_bind_unfold. cbn [modify heap trace].
    rewrite W_bind_unfold. cbn [deref heap].
    rewrite W_bind_unfold. unfold lift, getitem.
    destruct (_ !! "omega_b_0") as [[ob|b]|]; [|done..].
    rewrite W_bind_unfold. by case_bool_decide.
  - apply name_tables_agree in HA. unfold getcosmo.
    rewrite W_bind_unfold, HA. done.
Qed.

End resolver.

Lemma getAscaling_reference_witness :
  ∃ A_scaling,
    getAscaling sample_collaborators
      (DictV (<["sigma_8" := VNum 0.796]> docstring_cosmo)) true
    = Ok A_scaling
    ∧ A_scaling = 887.
Proof.
  pose proof (getAscaling_dict sample_collaborators
                (<["sigma_8" := VNum 0.796]> docstring_cosmo) 0.796 0.963)
    as Hval.
  specialize (Hval ltac:(reflexivity) ltac:(reflexivity)).
  eexists. split; [exact Hval|].
  destruct (getAscaling_reference sample_collaborators
              (<["sigma_8" := VNum 0.796]> docstring_cosmo) _ Hval)
    as (sigma_8 & n & Hs & Hn & _ & Href).
  injection Hs as <-. injection Hn as <-. apply Href; reflexivity.
Defined.

Lemma getcosmo_missing_sigma_8_witness :
  ∃ key,
    getcosmo sample_collaborators (CosmoDict 1%positive)
      (World {[1%positive := delete "sigma_8" docstring_cosmo]} [])
    = (Raise (KeyError key),
       World {[1%positive := delete "sigma_8" docstring_cosmo]} []).
Proof.
  apply (getcosmo_missing_sigma_8 sample_collaborators 1%positive
           (delete "sigma_8" docstring_cosmo)
           (World {[1%positive := delete "sigma_8" docstring_cosmo]} []));
    reflexivity.
Defined.

Section resolver_writes.
Context (ext : collaborators).

(** What the second half of [getcosmo] leaves in the heap. *)
Lemma finish_cosmology_spec (a : loc) (w : world) :
  let d1 := set_omega_k_0 ext (default ∅ (heap w !! a)) in
  match finish_cosmology ext a w with
  | (Ok cosmo, w') =>
      cosmo = a ∧ trace w' = trace w
      ∧ ∃ omega_b_0,
          d1 !! "omega_b_0" = Some (VNum omega_b_0)
          ∧ heap w'
            = <[a := <["baryonic_effects" := VBool (bool_decide (omega_b_0 > 0))]> d1]>
                (heap w)
  | (Raise e, w') => trace w' = trace w ∧ heap w' = <[a := d1]> (heap w)
  end.
Proof.
  intros d1. unfold finish_cosmology.
  rewrite W_bind_unfold. cbn [modify]. fold d1.
  rewrite W_bind_unfold. cbn [deref heap].
  rewrite lookup_insert_eq. cbn [default from_option id Datatypes.id].
  rewrite W_bind_unfold. unfold lift.
  destruct (getitem d1 "omega_b_0") as [ob|e] eqn:Hob; [|done].
  apply getitem_Ok in Hob. rewrite W_bind_unfold. unfold update.
  assert (∀ b : bool,
    (if b then modify a <["baryonic_effects" := VBool true]>
     else modify a <["baryonic_effects" := VBool false]>)
    = modify a <["baryonic_effects" := VBool b]>) as -> by (by intros []).
  cbn [modify heap trace mret W_ret].
  rewrite lookup_insert_eq, insert_insert_eq.
  cbn [default from_option id Datatypes.id].
  split; [done|]. split; [done|]. by exists ob.
Qed.

(** X12. After [getcosmo] has returned, the resolved dict holds the flag
    [baryonic_effects], and the flag is [True] exactly when the
    [omega_b_0] of that dict is positive. *)
Theorem getcosmo_baryonic_flag (cosmology : cosmology_arg) (w : world) :
  match getcosmo ext cosmology w with
  | (Ok cosmo, w') =>
      ∃ d omega_b_0 b,
        heap w' !! cosmo = Some d
        ∧ d !! "omega_b_0" = Some (VNum omega_b_0)
        ∧ d !! "baryonic_effects" = Some (VBool b)
        ∧ (b = true ↔ omega_b_0 > 0)
  | (Raise e, w') => True
  end.
Proof.
  rewrite getcosmo_split, W_bind_unfold.
  destruct (resolve_cosmology ext cosmology w) as [[a|e] w1]; [|done].
  pose proof (finish_cosmology_spec a w1) as Hfin. cbn zeta in Hfin.
  destruct (finish_cosmology ext a w1) as [[cosmo|e] w']; [|done].
  destruct Hfin as (-> & _ & ob & Hob & ->).
  eexists _, ob, _. rewrite lookup_insert_eq. split; [done|].
  rewrite lookup_insert_ne by done. split; [done|].
  rewrite lookup_insert_eq. split; [done|].
  by rewrite bool_decide_eq_true.
Qed.

(** The loop of [getcosmo] over the default parameters only adds entries,
    and afterwards every default parameter has one. *)
Lemma fill_missing_adds (ref : loc) (keys : list string) (d : dict)
    (w : world) :
  heap w !! ref = Some d →
  ∃ d', for_each keys ()
          (λ _ paramnames,
            d ← deref ref;
            if bool_decide (d !! paramnames = None) then
              update ref paramnames (VNum 0)
            else mret ()) w
        = (Ok (), World (<[ref := d']> (heap w)) (trace w))
        ∧ d ⊆ d' ∧ ∀ key, key ∈ keys → is_Some (d' !! key).
Proof.
  revert d w. induction keys as [|key keys IH]; intros d w Href.
  - exists d. rewrite insert_id by done. destruct w. split; [done|].
    split; [done|]. by intros ? ?%elem_of_nil.
  - cbn [for_each]. rewrite !W_bind_unfold. cbn [deref]. rewrite Href.
    cbn [default from_option id Datatypes.id].
    case_bool_decide as Hkey.
    + change (update ref key (VNum 0)) with (modify ref <[key := VNum 0]>).
      cbn [modify]. rewrite Href.
      cbn [default from_option id Datatypes.id].
      destruct (IH (<[key := VNum 0]> d)
                  (World (<[ref := <[key := VNum 0]> d]> (heap w)) (trace w)))
        as (d' & -> & Hsub & Hkeys); [apply lookup_insert_eq|].
      exists d'. cbn [heap trace]. rewrite insert_insert_eq.
      split; [done|]. split.
      * etrans; [|done]. by apply insert_subseteq.
      * intros key' [->|Hin]%elem_of_cons; [|by apply Hkeys].
        exists (VNum 0). eapply lookup_weaken; [|done]. apply lookup_insert_eq.
    + cbn [mret W_ret]. destruct (IH d w Href) as (d' & -> & Hsub & Hkeys).
      exists d'. split; [done|]. split; [done|].
      intros key' [->|Hin]%elem_of_cons; [|by apply Hkeys].
      destruct (d !! key) as [v|] eqn:Hv; [|done].
      exists v. by eapply lookup_weaken.
Qed.

(** The first half of [getcosmo] on a dict of the caller. *)
Lemma resolve_dict_adds (ref : loc) (d0 : dict) (w : world) :
  heap w !! ref = Some d0 →
  match resolve_cosmology ext (CosmoDict ref) w with
  | (r, w') =>
      trace w' = trace w
      ∧ ∃ d1, heap w' = <[ref := d1]> (heap w) ∧ d0 ⊆ d1
              ∧ ∀ cosmo, r = Ok cosmo →
                  cosmo = ref ∧ is_Some (d1 !! "A_scaling")
                  ∧ ∀ key, is_Some (cg ext "WMAP5_mean" !! key) →
                      is_Some (d1 !! key)
  end.
Proof.
  intros Href. unfold resolve_cosmology.
  rewrite W_bind_unfold. cbn [deref]. rewrite Href.
  cbn [default from_option id Datatypes.id].
  rewrite W_bind_unfold.
  assert (∃ d1 r1,
    (if bool_decide (d0 !! "A_scaling" = None)
     then A_scaling ← lift (getAscaling ext (DictV d0) true);
          update ref "A_scaling" (VNum A_scaling)
     else mret ()) w = (r1, World (<[ref := d1]> (heap w)) (trace w))
    ∧ d0 ⊆ d1 ∧ (r1 = Ok () → is_Some (d1 !! "A_scaling")))
    as (d1 & r1 & -> & Hsub & HA).
  { case_bool_decide as HA.
    - rewrite W_bind_unfold. unfold lift.
      destruct (getAscaling ext (DictV d0) true) as [A|e].
      + exists (<["A_scaling" := VNum A]> d0), (Ok ()).
        unfold update, modify. rewrite Href.
        cbn [default from_option id Datatypes.id].
        split; [done|]. split; [by apply insert_subseteq|].
        intros _. rewrite lookup_insert_eq. by eexists.
      + exists d0, (Raise e). rewrite insert_id by done. destruct w.
        by repeat split.
    - exists d0, (Ok ()). rewrite insert_id by done. destruct w.
      split; [done|]. split; [done|]. intros _.
      by destruct (d0 !! "A_scaling"); [eexists|]. }
  destruct r1 as [[]|e].
  2:{ split; [done|]. exists d1. by repeat split. }
  rewrite W_bind_unfold.
  destruct (fill_missing_adds ref (map fst (map_to_list (cg ext "WMAP5_mean")))
              d1 (World (<[ref := d1]> (heap w)) (trace w)))
    as (d2 & -> & Hsub2 & Hkeys); [apply lookup_insert_eq|].
  cbn [heap trace mret W_ret]. rewrite insert_insert_eq.
  split; [done|]. exists d2. split; [done|]. split; [by etrans|].
  intros cosmo [= <-]. split; [done|]. split.
  - destruct (HA eq_refl) as [v Hv]. exists v. by eapply lookup_weaken.
  - intros key [v Hv]. apply Hkeys.
    apply list_elem_of_fmap. exists (key, v). split; [done|].
    by apply elem_of_map_to_list.
Qed.

(** X13. Provided the collaborator [set_omega_k_0] only adds entries,
    [getcosmo] never removes nor changes a parameter of the caller's dict,
    except [baryonic_effects], whether it returns or raises; and when it
    returns, the caller's dict holds [A_scaling], [baryonic_effects] and
    every parameter name of the WMAP5 cosmology. *)
Theorem getcosmo_only_adds (ref : loc) (d0 : dict) (w : world) :
  set_omega_k_0_only_adds ext →
  heap w !! ref = Some d0 →
  match getcosmo ext (CosmoDict ref) w with
  | (r, w') =>
      ∃ d', heap w' !! ref = Some d'
            ∧ (∀ key v, key ≠ "baryonic_effects" →
                 d0 !! key = Some v → d' !! key = Some v)
            ∧ ∀ cosmo, r = Ok cosmo →
                cosmo = ref
                ∧ is_Some (d' !! "A_scaling")
                ∧ is_Some (d' !! "baryonic_effects")
                ∧ ∀ key, is_Some (cg ext "WMAP5_mean" !! key) →
                    is_Some (d' !! key)
  end.
Proof.
  intros Hadds Href. rewrite getcosmo_split, W_bind_unfold.
  pose proof (resolve_dict_adds ref d0 w Href) as Hres.
  destruct (resolve_cosmology ext (CosmoDict ref) w) as [[a|e] w1];
    destruct Hres as (Htr & d1 & Hheap & Hsub & Hr).
  2:{ exists d1. rewrite Hheap, lookup_insert_eq. split; [done|].
      split; [|done]. intros key v _ Hv. by eapply lookup_weaken. }
  destruct (Hr a eq_refl) as (-> & HA & Hkeys).
  pose proof (finish_cosmology_spec ref w1) as Hfin. cbn zeta in Hfin.
  rewrite Hheap, lookup_insert_eq in Hfin.
  cbn [default from_option id Datatypes.id] in Hfin.
  assert (d0 ⊆ set_omega_k_0 ext d1) as Hsub' by (etrans; [done|apply Hadds]).
  assert (∀ key, is_Some (d1 !! key) → is_Some (set_omega_k_0 ext d1 !! key))
    as Hkeep.
  { intros key [v Hv]. exists v. eapply lookup_weaken; [done|apply Hadds]. }
  destruct (finish_cosmology ext ref w1) as [[cosmo|e] w'].
  - destruct Hfin as (-> & _ & ob & Hob & ->).
    eexists. rewrite lookup_insert_eq. split; [done|]. split.
    + intros key v Hkey Hv. rewrite lookup_insert_ne by done.
      by eapply lookup_weaken.
    + intros cosmo [= <-]. split; [done|].
      split; [rewrite lookup_insert_ne by done; by apply Hkeep|].
      split; [rewrite lookup_insert_eq; by eexists|].
      intros key Hkey. apply lookup_insert_is_Some'. right.
      by apply Hkeep, Hkeys.
  - destruct Hfin as (_ & ->). eexists. rewrite lookup_insert_eq.
    split; [done|]. split; [|done].
    intros key v _ Hv. by eapply lookup_weaken.
Qed.

End resolver_writes.

Lemma sample_set_omega_k_0_only_adds :
  set_omega_k_0_only_adds sample_collaborators.
Proof.
  intros d. cbn. unfold curvature_set_omega_k_0.
  destruct (d !! "omega_k_0") eqn:Hk; [done|].
  destruct (d !! "omega_M_0") as [[x|b]|]; try done.
  destruct (d !! "omega_lambda_0") as [[y|b]|]; try done.
  by apply insert_subseteq.
Qed.

Lemma getcosmo_only_adds_witness :
  set_omega_k_0_only_adds sample_collaborators
  ∧ match getcosmo sample_collaborators (CosmoDict 1%positive)
            (World {[1%positive := docstring_cosmo]} []) with
    | (r, w') =>
        ∃ d', heap w' !! 1%positive = Some d'
              ∧ (∀ key v, key ≠ "baryonic_effects" →
                   docstring_cosmo !! key = Some v → d' !! key = Some v)
              ∧ ∀ cosmo, r = Ok cosmo →
                  cosmo = 1%positive
                  ∧ is_Some (d' !! "A_scaling")
                  ∧ is_Some (d' !! "baryonic_effects")
                  ∧ ∀ key, is_Some (cg sample_collaborators "WMAP5_mean" !! key) →
                      is_Some (d' !! key)
    end.
Proof.
  split; [exact sample_set_omega_k_0_only_adds|].
  exact (getcosmo_only_adds sample_collaborators 1%positive docstring_cosmo
           (World {[1%positive := docstring_cosmo]} [])
           sample_set_omega_k_0_only_adds eq_refl).
Defined.


(** ** More on the accretion rate and the mass history *)

Section mass_history.
Context (ext : collaborators).

(** The two values of [acc_rate] and the entries of the cosmology that it
    reads. *)
Lemma acc_rate_Ok_inv z zi Mi cosmo dMdt Mz :
  acc_rate ext z zi Mi cosmo = Ok (dMdt, Mz) →
  ∃ a_tilde b_tilde h omega_M_0 omega_lambda_0,
    calc_ab ext zi Mi cosmo = Ok (a_tilde, b_tilde)
    ∧ cosmo !! "h" = Some (VNum h)
    ∧ cosmo !! "omega_M_0" = Some (VNum omega_M_0)
    ∧ cosmo !! "omega_lambda_0" = Some (VNum omega_lambda_0)
    ∧ Mz = Mi * Rpower (1 + z - zi) a_tilde * exp (b_tilde * (z - zi))
    ∧ dMdt = 71.6 * (Mz / 1e12) * (h / 0.7)
             * (- a_tilde / (1 + z - zi) - b_tilde) * (1 + z)
             * sqrt (omega_M_0 * (1 + z) ^ 3 + omega_lambda_0).
Proof.
  unfold acc_rate.
  intros ([a b] & Hab & (h & Hh%getitem_Ok & (oM & HM%getitem_Ok
    & (oL & HL%getitem_Ok & [= <- <-])%result_bind_Ok
    )%result_bind_Ok)%result_bind_Ok)%result_bind_Ok.
  by exists a, b, h, oM, oL.
Qed.

(** X14. [MAH] returns one accretion rate and one mass per output
    redshift, and at an output redshift equal to the starting redshift
    [zi] the mass is the starting mass [Mi]. *)
Theorem MAH_initial_mass (z : pyarg) zi Mi cosmo dMdt Mz :
  MAH ext z zi Mi cosmo = Ok (dMdt, Mz) →
  length dMdt = length (np_array z)
  ∧ length Mz = length (np_array z)
  ∧ ∀ j, np_array z !! j = Some zi → Mz !! j = Some Mi.
Proof.
  intros (rows & Hrows & -> & ->)%MAH_Ok.
  rewrite !length_fmap. pose proof (Forall2_length _ _ _ Hrows) as Hlen.
  split; [done|]. split; [done|]. intros j Hj.
  destruct (Forall2_lookup_l _ _ _ _ _ Hrows Hj) as ([d m] & Hrow & Hacc).
  rewrite list_lookup_fmap, Hrow. cbn. f_equal.
  apply acc_rate_inv in Hacc as (a & b & _ & ->).
  replace (1 + zi - zi) with 1 by lra. replace (zi - zi) with 0 by lra.
  rewrite Rpower_1_l, Rmult_0_r, exp_0. lra.
Qed.

(** The derivative of the mass history with respect to the redshift. *)
Lemma mass_history_derivative (a b Mi zi z : R) :
  0 < 1 + z - zi →
  derivable_pt_lim (λ x, Mi * Rpower (1 + x - zi) a * exp (b * (x - zi))) z
    (Mi * Rpower (1 + z - zi) a * exp (b * (z - zi)) * (a / (1 + z - zi) + b)).
Proof.
  intros Hpos.
  set (base := (fct_cte (1 - zi) + id)%F).
  set (arg := mult_real_fct b (id - fct_cte zi)%F).
  assert (derivable_pt_lim base z (0 + 1)) as Hbase.
  { apply derivable_pt_lim_plus;
      [apply derivable_pt_lim_const|apply derivable_pt_lim_id]. }
  assert (derivable_pt_lim arg z (b * (1 - 0))) as Harg.
  { apply derivable_pt_lim_scal, derivable_pt_lim_minus;
      [apply derivable_pt_lim_id|apply derivable_pt_lim_const]. }
  assert (base z = 1 + z - zi) as Hbz
    by (unfold base, plus_fct, fct_cte, id; lra).
  assert (derivable_pt_lim (comp (λ y, Rpower y a) base) z
            (a * Rpower (base z) (a - 1) * (0 + 1))) as Hpow.
  { apply derivable_pt_lim_comp; [done|].
    apply derivable_pt_lim_power. by rewrite Hbz. }
  assert (derivable_pt_lim (comp exp arg) z (exp (arg z) * (b * (1 - 0))))
    as Hexp.
  { apply derivable_pt_lim_comp; [done|apply derivable_pt_lim_exp]. }
  pose proof (derivable_pt_lim_scal _ Mi z _
                (derivable_pt_lim_mult _ _ z _ _ Hpow Hexp)) as Hall.
  eapply derivable_pt_lim_ext in Hall; last first.
  { intros x. unfold base, arg.
    unfold mult_real_fct, mult_fct, comp, plus_fct, minus_fct, fct_cte, id.
    instantiate (1 := λ x, Mi * Rpower (1 + x - zi) a * exp (b * (x - zi))).
    cbv beta. replace (1 - zi + x) with (1 + x - zi) by lra. ring. }
  replace (Mi * Rpower (1 + z - zi) a * exp (b * (z - zi))
           * (a / (1 + z - zi) + b))
    with (Mi * (a * Rpower (base z) (a - 1) * (0 + 1) * comp exp arg z
                + comp (λ y, Rpower y a) base z
                  * (exp (arg z) * (b * (1 - 0))))); [done|].
  unfold comp. rewrite Hbz.
  replace (arg z) with (b * (z - zi))
    by (unfold arg, mult_real_fct, minus_fct, fct_cte, id; lra).
  replace (a - 1) with (a + - (1)) by lra.
  rewrite Rpower_plus, Rpower_Ropp, Rpower_1 by done.
  field. lra.
Qed.

(** X15. The accretion rate is the rate of change of the mass history:
    when [rate] and [mass] are the two values of [acc_rate] as functions
    of the redshift, [mass] is differentiable at every [z > zi - 1] and
    [rate z = - 71.6e-12 * (h/0.7) * (1+z) * H(z) * mass'(z)] with
    [H(z) = sqrt(omega_M_0*(1+z)^3 + omega_lambda_0)]. *)
Theorem acc_rate_derivative zi Mi cosmo h omega_M_0 omega_lambda_0
    (rate mass : R → R) z :
  cosmo !! "h" = Some (VNum h) →
  cosmo !! "omega_M_0" = Some (VNum omega_M_0) →
  cosmo !! "omega_lambda_0" = Some (VNum omega_lambda_0) →
  (∀ x, acc_rate ext x zi Mi cosmo = Ok (rate x, mass x)) →
  zi - 1 < z →
  ∃ dMdz,
    derivable_pt_lim mass z dMdz
    ∧ rate z = - (71.6 / 1e12 * (h / 0.7) * (1 + z)
                  * sqrt (omega_M_0 * (1 + z) ^ 3 + omega_lambda_0)) * dMdz.
Proof.
  intros Hh HM HL Hacc Hz.
  destruct (acc_rate_Ok_inv _ _ _ _ _ _ (Hacc z))
    as (a & b & h' & oM & oL & Hab & Hh' & HM' & HL' & Hmass & Hrate).
  rewrite Hh in Hh'. rewrite HM in HM'. rewrite HL in HL'.
  injection Hh' as <-. injection HM' as <-. injection HL' as <-.
  assert (∀ x, mass x = Mi * Rpower (1 + x - zi) a * exp (b * (x - zi)))
    as Hmassx.
  { intros x.
    destruct (acc_rate_Ok_inv _ _ _ _ _ _ (Hacc x))
      as (a' & b' & _ & _ & _ & Hab' & _ & _ & _ & Hx & _).
    rewrite Hab in Hab'. by injection Hab' as <- <-. }
  exists (mass z * (a / (1 + z - zi) + b)). split.
  - apply (derivable_pt_lim_ext
             (λ x, Mi * Rpower (1 + x - zi) a * exp (b * (x - zi))));
      [done|].
    rewrite Hmassx. apply mass_history_derivative. lra.
  - rewrite Hrate. field. lra.
Qed.

(** X16. A halo does not lose mass: for a non-negative starting mass and
    Hubble parameter, and a growth factor that does not grow with redshift
    at [zi], the mass and the accretion rate that [acc_rate] returns at a
    redshift [z >= zi] (and [z >= -1]) are non-negative. *)
Theorem acc_rate_nonneg z zi Mi cosmo h dg dMdt Mz :
  0 <= Mi →
  cosmo !! "h" = Some (VNum h) → 0 <= h →
  _deriv_growth ext zi cosmo = Ok dg → dg <= 0 →
  zi <= z → -1 <= z →
  acc_rate ext z zi Mi cosmo = Ok (dMdt, Mz) →
  0 <= Mz ∧ 0 <= dMdt.
Proof.
  intros HMi Hh Hh0 Hdg Hdg0 Hzi Hz Hacc.
  apply acc_rate_Ok_inv in Hacc
    as (a & b & h' & oM & oL & Hab & Hh' & _ & _ & HMz & ->).
  rewrite Hh in Hh'. injection Hh' as <-.
  apply calc_ab_inv in Hab as (f & dg' & gf & Hf & Hdg' & _ & -> & ->).
  rewrite Hdg in Hdg'. injection Hdg' as <-.
  assert (0 <= Mz) as HMz0.
  { rewrite HMz. unfold Rpower.
    repeat apply Rmult_le_pos; (done || left; apply exp_pos). }
  split; [done|].
  set (k := sqrt (2 / PI) * 1.686 * dg / gf ^ 2).
  assert (k <= 0) as Hk.
  { unfold k. assert (0 <= sqrt (2 / PI)) by apply sqrt_pos.
    pose proof (Rinv_sqr_nonneg gf).
    unfold Rdiv. assert (sqrt (2 / PI) * 1.686 * dg <= 0) by nra. nra. }
  assert (0 < / (1 + z - zi)) as Hinv by (apply Rinv_0_lt_compat; lra).
  assert (0 <= - ((k + 1) * f) / (1 + z - zi) - - f) as Hfactor.
  { replace (- ((k + 1) * f) / (1 + z - zi) - - f)
      with (f * ((z - zi - k) * / (1 + z - zi))) by (field; lra).
    apply Rmult_le_pos; [lra|]. apply Rmult_le_pos; lra. }
  apply Rmult_le_pos; [|apply sqrt_pos].
  apply Rmult_le_pos; [|lra].
  apply Rmult_le_pos; [|exact Hfactor].
  apply Rmult_le_pos; lra.
Qed.

(** X17. [MAH] restricts the starting redshift only.  When it returns for
    at least one output redshift, the starting redshift is below 200,
    [calc_ab] returns the indices at [(zi, Mi)], and the cosmology holds
    numbers for [h], [omega_M_0] and [omega_lambda_0].  And when [calc_ab]
    returns the indices at [(zi, Mi)] and the cosmology holds a number for
    [h], [MAH] returns one rate and one mass per output redshift, whatever
    the output redshifts. *)
Theorem MAH_domain (z : pyarg) zi Mi cosmo :
  (np_array z ≠ [] →
   ∀ dMdt Mz, MAH ext z zi Mi cosmo = Ok (dMdt, Mz) →
     zi < 200
     ∧ (∃ a_tilde b_tilde, calc_ab ext zi Mi cosmo = Ok (a_tilde, b_tilde))
     ∧ ∃ h omega_M_0 omega_lambda_0,
         cosmo !! "h" = Some (VNum h)
         ∧ cosmo !! "omega_M_0" = Some (VNum omega_M_0)
         ∧ cosmo !! "omega_lambda_0" = Some (VNum omega_lambda_0))
  ∧ (∀ a_tilde b_tilde h,
       calc_ab ext zi Mi cosmo = Ok (a_tilde, b_tilde) →
       cosmo !! "h" = Some (VNum h) →
       ∃ dMdt Mz,
         MAH ext z zi Mi cosmo = Ok (dMdt, Mz)
         ∧ length dMdt = length (np_array z)
         ∧ length Mz = length (np_array z)).
Proof.
  split.
  - intros Hne dMdt Mz HMAH.
    destruct (np_array z) as [|zval zs] eqn:Hz; [done|].
    pose proof HMAH as (rows & Hrows & _)%MAH_Ok. rewrite Hz in Hrows.
    apply Forall2_cons_inv_l in Hrows as ([d m] & rows' & Hacc & _).
    apply acc_rate_Ok_inv in Hacc
      as (a & b & h & oM & oL & Hab & Hh & HM & HL & _).
    split; [|split; [by exists a, b|by exists h, oM, oL]].
    destruct (Rlt_dec zi 200) as [|Hzi]; [done|].
    by rewrite (calc_ab_assert ext zi Mi cosmo oM oL) in Hab.
  - intros a b h Hab Hh.
    assert (∃ oM oL, getitem cosmo "omega_M_0" = Ok oM
                     ∧ getitem cosmo "omega_lambda_0" = Ok oL)
      as (oM & oL & HM & HL).
    { apply calc_ab_inv in Hab as (f & dg & gf & _ & _ & Hgf & _).
      unfold growthfactor in Hgf.
      apply result_bind_Ok in Hgf as (oM & HM & Hgf).
      apply result_bind_Ok in Hgf as (oL & HL & _). by exists oM, oL. }
    assert (∃ rows, Forall2 (λ zval row, acc_rate ext zval zi Mi cosmo = Ok row)
                      (np_array z) rows) as [rows Hrows].
    { induction (np_array z) as [|zval zs [rows IH]]; [by exists []|].
      eexists (_ :: rows). constructor; [|done].
      unfold acc_rate. rewrite Hab. cbn -[pow].
      rewrite (getitem_num _ _ _ Hh), HM, HL. reflexivity. }
    exists (rows.*1), (rows.*2).
    rewrite !length_fmap. pose proof (Forall2_length _ _ _ Hrows) as Hlen.
    split; [|done]. apply MAH_Ok. by exists rows.
Qed.

(** X18. The normalisation of [growthfactor] divides by the growth
    integral at redshift zero only: the normalised growth factor at
    redshift zero is [sqrt(omega_M_0 + omega_lambda_0)], which is one
    exactly for a flat cosmology. *)
Theorem growthfactor_zero_flat cosmo omega_M_0 omega_lambda_0 :
  cosmo !! "omega_M_0" = Some (VNum omega_M_0) →
  cosmo !! "omega_lambda_0" = Some (VNum omega_lambda_0) →
  (quad ext (growth_integrand omega_M_0 omega_lambda_0) 0 200).1 ≠ 0 →
  growthfactor ext 0 true cosmo = Ok (sqrt (omega_M_0 + omega_lambda_0))
  ∧ (growthfactor ext 0 true cosmo = Ok 1 ↔ omega_M_0 + omega_lambda_0 = 1).
Proof.
  intros HM HL Hquad.
  rewrite (growthfactor_at_zero ext cosmo omega_M_0 omega_lambda_0 HM HL Hquad).
  split; [done|]. split.
  - intros [= Hsqrt].
    destruct (Rle_dec 0 (omega_M_0 + omega_lambda_0)) as [Hpos|Hneg].
    + rewrite <-(sqrt_sqrt _ Hpos), Hsqrt. lra.
    + rewrite sqrt_neg_0 in Hsqrt by lra. lra.
  - intros ->. by rewrite sqrt_1.
Qed.

(** X19. [growthfactor] is defined below redshift 200 only.  With or
    without normalisation, when it returns the redshift is below 200; for
    a cosmology that holds the two densities it fails with
    [AssertionError] from redshift 200 on; and below 200 it returns when
    the squared Hubble rate [omega_M_0*(1+x)^3 + omega_lambda_0] is
    positive at every redshift [x] of the two ranges of integration, from
    [z] and from zero to 200, where the integrand is defined. *)
Theorem growthfactor_domain z (norm : bool) cosmo omega_M_0 omega_lambda_0 :
  cosmo !! "omega_M_0" = Some (VNum omega_M_0) →
  cosmo !! "omega_lambda_0" = Some (VNum omega_lambda_0) →
  (∀ g, growthfactor ext z norm cosmo = Ok g → z < 200)
  ∧ (¬ z < 200 → growthfactor ext z norm cosmo = Raise AssertionError)
  ∧ (z < 200 →
     (∀ x, z <= x ∨ 0 <= x → x <= 200 →
        0 < omega_M_0 * (1 + x) ^ 3 + omega_lambda_0) →
     ∃ g, growthfactor ext z norm cosmo = Ok g).
Proof.
  intros HM HL.
  assert (¬ z < 200 → growthfactor ext z norm cosmo = Raise AssertionError)
    as Hassert.
  { intros Hz. unfold growthfactor.
    rewrite (getitem_num _ _ _ HM), (getitem_num _ _ _ HL). cbn -[pow].
    by rewrite (int_growth_assert ext z). }
  split; [|split; [done|]].
  - intros g Hg. destruct (Rlt_dec z 200) as [|Hz]; [done|].
    by rewrite (Hassert Hz) in Hg.
  - intros Hz _. unfold growthfactor.
    rewrite (getitem_num _ _ _ HM), (getitem_num _ _ _ HL). cbn -[pow].
    rewrite (int_growth_Ok ext z cosmo omega_M_0 omega_lambda_0) by done.
    cbn -[pow]. destruct norm; [|by eexists].
    rewrite (int_growth_Ok ext 0 cosmo omega_M_0 omega_lambda_0)
      by (done || unfold zmax; lra).
    by eexists.
Qed.

(** *** The concentration arrays *)

(** X20. The four arrays that [COM] returns have the size of [z].  When
    [M] is shorter than [z], the entries beyond the size of [M] are never
    assigned: they hold what [np.empty_like] left there. *)
Theorem COM_shape (z M : pyarg) cosmo cs sigs nus zfs :
  COM ext z M cosmo = Ok (cs, sigs, nus, zfs) →
  (length cs = length (np_array z) ∧ length sigs = length (np_array z)
   ∧ length nus = length (np_array z) ∧ length zfs = length (np_array z))
  ∧ ∀ j, (length (np_array M) ≤ j < length (np_array z))%nat →
      cs !! j = Some (uninitialised ext j)
      ∧ sigs !! j = Some (uninitialised ext j)
      ∧ nus !! j = Some (uninitialised ext j)
      ∧ zfs !! j = Some (uninitialised ext j).
Proof.
  rewrite COM_unfold.
  intros (rows & Hrows & [= <- <- <- <-])%result_bind_Ok.
  apply mapM_result_Ok, Forall2_length in Hrows.
  unfold _izip in Hrows. rewrite length_zip in Hrows.
  rewrite !length_inserts, !length_empty_like. split; [done|].
  intros j [HjM Hjz].
  rewrite !list_lookup_inserts_ge by (rewrite length_fmap; lia).
  unfold empty_like. rewrite list_lookup_fmap, lookup_seq_lt by done. done.
Qed.

(** X21. [COM] is defined below redshift 200 only: when it returns, every
    redshift that is paired with a mass is below 200, and the cosmology
    holds numbers for [A_scaling] and the two densities whenever there is
    such a pair. *)
Theorem COM_domain (z M : pyarg) cosmo cs sigs nus zfs j zval Mval :
  COM ext z M cosmo = Ok (cs, sigs, nus, zfs) →
  np_array z !! j = Some zval → np_array M !! j = Some Mval →
  zval < 200
  ∧ ∃ A_scaling omega_M_0 omega_lambda_0,
      cosmo !! "A_scaling" = Some (VNum A_scaling)
      ∧ cosmo !! "omega_M_0" = Some (VNum omega_M_0)
      ∧ cosmo !! "omega_lambda_0" = Some (VNum omega_lambda_0).
Proof.
  intros HCOM Hz HM.
  destruct (COM_Ok_lookup ext _ _ _ _ _ _ _ j zval Mval HCOM Hz HM)
    as (c & sig & nu & zf & Hrow & _).
  apply COM_row_inv in Hrow as (a & b & c0 & Hab & Hroot & _).
  apply COM_root_inv in Hroot
    as (A & oM & oL & HA%getitem_Ok & HoM%getitem_Ok & HoL%getitem_Ok & _).
  split; [|by exists A, oM, oL].
  destruct (Rlt_dec zval 200) as [|Hzval]; [done|].
  by rewrite (calc_ab_assert ext zval Mval cosmo oM oL) in Hab.
Qed.

End mass_history.


(** *** Sample values *)

Lemma sample_acc_rate :
  ∃ a b,
    calc_ab sample_collaborators 0 1e12 resolved_cosmo = Ok (a, b)
    ∧ ∀ x, acc_rate sample_collaborators x 0 1e12 resolved_cosmo
           = Ok (71.6 * (1e12 * Rpower (1 + x - 0) a * exp (b * (x - 0)) / 1e12)
                 * (0.702 / 0.7) * (- a / (1 + x - 0) - b) * (1 + x)
                 * sqrt (0.275 * (1 + x) ^ 3 + 0.725),
                 1e12 * Rpower (1 + x - 0) a * exp (b * (x - 0))).
Proof.
  destruct (calc_ab_total sample_collaborators 0 1e12 resolved_cosmo
              0.275 0.725) as (a & b & Hab);
    [unfold zmax; lra|reflexivity|reflexivity|].
  exists a, b. split; [done|]. intros x.
  unfold acc_rate. rewrite Hab. reflexivity.
Qed.

Lemma COM_row_close_to_zero (ext : collaborators) zval Mval cosmo
    a_tilde b_tilde c :
  calc_ab ext zval Mval cosmo = Ok (a_tilde, b_tilde) →
  COM_root ext zval a_tilde b_tilde cosmo = Ok c →
  isclose c 0 = true →
  COM_row ext zval Mval cosmo = Ok (-1, -1, -1, -1).
Proof.
  intros Hab Hroot Hclose.
  unfold COM_row. rewrite Hab. cbn. rewrite Hroot. cbn. by rewrite Hclose.
Qed.

Lemma degenerate_COM :
  COM degenerate_collaborators (Sequence [0; 1]) (Scalar 1e12) resolved_cosmo
  = Ok ([-1; 0], [-1; 0], [-1; 0], [-1; 0]).
Proof.
  destruct (calc_ab_total degenerate_collaborators 0 1e12 resolved_cosmo
              0.275 0.725) as (a & b & Hab);
    [unfold zmax; lra|reflexivity|reflexivity|].
  rewrite COM_unfold. cbn [np_array _izip zip zip_with mapM].
  rewrite (COM_row_close_to_zero degenerate_collaborators 0 1e12 resolved_cosmo
             a b 0 Hab eq_refl).
  - reflexivity.
  - apply isclose_0_small. rewrite Rabs_R0. lra.
Qed.

Lemma MAH_initial_mass_witness :
  ∃ dMdt Mz,
    MAH sample_collaborators (Sequence [0; 1]) 0 1e12 resolved_cosmo
    = Ok (dMdt, Mz)
    ∧ length dMdt = 2%nat ∧ length Mz = 2%nat ∧ Mz !! 0%nat = Some 1e12.
Proof.
  destruct (MAH_total sample_collaborators (Sequence [0; 1]) 0 1e12
              resolved_cosmo 0.275 0.725 0.702)
    as (dMdt & Mz & HMAH & _);
    [unfold zmax; lra|reflexivity|reflexivity|reflexivity|].
  destruct (MAH_initial_mass sample_collaborators (Sequence [0; 1]) 0 1e12
              resolved_cosmo dMdt Mz HMAH) as (H1 & H2 & H3).
  exists dMdt, Mz. split; [exact HMAH|]. split; [exact H1|].
  split; [exact H2|]. exact (H3 0%nat eq_refl).
Defined.

Lemma acc_rate_derivative_witness :
  ∃ (rate mass : R → R) dMdz,
    (∀ x, acc_rate sample_collaborators x 0 1e12 resolved_cosmo
          = Ok (rate x, mass x))
    ∧ derivable_pt_lim mass 1 dMdz
    ∧ rate 1 = - (71.6 / 1e12 * (0.702 / 0.7) * (1 + 1)
                  * sqrt (0.275 * (1 + 1) ^ 3 + 0.725)) * dMdz.
Proof.
  destruct sample_acc_rate as (a & b & _ & Hacc).
  destruct (acc_rate_derivative sample_collaborators 0 1e12 resolved_cosmo
              0.702 0.275 0.725 _ _ 1 eq_refl eq_refl eq_refl Hacc
              ltac:(lra)) as (dMdz & Hderiv & Hrate).
  eexists _, _, dMdz. split; [exact Hacc|]. split; [exact Hderiv|exact Hrate].
Defined.

Lemma acc_rate_nonneg_witness :
  ∃ dMdt Mz,
    acc_rate sample_collaborators 1 0 1e12 resolved_cosmo = Ok (dMdt, Mz)
    ∧ 0 <= Mz ∧ 0 <= dMdt.
Proof.
  destruct sample_deriv_growth as (dg & Hdg & Hdg0).
  destruct (acc_rate_total sample_collaborators 1 0 1e12 resolved_cosmo
              0.275 0.725 0.702) as (dMdt & Mz & Hacc);
    [unfold zmax; lra|reflexivity|reflexivity|reflexivity|].
  exists dMdt, Mz. split; [exact Hacc|].
  apply (acc_rate_nonneg sample_collaborators 1 0 1e12 resolved_cosmo
           0.702 dg dMdt Mz);
    [lra|reflexivity|lra|exact Hdg|exact Hdg0|lra|lra|exact Hacc].
Defined.

Lemma MAH_domain_witness :
  ∃ dMdt Mz,
    MAH sample_collaborators (Sequence [0; 1]) 0 1e12 completed_cosmo
    = Ok (dMdt, Mz)
    ∧ length dMdt = 2%nat ∧ length Mz = 2%nat
    ∧ 0 < 200.
Proof.
  destruct (calc_ab_total sample_collaborators 0 1e12 completed_cosmo
              0.275 0.725) as (a & b & Hab);
    [unfold zmax; lra|reflexivity|reflexivity|].
  destruct (proj2 (MAH_domain sample_collaborators (Sequence [0; 1]) 0 1e12
                     completed_cosmo) a b 0.702 Hab eq_refl)
    as (dMdt & Mz & HMAH & Hl1 & Hl2).
  exists dMdt, Mz. split; [exact HMAH|]. split; [exact Hl1|].
  split; [exact Hl2|].
  exact (proj1 (proj1 (MAH_domain sample_collaborators (Sequence [0; 1]) 0
                         1e12 completed_cosmo)
                  ltac:(discriminate) dMdt Mz HMAH)).
Defined.

Lemma growthfactor_domain_witness :
  (∀ g, growthfactor sample_collaborators 0 true completed_cosmo = Ok g →
        0 < 200)
  ∧ ∃ g, growthfactor sample_collaborators 0 true completed_cosmo = Ok g.
Proof.
  destruct (growthfactor_domain sample_collaborators 0 true completed_cosmo
              0.275 0.725 eq_refl eq_refl) as (Hbelow & _ & Hreturns).
  split; [exact Hbelow|]. apply Hreturns; [lra|].
  intros x Hx Hx200.
  assert (0 < (1 + x) ^ 3); [|lra].
  apply pow_lt. destruct Hx; lra.
Defined.

Lemma growthfactor_zero_flat_witness :
  growthfactor sample_collaborators 0 true resolved_cosmo
  = Ok (sqrt (0.275 + 0.725))
  ∧ (growthfactor sample_collaborators 0 true resolved_cosmo = Ok 1
     ↔ 0.275 + 0.725 = 1).
Proof.
  apply (growthfactor_zero_flat sample_collaborators resolved_cosmo
           0.275 0.725); [reflexivity|reflexivity|].
  apply Rgt_not_eq, sample_positive_quadrature; [lra|].
  intros x [Hx _]. by apply growth_integrand_pos.
Defined.

Lemma COM_shape_witness :
  ∃ cs sigs nus zfs,
    COM degenerate_collaborators (Sequence [0; 1]) (Scalar 1e12) resolved_cosmo
    = Ok (cs, sigs, nus, zfs)
    ∧ length cs = 2%nat
    ∧ cs !! 1%nat = Some (uninitialised degenerate_collaborators 1).
Proof.
  destruct (COM_shape degenerate_collaborators (Sequence [0; 1])
              (Scalar 1e12) resolved_cosmo _ _ _ _ degenerate_COM)
    as [(Hlen & _) Htail].
  eexists _, _, _, _. split; [exact degenerate_COM|]. split; [exact Hlen|].
  apply (Htail 1%nat). cbn. lia.
Defined.

Lemma COM_domain_witness :
  0 < 200
  ∧ ∃ A_scaling omega_M_0 omega_lambda_0,
      resolved_cosmo !! "A_scaling" = Some (VNum A_scaling)
      ∧ resolved_cosmo !! "omega_M_0" = Some (VNum omega_M_0)
      ∧ resolved_cosmo !! "omega_lambda_0" = Some (VNum omega_lambda_0).
Proof.
  exact (COM_domain degenerate_collaborators (Sequence [0; 1]) (Scalar 1e12)
           resolved_cosmo _ _ _ _ 0%nat 0 1e12 degenerate_COM eq_refl eq_refl).
Defined.


(** ** The table that [run] returns *)

Section dataset.
Context (ext : collaborators).

(** The invariant rule of a [for] loop, with the exception that stops
    it. *)
Lemma for_each_W_inv_exn {A St} (xs : list A) (body : St → A → W St)
    (Inv : nat → St → world → Prop) (Stop : exn → world → Prop) s w :
  Inv 0%nat s w →
  (∀ k x s w, xs !! k = Some x → Inv k s w →
     match body s x w with
     | (Ok s', w') => Inv (S k) s' w'
     | (Raise e, w') => Stop e w'
     end) →
  match for_each xs s body w with
  | (Ok s', w') => Inv (length xs) s' w'
  | (Raise e, w') => Stop e w'
  end.
Proof.
  revert Inv s w. induction xs as [|x xs IH]; intros Inv s w H0 Hstep; [done|].
  cbn [for_each length]. rewrite W_bind_unfold.
  pose proof (Hstep 0%nat x s w eq_refl H0) as Hx.
  destruct (body s x w) as [[s'|e] w']; [|done].
  apply (IH (λ k, Inv (S k))); [done|].
  intros k y s'' w'' Hy. by apply (Hstep (S k)).
Qed.

Lemma getidx_lt (a : list R) (j : nat) :
  (j < length a)%nat → ∃ x, getidx a j = Ok x.
Proof.
  intros [x Hx]%lookup_lt_is_Some_2. exists x. by apply getidx_Ok.
Qed.

Lemma MAH_lengths (z : pyarg) zi Mi cosmo dMdt Mz :
  MAH ext z zi Mi cosmo = Ok (dMdt, Mz) →
  length dMdt = length (np_array z) ∧ length Mz = length (np_array z).
Proof.
  intros (rows & Hrows%Forall2_length & -> & ->)%MAH_Ok.
  by rewrite !length_fmap.
Qed.

Lemma COM_lengths (z M : pyarg) cosmo cs sigs nus zfs :
  COM ext z M cosmo = Ok (cs, sigs, nus, zfs) →
  length cs = length (np_array z) ∧ length sigs = length (np_array z)
  ∧ length nus = length (np_array z) ∧ length zfs = length (np_array z).
Proof.
  rewrite COM_unfold.
  intros (rows & _ & [= <- <- <- <-])%result_bind_Ok.
  by rewrite !length_inserts, !length_empty_like.
Qed.

Lemma checkinput_sizes zi Mi z zi' Mi' z' lenz lenm lenzout :
  _checkinput zi Mi z = CheckTuple zi' Mi' z' lenz lenm lenzout →
  lenm = length Mi' ∧ lenzout = from_option length 1%nat z'.
Proof.
  unfold _checkinput.
  repeat case_bool_decide; cbn [andb]; destruct z; intros [=]; by subst.
Qed.

Lemma length_targets (z : option (list R)) (zval : R) :
  (length (targets z zval) ≤ from_option length 1 z)%nat.
Proof. destruct z as [zs|]; cbn; [apply length_filter|done]. Qed.

(** The rows of one halo in the table: the loop replaces the first cells
    of the line [i_ind] by the rows [mk 0], [mk 1], ... *)
Lemma row_loop_table (mk : nat → result (list R)) (i_ind : nat)
    (ztemp : list R) (dataset : list (list (list R)))
    (line : list (list R)) (w : world) :
  dataset !! i_ind = Some line →
  (length ztemp ≤ length line)%nat →
  match for_each (enumerate ztemp) dataset
          (λ dataset '(j_ind, j_val),
            row ← lift (mk j_ind); setitem dataset i_ind j_ind row) w with
  | (Ok dataset', w') =>
      ∃ rows, length rows = length ztemp
              ∧ (∀ j row, rows !! j = Some row → mk j = Ok row)
              ∧ dataset' = <[i_ind := rows ++ drop (length rows) line]> dataset
  | (Raise e, w') => ∃ j, (j < length ztemp)%nat ∧ mk j = Raise e
  end.
Proof.
  intros Hline Hlen.
  assert (i_ind < length dataset)%nat as Hi by (by eapply lookup_lt_Some).
  set (Inv := λ (k : nat) (ds : list (list (list R))) (_ : world),
    ∃ rows, length rows = k
            ∧ (∀ j row, rows !! j = Some row → mk j = Ok row)
            ∧ ds = <[i_ind := rows ++ drop k line]> dataset).
  set (Stop := λ (e : exn) (_ : world),
    ∃ j, (j < length ztemp)%nat ∧ mk j = Raise e).
  assert (Inv 0%nat dataset w) as Hinit.
  { exists []. split; [done|]. split; [by intros j row Hj|].
    cbn. by rewrite list_insert_id. }
  assert (∀ k x ds wk, enumerate ztemp !! k = Some x → Inv k ds wk →
            match (let '(j_ind, j_val) := x in
                   row ← lift (mk j_ind); setitem ds i_ind j_ind row) wk with
            | (Ok s', w') => Inv (S k) s' w'
            | (Raise e, w') => Stop e w'
            end) as Hstep.
  { intros k [j x] ds wk [-> Hx]%enumerate_lookup (rows & Hrl & Hrows & ->).
    assert (k < length ztemp)%nat as Hk by (by eapply lookup_lt_Some).
    rewrite W_bind_unfold. unfold lift.
    destruct (mk k) as [row|e] eqn:Hmk; [|by exists k].
    unfold setitem. rewrite list_lookup_insert_eq by done.
    rewrite bool_decide_eq_true_2
      by (rewrite length_app, length_drop; lia).
    rewrite W_bind_unfold. cbn [emit mret W_ret].
    exists (rows ++ [row]).
    split; [rewrite length_app; cbn; lia|]. split.
    - intros j row' [?|[? Hj]]%lookup_app_Some; [by eauto|].
      apply list_lookup_singleton_Some in Hj as [Hj <-].
      by replace j with k by lia.
    - rewrite list_insert_insert_eq. f_equal.
      destruct (lookup_lt_is_Some_2 line k) as [y Hy]; [lia|].
      rewrite insert_app_r_alt by lia.
      rewrite (drop_S _ _ _ Hy), Hrl, Nat.sub_diag. cbn.
      by rewrite <-app_assoc. }
  pose proof (for_each_W_inv_exn (enumerate ztemp)
    (λ dataset '(j_ind, j_val),
       row ← lift (mk j_ind); setitem dataset i_ind j_ind row)
    Inv Stop dataset w Hinit Hstep) as Hloop.
  destruct (@for_each W _ _ _ _ _ _ _ w) as [[ds'|e] w']; [|done].
  destruct Hloop as (rows & Hrl & Hrows & ->).
  rewrite length_enumerate in Hrl |- *. exists rows. by rewrite Hrl.
Qed.

(** What one iteration of the loop of [run] leaves in the table. *)
Lemma run_halo_table cosmo z com mah dataset line i_ind zval Mval w :
  dataset !! i_ind = Some line →
  (length (targets z zval) ≤ length line)%nat →
  let ztemp := targets z zval in
  let kw := default ∅ (heap w !! cosmo) in
  match run_halo ext cosmo z com mah dataset i_ind zval Mval w with
  | (Ok dataset', w') =>
      ∃ rows, length rows = length ztemp
              ∧ (∀ j row, rows !! j = Some row →
                   halo_row ext kw com mah zval Mval ztemp j = Ok row)
              ∧ dataset' = <[i_ind := rows ++ drop (length rows) line]> dataset
  | (Raise e, w') =>
      ztemp ≠ [] ∧ halo_raises ext kw com mah zval Mval ztemp e
  end.
Proof.
  intros Hline Hlen ztemp kw. unfold run_halo. fold ztemp.
  case_bool_decide as Hne.
  2:{ cbn [mret W_ret]. exists []. rewrite Hne. split; [done|].
      split; [by intros j row Hj|]. cbn. by rewrite list_insert_id. }
  rewrite W_bind_unfold. cbn [deref]. fold kw.
  rewrite W_bind_unfold. cbn [emit].
  set (w1 := World (heap w) (trace w ++ [CallMAH ztemp zval Mval])).
  rewrite W_bind_unfold. unfold lift at 1.
  destruct (MAH ext (Sequence ztemp) zval Mval kw) as [[dMdt Mz]|e] eqn:HMAH.
  2:{ split; [done|]. by left. }
  destruct (MAH_lengths _ _ _ _ _ _ HMAH) as [HldM HlMz]. cbn in HldM, HlMz.
  assert (∀ (w2 : world) (mk : nat → result (list R))
            (body : list (list (list R)) → nat * R → W (list (list (list R)))),
    (∀ ds x w0, body ds x w0
       = (let '(j_ind, j_val) := x in
          row ← lift (mk j_ind); setitem ds i_ind j_ind row) w0) →
    (∀ j, (j < length ztemp)%nat → ∃ row, mk j = Ok row) →
    (∀ j row, mk j = Ok row →
       halo_row ext kw com mah zval Mval ztemp j = Ok row) →
    match for_each (enumerate ztemp) dataset body w2 with
    | (Ok dataset', w') =>
        ∃ rows, length rows = length ztemp
                ∧ (∀ j row, rows !! j = Some row →
                     halo_row ext kw com mah zval Mval ztemp j = Ok row)
                ∧ dataset'
                  = <[i_ind := rows ++ drop (length rows) line]> dataset
    | (Raise e, w') =>
        ztemp ≠ [] ∧ halo_raises ext kw com mah zval Mval ztemp e
    end) as Hrows.
  { intros w2 mk body Hbody Htot Hrow.
    rewrite (for_each_W_ext _ body
               (λ ds '(j_ind, j_val),
                  row ← lift (mk j_ind); setitem ds i_ind j_ind row))
      by (intros ds [j x] w0; apply Hbody).
    pose proof (row_loop_table mk i_ind ztemp dataset line w2 Hline Hlen)
      as Hloop.
    destruct (@for_each W _ _ _ _ _ _ _ w2) as [[ds'|e] w'].
    - destruct Hloop as (rows & Hrl & Hmk & ->). exists rows.
      split; [done|]. split; [|done]. intros j row Hj. by apply Hrow, Hmk.
    - destruct Hloop as (j & Hj & Hmk).
      destruct (Htot j Hj) as [row Hrow']. congruence. }
  destruct mah, com; cbn [andb].
  - (* mah and com *)
    rewrite W_bind_unfold. cbn [deref heap w1]. fold kw.
    rewrite W_bind_unfold. cbn [emit heap trace w1].
    rewrite W_bind_unfold. unfold lift at 1.
    destruct (COM ext (Sequence ztemp) (Sequence Mz) kw)
      as [[[[c sig] nu] zf]|e] eqn:HCOM;
      [|split; [done|]; right; exists dMdt, Mz; auto].
    destruct (COM_lengths _ _ _ _ _ _ _ HCOM) as (Hlc & Hls & Hln & Hlf).
    cbn in Hlc, Hls, Hln, Hlf.
    apply (Hrows _
             (λ j, zj ← getidx ztemp j; dMdtj ← getidx dMdt j;
                   Mzj ← getidx Mz j; cj ← getidx c j; sigj ← getidx sig j;
                   nuj ← getidx nu j; zfj ← getidx zf j;
                   Ok [zval; Mval; zj; dMdtj; Mzj; cj; sigj; nuj; zfj])).
    + intros ds [j x] w0. rewrite !W_bind_unfold. unfold lift.
      repeat (match goal with
              | |- context [getidx ?a ?i] => destruct (getidx a i)
              end; cbn; try done).
    + intros j Hj.
      destruct (getidx_lt ztemp j) as [? ->]; [lia|].
      destruct (getidx_lt dMdt j) as [? ->]; [lia|].
      destruct (getidx_lt Mz j) as [? ->]; [lia|].
      destruct (getidx_lt c j) as [? ->]; [lia|].
      destruct (getidx_lt sig j) as [? ->]; [lia|].
      destruct (getidx_lt nu j) as [? ->]; [lia|].
      destruct (getidx_lt zf j) as [? ->]; [lia|].
      by eexists.
    + intros j row Hmk. unfold halo_row. rewrite HMAH.
      cbn [mbind result_bind andb]. by rewrite HCOM.
  - (* mah only *)
    apply (Hrows w1
             (λ j, zj ← getidx ztemp j; dMdtj ← getidx dMdt j;
                   Mzj ← getidx Mz j;
                   Ok [zval; Mval; zj; dMdtj; Mzj])).
    + intros ds [j x] w0. rewrite !W_bind_unfold. unfold lift.
      repeat (match goal with
              | |- context [getidx ?a ?i] => destruct (getidx a i)
              end; cbn; try done).
    + intros j Hj.
      destruct (getidx_lt ztemp j) as [? ->]; [lia|].
      destruct (getidx_lt dMdt j) as [? ->]; [lia|].
      destruct (getidx_lt Mz j) as [? ->]; [lia|].
      by eexists.
    + intros j row Hmk. unfold halo_row. by rewrite HMAH.
  - (* com only *)
    rewrite W_bind_unfold. cbn [deref heap w1]. fold kw.
    rewrite W_bind_unfold. cbn [emit heap trace w1].
    rewrite W_bind_unfold. unfold lift at 1.
    destruct (COM ext (Sequence ztemp) (Sequence Mz) kw)
      as [[[[c sig] nu] zf]|e] eqn:HCOM;
      [|split; [done|]; right; exists dMdt, Mz; auto].
    destruct (COM_lengths _ _ _ _ _ _ _ HCOM) as (Hlc & Hls & Hln & Hlf).
    cbn in Hlc, Hls, Hln, Hlf.
    apply (Hrows _
             (λ j, zj ← getidx ztemp j; cj ← getidx c j; sigj ← getidx sig j;
                   nuj ← getidx nu j; zfj ← getidx zf j;
                   Ok [zval; Mval; zj; cj; sigj; nuj; zfj])).
    + intros ds [j x] w0. rewrite !W_bind_unfold. unfold lift.
      repeat (match goal with
              | |- context [getidx ?a ?i] => destruct (getidx a i)
              end; cbn; try done).
    + intros j Hj.
      destruct (getidx_lt ztemp j) as [? ->]; [lia|].
      destruct (getidx_lt c j) as [? ->]; [lia|].
      destruct (getidx_lt sig j) as [? ->]; [lia|].
      destruct (getidx_lt nu j) as [? ->]; [lia|].
      destruct (getidx_lt zf j) as [? ->]; [lia|].
      by eexists.
    + intros j row Hmk. unfold halo_row. rewrite HMAH.
      cbn [mbind result_bind andb]. by rewrite HCOM.
  - (* neither: the last branch is taken *)
    rewrite W_bind_unfold. cbn [deref heap w1]. fold kw.
    rewrite W_bind_unfold. cbn [emit heap trace w1].
    rewrite W_bind_unfold. unfold lift at 1.
    destruct (COM ext (Sequence ztemp) (Sequence Mz) kw)
      as [[[[c sig] nu] zf]|e] eqn:HCOM;
      [|split; [done|]; right; exists dMdt, Mz; auto].
    destruct (COM_lengths _ _ _ _ _ _ _ HCOM) as (Hlc & Hls & Hln & Hlf).
    cbn in Hlc, Hls, Hln, Hlf.
    apply (Hrows _
             (λ j, zj ← getidx ztemp j; cj ← getidx c j; sigj ← getidx sig j;
                   nuj ← getidx nu j; zfj ← getidx zf j;
                   Ok [zval; Mval; zj; cj; sigj; nuj; zfj])).
    + intros ds [j x] w0. rewrite !W_bind_unfold. unfold lift.
      repeat (match goal with
              | |- context [getidx ?a ?i] => destruct (getidx a i)
              end; cbn; try done).
    + intros j Hj.
      destruct (getidx_lt ztemp j) as [? ->]; [lia|].
      destruct (getidx_lt c j) as [? ->]; [lia|].
      destruct (getidx_lt sig j) as [? ->]; [lia|].
      destruct (getidx_lt nu j) as [? ->]; [lia|].
      destruct (getidx_lt zf j) as [? ->]; [lia|].
      by eexists.
    + intros j row Hmk. unfold halo_row. rewrite HMAH.
      cbn [mbind result_bind andb]. by rewrite HCOM.
Qed.

End dataset.


Section run_table.
Context (ext : collaborators).

(** The loop of [run] over the haloes fills the table line by line. *)
Lemma run_loop_table cosmo z com mah (samples : list (R * R))
    (lenm lenzout ncols : nat) w1 :
  (length samples ≤ lenm)%nat →
  lenzout = from_option length 1%nat z →
  let kw := default ∅ (heap w1 !! cosmo) in
  match for_each (enumerate samples) (zeros lenm lenzout ncols)
          (λ dataset '(i_ind, (zval, Mval)),
            run_halo ext cosmo z com mah dataset i_ind zval Mval) w1 with
  | (Ok dataset, w') =>
      length dataset = lenm
      ∧ Forall (λ line, length line = lenzout) dataset
      ∧ ∀ i_ind j_ind row, cell dataset i_ind j_ind = Some row →
          match samples !! i_ind with
          | Some (zval, Mval) =>
              if decide (j_ind < length (targets z zval))%nat then
                halo_row ext kw com mah zval Mval (targets z zval) j_ind
                = Ok row
              else row = replicate ncols 0
          | None => row = replicate ncols 0
          end
  | (Raise e, w') =>
      ∃ zval Mval,
        (zval, Mval) ∈ samples ∧ targets z zval ≠ []
        ∧ halo_raises ext kw com mah zval Mval (targets z zval) e
  end.
Proof.
  intros Hlenm Hlenz kw.
  set (filled := λ (k i j : nat) (row : list R),
    match samples !! i with
    | Some (zval, Mval) =>
        if decide (i < k ∧ j < length (targets z zval))%nat then
          halo_row ext kw com mah zval Mval (targets z zval) j = Ok row
        else row = replicate ncols 0
    | None => row = replicate ncols 0
    end).
  set (Inv := λ (k : nat) (ds : list (list (list R))) (w' : world),
    heap w' = heap w1 ∧ length ds = lenm
    ∧ Forall (λ line, length line = lenzout) ds
    ∧ ∀ i j row, cell ds i j = Some row → filled k i j row).
  set (Stop := λ (e : exn) (_ : world),
    ∃ zval Mval,
      (zval, Mval) ∈ samples ∧ targets z zval ≠ []
      ∧ halo_raises ext kw com mah zval Mval (targets z zval) e).
  assert (Inv 0%nat (zeros lenm lenzout ncols) w1) as Hinit.
  { split; [done|]. split; [apply length_replicate|]. split.
    - apply Forall_replicate, length_replicate.
    - intros i j row Hcell. unfold cell, zeros in Hcell.
      destruct (replicate lenm _ !! i) as [line|] eqn:Hl; [|done].
      cbn in Hcell.
      apply lookup_replicate in Hl as [-> _].
      apply lookup_replicate in Hcell as [-> _].
      unfold filled. destruct (samples !! i) as [[zval Mval]|]; [|done].
      by rewrite decide_False by lia. }
  assert (∀ k x ds wk, enumerate samples !! k = Some x → Inv k ds wk →
            match (let '(i_ind, (zval, Mval)) := x in
                   run_halo ext cosmo z com mah ds i_ind zval Mval) wk with
            | (Ok s', w') => Inv (S k) s' w'
            | (Raise e, w') => Stop e w'
            end) as Hstep.
  { intros k [i [zval Mval]] ds wk [-> Hk]%enumerate_lookup
      (Hheap & Hlen & Hall & Hcells).
    assert (k < length samples)%nat as Hklt by (by eapply lookup_lt_Some).
    destruct (lookup_lt_is_Some_2 ds k) as [line Hline]; [lia|].
    assert (length line = lenzout) as Hll
      by (by eapply (Forall_lookup_1 _ _ _ _ Hall)).
    assert (length (targets z zval) ≤ length line)%nat as Hfit.
    { rewrite Hll, Hlenz. apply length_targets. }
    pose proof (run_halo_table ext cosmo z com mah ds line k zval Mval wk
                  Hline Hfit) as Htab.
    cbn zeta in Htab. rewrite Hheap in Htab. fold kw in Htab.
    pose proof (run_halo_spec ext cosmo z com mah ds k zval Mval wk) as Hspec.
    cbn zeta in Hspec.
    destruct (run_halo ext cosmo z com mah ds k zval Mval wk)
      as [[ds'|e] wk'].
    2:{ destruct Htab as [Hne Hraise]. exists zval, Mval.
        split; [by eapply list_elem_of_lookup_2|done]. }
    destruct Hspec as [Hheap' _].
    destruct Htab as (rows & Hrl & Hrows & ->).
    split; [congruence|]. split; [by rewrite length_insert|]. split.
    { apply Forall_insert; [done|]. rewrite length_app, length_drop. lia. }
    intros i j row Hcell. unfold cell in Hcell.
    destruct (decide (i = k)) as [->|Hik].
    - rewrite list_lookup_insert_eq in Hcell by lia. cbn in Hcell.
      unfold filled. rewrite Hk.
      destruct (decide (j < length (targets z zval))%nat) as [Hj|Hj].
      + rewrite decide_True by lia. apply Hrows.
        by rewrite lookup_app_l in Hcell by lia.
      + rewrite decide_False by lia.
        rewrite lookup_app_r, lookup_drop in Hcell by lia.
        replace (length rows + (j - length rows))%nat with j in Hcell by lia.
        specialize (Hcells k j row). unfold cell in Hcells.
        rewrite Hline in Hcells. specialize (Hcells Hcell).
        unfold filled in Hcells. rewrite Hk in Hcells.
        by rewrite decide_False in Hcells by lia.
    - rewrite list_lookup_insert_ne in Hcell by done.
      specialize (Hcells i j row Hcell). unfold filled in *.
      destruct (samples !! i) as [[zv Mv]|]; [|done].
      destruct (decide (i < k ∧ j < length (targets z zv))%nat) as [Hd|Hd].
      + by rewrite decide_True by lia.
      + by rewrite decide_False by lia. }
  pose proof (for_each_W_inv_exn (enumerate samples)
    (λ dataset '(i_ind, (zval, Mval)),
       run_halo ext cosmo z com mah dataset i_ind zval Mval)
    Inv Stop (zeros lenm lenzout ncols) w1 Hinit Hstep) as Hloop.
  destruct (@for_each W _ _ _ _ _ _ _ w1) as [[ds'|e] w']; [|done].
  destruct Hloop as (_ & Hlen & Hall & Hcells).
  split; [done|]. split; [done|].
  intros i j row Hcell. specialize (Hcells i j row Hcell).
  unfold filled in Hcells. rewrite length_enumerate in Hcells.
  destruct (samples !! i) as [[zv Mv]|] eqn:Hi; [|done].
  assert (i < length samples)%nat by (by eapply lookup_lt_Some).
  destruct (decide (j < length (targets z zv))%nat) as [Hd|Hd].
  - by rewrite decide_True in Hcells by lia.
  - by rewrite decide_False in Hcells by lia.
Qed.

(** What a run that passes the checks and resolves its cosmology returns
    or raises. *)
Lemma run_outcome cosmology zi Mi z com mah retcosmo w
    zi' Mi' z' lenz lenm lenzout cosmo w1 :
  com || mah = true →
  _checkinput zi Mi z = CheckTuple zi' Mi' z' lenz lenm lenzout →
  getcosmo ext cosmology (World (heap w) (trace w ++ [CallGetcosmo]))
  = (Ok cosmo, w1) →
  let kw := default ∅ (heap w1 !! cosmo) in
  match run ext cosmology zi Mi z com mah retcosmo w with
  | (Ok v, w') =>
      ∃ dataset,
        v = (if retcosmo then RunDatasetCosmo dataset cosmo
             else RunDataset dataset)
        ∧ length dataset = lenm
        ∧ Forall (λ line, length line = lenzout) dataset
        ∧ ∀ i_ind j_ind row, cell dataset i_ind j_ind = Some row →
            match _izip zi' Mi' !! i_ind with
            | Some (zval, Mval) =>
                if decide (j_ind < length (targets z' zval))%nat then
                  halo_row ext kw com mah zval Mval (targets z' zval) j_ind
                  = Ok row
                else
                  row = replicate (if mah && com then 9 else if mah then 5
                                   else 7)%nat 0
            | None =>
                row = replicate (if mah && com then 9 else if mah then 5
                                 else 7)%nat 0
            end
  | (Raise e, w') =>
      ∃ zval Mval,
        (zval, Mval) ∈ _izip zi' Mi' ∧ targets z' zval ≠ []
        ∧ halo_raises ext kw com mah zval Mval (targets z' zval) e
  end.
Proof.
  intros Hsel Hcheck Hget kw. unfold run.
  assert (negb com && negb mah = false) as -> by (by destruct com, mah).
  rewrite Hcheck. rewrite W_bind_unfold. cbn [emit].
  rewrite W_bind_unfold, Hget. rewrite W_bind_unfold.
  destruct (checkinput_sizes _ _ _ _ _ _ _ _ _ Hcheck) as [Hlm Hlz].
  assert (length (_izip zi' Mi') ≤ lenm)%nat as Hlen.
  { unfold _izip. rewrite length_zip. lia. }
  pose proof (run_loop_table cosmo z' com mah (_izip zi' Mi') lenm lenzout
                (if mah && com then 9 else if mah then 5 else 7)%nat
                w1 Hlen Hlz) as Hloop.
  cbn zeta in Hloop. fold kw in Hloop.
  destruct (@for_each W _ _ _ _ _ _ _ w1) as [[ds|e] w']; [|done].
  destruct retcosmo; cbn [mret W_ret]; by exists ds.
Qed.

(** C8. For every halo [(zi, Mi)], [run] computes and writes rows only for
    the requested output redshifts that are not below [zi], one row per
    such redshift; the redshifts below [zi] are skipped, and for a halo
    whose requested redshifts are all below [zi] nothing is computed or
    written and nothing raises.  The table that [run] returns has
    nevertheless [lenzout] rows for every halo: the rows that no output
    redshift of the halo fills, all [lenzout] of them for such a halo,
    hold the zeros of [np.zeros]. *)
Theorem run_rows_not_below_zi cosmology zi Mi z com mah retcosmo w
    zi' Mi' z' lenz lenm lenzout :
  com || mah = true →
  _checkinput zi Mi z = CheckTuple zi' Mi' z' lenz lenm lenzout →
  match run ext cosmology zi Mi z com mah retcosmo w with
  | (r, w') =>
      (∃ evs,
         trace w' = trace w ++ evs
         ∧ (∀ i j row, (i, j, row) ∈ written evs →
              ∃ zval Mval zr,
                _izip zi' Mi' !! i = Some (zval, Mval)
                ∧ targets z' zval !! j = Some zr
                ∧ row !! 2%nat = Some zr
                ∧ zr >= zval ∧ ∀ zs, z' = Some zs → zr ∈ zs)
         ∧ (∀ v, r = Ok v →
              (written evs).*1 = row_indices z' (_izip zi' Mi'))
         ∧ (∀ i zval Mval, _izip zi' Mi' !! i = Some (zval, Mval) →
              targets z' zval = [] → ∀ j row, (i, j, row) ∉ written evs))
      ∧ ∀ v, r = Ok v →
          length (run_table v) = lenm
          ∧ ∀ i zval Mval, _izip zi' Mi' !! i = Some (zval, Mval) →
              ∃ line,
                run_table v !! i = Some line
                ∧ length line = lenzout
                ∧ (∀ j row, line !! j = Some row →
                     (length (targets z' zval) ≤ j)%nat →
                     row = replicate (if mah && com then 9 else if mah then 5
                                      else 7)%nat 0)
                ∧ (targets z' zval = [] →
                     line = replicate lenzout
                              (replicate (if mah && com then 9
                                          else if mah then 5 else 7)%nat 0))
  end
  ∧ ∀ zs zval, z' = Some zs → (∀ x, x ∈ zs → x < zval) →
      targets z' zval = []
      ∧ ∀ cosmo dataset i_ind Mval wk,
          run_halo ext cosmo z' com mah dataset i_ind zval Mval wk
          = (Ok dataset, wk).
Proof.
  intros Hsel Hcheck. split.
  2:{ intros zs zval -> Hlt. apply targets_nil in Hlt. split; [done|].
      intros cosmo dataset i_ind Mval wk. unfold run_halo. rewrite Hlt.
      by rewrite bool_decide_eq_false_2 by (by intros ?). }
  pose proof (run_spec ext cosmology zi Mi z com mah retcosmo w
                _ _ _ _ _ _ Hsel Hcheck) as Hrun.
  pose proof (run_outcome cosmology zi Mi z com mah retcosmo w
                zi' Mi' z' lenz lenm lenzout) as Hout.
  destruct (getcosmo ext cosmology _) as [[cosmo|e] w1].
  2:{ destruct Hrun as [-> Htrace]. split; [|by intros v [=]].
      exists [CallGetcosmo]. split; [done|]. cbn.
      split; [by intros ??? ?%elem_of_nil|]. split; [done|].
      by intros ??????? ?%elem_of_nil. }
  specialize (Hout cosmo w1 Hsel Hcheck eq_refl).
  cbn zeta in Hrun, Hout.
  destruct (run ext cosmology zi Mi z com mah retcosmo w) as [r w'].
  destruct Hrun as (_ & _ & _ & evs & Htrace & _ & _ & Hwr & HOk).
  split.
  - exists (CallGetcosmo :: evs). split; [done|].
    change (written (CallGetcosmo :: evs)) with (written evs).
    assert (∀ i j row, (i, j, row) ∈ written evs →
              ∃ zval Mval zr,
                _izip zi' Mi' !! i = Some (zval, Mval)
                ∧ targets z' zval !! j = Some zr
                ∧ row !! 2%nat = Some zr
                ∧ zr >= zval ∧ ∀ zs, z' = Some zs → zr ∈ zs) as Hrows.
    { intros i j row Hin.
      destruct (Hwr i j row Hin) as (zval & Mval & zr & Hi & _ & _ & Hj & Hz).
      destruct (targets_lookup _ _ _ _ Hj) as [Hge Hreq].
      by exists zval, Mval, zr. }
    split; [done|]. split; [intros v Hv; by apply (HOk v)|].
    intros i zval Mval Hi Hnil j row Hin.
    destruct (Hrows i j row Hin) as (zval' & Mval' & zr & Hi' & Hj & _).
    rewrite Hi in Hi'. injection Hi' as <- <-. by rewrite Hnil in Hj.
  - intros v ->. destruct Hout as (dataset & -> & Hlen & Hall & Hcells).
    assert (run_table (if retcosmo then RunDatasetCosmo dataset cosmo
                       else RunDataset dataset) = dataset) as ->
      by (by destruct retcosmo).
    split; [done|]. intros i zval Mval Hi.
    destruct (checkinput_sizes _ _ _ _ _ _ _ _ _ Hcheck) as [Hlm Hlz].
    assert (i < lenm)%nat as Hilt.
    { apply lookup_lt_Some in Hi. unfold _izip in Hi.
      rewrite length_zip in Hi. lia. }
    destruct (lookup_lt_is_Some_2 dataset i) as [line Hline]; [lia|].
    pose proof (Forall_lookup_1 _ _ _ _ Hall Hline) as Hll. cbv beta in Hll.
    assert (∀ j row, line !! j = Some row →
              (length (targets z' zval) ≤ j)%nat →
              row = replicate (if mah && com then 9 else if mah then 5
                               else 7)%nat 0) as Hzero.
    { intros j row Hj Hge. specialize (Hcells i j row). unfold cell in Hcells.
      rewrite Hline in Hcells. specialize (Hcells Hj). rewrite Hi in Hcells.
      by rewrite decide_False in Hcells by lia. }
    exists line. repeat (split; [done|]).
    intros Hnil. symmetry. apply replicate_as_Forall. split; [done|].
    apply Forall_lookup. intros j row Hj. symmetry. apply (Hzero j row Hj).
    rewrite Hnil. cbn. lia.
Qed.

(** X22. The table that a successful [run] returns has [lenm] lines of
    [lenzout] cells.  For the halo of index [i_ind] and its output redshift
    of index [j_ind], the cell [(i_ind, j_ind)] holds the tuple
    [(zi, Mi, z, ...)] computed from the results of [MAH] and [COM] for
    that halo at that index; every other cell holds the zeros that
    [np.zeros] put there.  With [retcosmo] the resolved cosmology comes
    with the table. *)
Theorem run_dataset cosmology zi Mi z com mah retcosmo w
    zi' Mi' z' lenz lenm lenzout cosmo w1 v w' :
  com || mah = true →
  _checkinput zi Mi z = CheckTuple zi' Mi' z' lenz lenm lenzout →
  getcosmo ext cosmology (World (heap w) (trace w ++ [CallGetcosmo]))
  = (Ok cosmo, w1) →
  run ext cosmology zi Mi z com mah retcosmo w = (Ok v, w') →
  ∃ dataset,
    v = (if retcosmo then RunDatasetCosmo dataset cosmo
         else RunDataset dataset)
    ∧ length dataset = lenm
    ∧ Forall (λ line, length line = lenzout) dataset
    ∧ ∀ i_ind j_ind row, cell dataset i_ind j_ind = Some row →
        match _izip zi' Mi' !! i_ind with
        | Some (zval, Mval) =>
            if decide (j_ind < length (targets z' zval))%nat then
              halo_row ext (default ∅ (heap w1 !! cosmo)) com mah zval Mval
                (targets z' zval) j_ind
              = Ok row
            else
              row = replicate (if mah && com then 9 else if mah then 5
                               else 7)%nat 0
        | None =>
            row = replicate (if mah && com then 9 else if mah then 5
                             else 7)%nat 0
        end.
Proof.
  intros Hsel Hcheck Hget Hrun.
  pose proof (run_outcome cosmology zi Mi z com mah retcosmo w
                zi' Mi' z' lenz lenm lenzout cosmo w1 Hsel Hcheck Hget)
    as Hout.
  cbn zeta in Hout. by rewrite Hrun in Hout.
Qed.


End run_table.

(** *** Sample runs *)


(** A run that returns accretion rates only, for one halo at redshift
    zero. *)
Lemma sample_run_mah :
  ∃ v w',
    run sample_collaborators (CosmoName "WMAP5") (Scalar 0) (Scalar 1e12)
      None false true false (World ∅ [])
    = (Ok v, w').
Proof.
  pose proof (run_outcome sample_collaborators (CosmoName "WMAP5") (Scalar 0)
                (Scalar 1e12) None false true false (World ∅ [])
                [0] [1e12] None 1%nat 1%nat 1%nat 1%positive
                (World {[1%positive := completed_cosmo]} [CallGetcosmo])
                eq_refl eq_refl (sample_getcosmo_name [CallGetcosmo]))
    as Hout.
  cbn zeta in Hout.
  destruct (run _ _ _ _ _ _ _ _ _) as [[v|e] w']; [by exists v, w'|].
  exfalso. destruct Hout as (zval & Mval & Hin & _ & Hraise).
  cbn [heap] in Hraise. rewrite lookup_singleton_eq in Hraise.
  cbn [default from_option id Datatypes.id] in Hraise.
  apply list_elem_of_singleton in Hin as [= -> ->].
  destruct (MAH_total sample_collaborators (Sequence (targets None 0)) 0 1e12
              completed_cosmo 0.275 0.725 0.702)
    as (dMdt & Mz & HMAH & _);
    [unfold zmax; lra|reflexivity|reflexivity|reflexivity|].
  destruct Hraise as [Hraise|(? & ? & _ & [?|?] & _)]; [congruence|done..].
Qed.


(** The run for one halo at redshift 1 with the requested redshifts 0 and
    0.5. *)
Lemma sample_run_below_zi :
  run sample_collaborators (CosmoName "WMAP5") (Scalar 1) (Scalar 1e12)
    (Some (Sequence [0; 0.5])) true true false (World ∅ [])
  = (Ok (RunDataset [[replicate 9 0; replicate 9 0]]),
     World {[1%positive := completed_cosmo]} [CallGetcosmo]).
Proof.
  unfold run. cbn [negb andb].
  assert (_checkinput (Scalar 1) (Scalar 1e12) (Some (Sequence [0; 0.5]))
          = CheckTuple [1] [1e12] (Some [0; 0.5]) 1 1 2) as -> by reflexivity.
  rewrite W_bind_unfold. cbn [emit heap trace app].
  rewrite W_bind_unfold, sample_getcosmo_name.
  rewrite W_bind_unfold.
  change (enumerate (_izip [1] [1e12])) with [(0%nat, (1, 1e12))].
  cbn [for_each]. rewrite W_bind_unfold.
  assert (targets (Some [0; 0.5]) 1 = []) as Hnil.
  { apply targets_nil. intros x Hx.
    apply elem_of_cons in Hx as [->|Hx]; [lra|].
    apply list_elem_of_singleton in Hx as ->. lra. }
  unfold run_halo. rewrite Hnil.
  rewrite bool_decide_eq_false_2 by (by intros ?).
  reflexivity.
Qed.

(** C8, as stated, fails on the table that [run] returns.  For the halo at
    redshift 1 and the requested redshifts 0 and 0.5, both below 1, the run
    raises nothing and returns a table that holds two rows for the halo,
    both filled with zeros: the halo does not produce zero rows. *)
Lemma run_returns_zero_rows :
  ∃ v w' line,
    run sample_collaborators (CosmoName "WMAP5") (Scalar 1) (Scalar 1e12)
      (Some (Sequence [0; 0.5])) true true false (World ∅ [])
    = (Ok v, w')
    ∧ targets (Some [0; 0.5]) 1 = []
    ∧ run_table v !! 0%nat = Some line
    ∧ length line = 2%nat
    ∧ line = [replicate 9 0; replicate 9 0].
Proof.
  eexists _, _, _. split; [apply sample_run_below_zi|].
  split; [|split; [reflexivity|split; reflexivity]].
  apply targets_nil. intros x Hx.
  apply elem_of_cons in Hx as [->|Hx]; [lra|].
  apply list_elem_of_singleton in Hx as ->. lra.
Qed.

Lemma run_rows_not_below_zi_witness :
  true || true = true
  ∧ _checkinput (Scalar 1) (Scalar 1e12) (Some (Sequence [0; 0.5]))
    = CheckTuple [1] [1e12] (Some [0; 0.5]) 1 1 2
  ∧ ∃ line,
      run_table (RunDataset [[replicate 9 0; replicate 9 0]]) !! 0%nat
      = Some line
      ∧ length line = 2%nat
      ∧ (targets (Some [0; 0.5]) 1 = [] →
         line = replicate 2 (replicate 9 0)).
Proof.
  split; [reflexivity|]. split; [reflexivity|].
  pose proof (proj1 (run_rows_not_below_zi sample_collaborators
                       (CosmoName "WMAP5") (Scalar 1) (Scalar 1e12)
                       (Some (Sequence [0; 0.5])) true true false (World ∅ [])
                       [1] [1e12] (Some [0; 0.5]) 1%nat 1%nat 2%nat
                       eq_refl eq_refl)) as Hrun.
  rewrite sample_run_below_zi in Hrun.
  destruct Hrun as [_ Htable].
  destruct (Htable _ eq_refl) as [_ Hlines].
  destruct (Hlines 0%nat 1 1e12 eq_refl) as (line & Hline & Hlen & _ & Hnil).
  exists line. split; [exact Hline|]. split; [exact Hlen|exact Hnil].
Defined.

Lemma run_dataset_witness :
  ∃ v w' dataset,
    run sample_collaborators (CosmoName "WMAP5") (Scalar 0) (Scalar 1e12)
      None false true false (World ∅ [])
    = (Ok v, w')
    ∧ v = RunDataset dataset
    ∧ length dataset = 1%nat
    ∧ Forall (λ line, length line = 1%nat) dataset
    ∧ ∀ i_ind j_ind row, cell dataset i_ind j_ind = Some row →
        match _izip [0] [1e12] !! i_ind with
        | Some (zval, Mval) =>
            if decide (j_ind < length (targets None zval))%nat then
              halo_row sample_collaborators
                (default ∅ (({[1%positive := completed_cosmo]}
                               : gmap loc dict) !! 1%positive))
                false true zval Mval (targets None zval) j_ind
              = Ok row
            else row = replicate 5%nat 0
        | None => row = replicate 5%nat 0
        end.
Proof.
  destruct sample_run_mah as (v & w' & Hrun).
  destruct (run_dataset sample_collaborators (CosmoName "WMAP5") (Scalar 0)
              (Scalar 1e12) None false true false (World ∅ [])
              [0] [1e12] None 1%nat 1%nat 1%nat 1%positive
              (World {[1%positive := completed_cosmo]} [CallGetcosmo]) v w'
              eq_refl eq_refl (sample_getcosmo_name [CallGetcosmo]) Hrun)
    as (dataset & Hv & Hlen & Hall & Hcells).
  exists v, w', dataset.
  split; [exact Hrun|]. split; [exact Hv|]. split; [exact Hlen|].
  split; [exact Hall|exact Hcells].
Defined.



(** ** Named cosmologies *)

Section named_cosmology.
Context (ext : collaborators).

(** The first half of [getcosmo] for a name: a new dict with the
    parameters of the named cosmology and its [A_scaling]. *)
Lemma resolve_name_spec (name : string) (w : world) (a : loc) (w1 : world) :
  resolve_cosmology ext (CosmoName name) w = (Ok a, w1) →
  ∃ d0 A_scaling,
    defaultcosmologies ext !! lower name = Some d0
    ∧ Ascaling_table !! lower name = Some A_scaling
    ∧ a = fresh (dom (heap w))
    ∧ w1 = World (<[a := <["A_scaling" := VNum A_scaling]> d0]> (heap w))
             (trace w).
Proof.
  unfold resolve_cosmology.
  destruct (defaultcosmologies ext !! lower name) as [d0|]; [|done].
  rewrite W_bind_unfold. cbn [alloc].
  set (ref := fresh (dom (heap w))).
  rewrite W_bind_unfold. unfold lift at 1. cbn [getAscaling].
  destruct (Ascaling_table !! lower name) as [A|]; [|done].
  rewrite W_bind_unfold. unfold update at 1.
  cbn [modify heap trace mret W_ret].
  rewrite lookup_insert_eq, insert_insert_eq.
  cbn [default from_option id Datatypes.id].
  intros [= <- <-]. by exists d0, A.
Qed.

(** X24. For a recognised name [getcosmo] returns a dict that did not
    exist before and leaves every existing dict as it was.  Provided
    [set_omega_k_0] only adds entries, the new dict holds the [A_scaling]
    of the table for that name and every parameter of the named cosmology
    (other than [A_scaling] and [baryonic_effects]) with its value. *)
Theorem getcosmo_named (name : string) (w : world) (cosmo : loc) (w' : world) :
  set_omega_k_0_only_adds ext →
  getcosmo ext (CosmoName name) w = (Ok cosmo, w') →
  heap w !! cosmo = None
  ∧ (∀ l d, heap w !! l = Some d → heap w' !! l = Some d)
  ∧ ∃ d0 A_scaling d,
      defaultcosmologies ext !! lower name = Some d0
      ∧ Ascaling_table !! lower name = Some A_scaling
      ∧ heap w' !! cosmo = Some d
      ∧ d !! "A_scaling" = Some (VNum A_scaling)
      ∧ ∀ key v, key ≠ "A_scaling" → key ≠ "baryonic_effects" →
          d0 !! key = Some v → d !! key = Some v.
Proof.
  intros Hadds Hget. rewrite getcosmo_split, W_bind_unfold in Hget.
  destruct (resolve_cosmology ext (CosmoName name) w) as [[a|e] w1] eqn:Hres;
    [|done].
  apply resolve_name_spec in Hres as (d0 & A & Hd0 & HA & Ha & ->).
  assert (heap w !! a = None) as Hfresh.
  { rewrite Ha. apply not_elem_of_dom, is_fresh. }
  clear Ha.
  pose proof (finish_cosmology_spec ext a
                (World (<[a := <["A_scaling" := VNum A]> d0]> (heap w))
                   (trace w))) as Hfin.
  cbn zeta in Hfin. rewrite Hget in Hfin. cbn [heap] in Hfin.
  rewrite lookup_insert_eq in Hfin.
  cbn [default from_option id Datatypes.id] in Hfin.
  destruct Hfin as (-> & _ & ob & _ & Hheap).
  rewrite insert_insert_eq in Hheap.
  split; [done|]. split.
  { intros l d Hl. rewrite Hheap, lookup_insert_ne; [done|].
    intros <-. congruence. }
  eexists d0, A, _. split; [done|]. split; [done|].
  rewrite Hheap, lookup_insert_eq. split; [done|].
  assert (<["A_scaling" := VNum A]> d0
          ⊆ set_omega_k_0 ext (<["A_scaling" := VNum A]> d0)) as Hsub
    by apply Hadds.
  split.
  - rewrite lookup_insert_ne by done.
    eapply lookup_weaken; [|done]. apply lookup_insert_eq.
  - intros key v HkA Hkb Hv. rewrite lookup_insert_ne by done.
    eapply lookup_weaken; [|done]. by rewrite lookup_insert_ne.
Qed.

End named_cosmology.

Lemma getcosmo_named_witness :
  set_omega_k_0_only_adds sample_collaborators
  ∧ getcosmo sample_collaborators (CosmoName "WMAP5") (World ∅ [])
    = (Ok 1%positive, World {[1%positive := completed_cosmo]} [])
  ∧ (∅ : gmap loc dict) !! 1%positive = None
  ∧ ∃ d0 A_scaling d,
      defaultcosmologies sample_collaborators !! lower "WMAP5" = Some d0
      ∧ Ascaling_table !! lower "WMAP5" = Some A_scaling
      ∧ ({[1%positive := completed_cosmo]} : gmap loc dict) !! 1%positive
        = Some d
      ∧ d !! "A_scaling" = Some (VNum A_scaling)
      ∧ ∀ key v, key ≠ "A_scaling" → key ≠ "baryonic_effects" →
          d0 !! key = Some v → d !! key = Some v.
Proof.
  split; [exact sample_set_omega_k_0_only_adds|].
  split; [exact (sample_getcosmo_name [])|].
  destruct (getcosmo_named sample_collaborators "WMAP5" (World ∅ [])
              1%positive (World {[1%positive := completed_cosmo]} [])
              sample_set_omega_k_0_only_adds (sample_getcosmo_name []))
    as (Hfresh & _ & Hnew).
  split; [exact Hfresh|exact Hnew].
Defined.


(** ** The derivative of the growth factor *)

Section growth_derivative.
Context (ext : collaborators).

Lemma expansion_derivative (omega_M_0 omega_lambda_0 z : R) :
  derivable_pt_lim (λ x, omega_M_0 * (1 + x) ^ 3 + omega_lambda_0) z
    (omega_M_0 * (3 * (1 + z) ^ 2)).
Proof.
  assert (derivable_pt_lim (fct_cte 1 + id)%F z (0 + 1)) as Hbase.
  { apply derivable_pt_lim_plus;
      [apply derivable_pt_lim_const|apply derivable_pt_lim_id]. }
  pose proof (derivable_pt_lim_comp _ (λ y, y ^ 3) z _ _ Hbase
                (derivable_pt_lim_pow _ 3)) as Hcube.
  pose proof (derivable_pt_lim_plus _ _ z _ _
                (derivable_pt_lim_scal _ omega_M_0 z _ Hcube)
                (derivable_pt_lim_const omega_lambda_0 z)) as Hall.
  apply (derivable_pt_lim_ext _ (λ x, omega_M_0 * (1 + x) ^ 3 + omega_lambda_0))
    in Hall.
  2:{ intros x.
      unfold plus_fct, mult_real_fct, comp, fct_cte, id. reflexivity. }
  replace (omega_M_0 * (3 * (1 + z) ^ 2))
    with (omega_M_0 * (INR 3 * (fct_cte 1 + id)%F z ^ Init.Nat.pred 3 * (0 + 1))
          + 0); [done|].
  unfold plus_fct, fct_cte, id. simpl. ring.
Qed.

(** The bound of the growth integral.  For a positive matter density the
    function [1 / (1.5*omega_M_0*(1+x)*H(x))] of the redshift [x > -1],
    with [H] the Hubble rate, decreases at least as fast as the growth
    integral from [x] to the upper bound: the integrand is at most minus
    its slope.  As the function is positive at the upper bound, an exact
    integral from [z] is at most its value at [z]. *)
Lemma growth_bound_slope (omega_M_0 omega_lambda_0 x : R) :
  0 < omega_M_0 → 0 <= omega_lambda_0 → -1 < x →
  ∃ l,
    derivable_pt_lim
      (λ y, / (1.5 * omega_M_0 * (1 + y)
               * sqrt (omega_M_0 * (1 + y) ^ 3 + omega_lambda_0))) x l
    ∧ growth_integrand omega_M_0 omega_lambda_0 x <= - l.
Proof.
  intros HoM HoL Hx.
  assert (0 < (1 + x) ^ 3) as Hcube by (apply pow_lt; lra).
  assert (0 < omega_M_0 * (1 + x) ^ 3 + omega_lambda_0) as HE by nra.
  set (E := λ y : R, omega_M_0 * (1 + y) ^ 3 + omega_lambda_0).
  set (p := mult_real_fct (1.5 * omega_M_0) (fct_cte 1 + id)%F).
  set (q := comp sqrt E).
  assert (derivable_pt_lim p x (1.5 * omega_M_0 * (0 + 1))) as Hp.
  { apply derivable_pt_lim_scal, derivable_pt_lim_plus;
      [apply derivable_pt_lim_const|apply derivable_pt_lim_id]. }
  assert (derivable_pt_lim q x
            (/ (2 * sqrt (E x)) * (omega_M_0 * (3 * (1 + x) ^ 2)))) as Hq.
  { apply derivable_pt_lim_comp;
      [apply expansion_derivative|by apply derivable_pt_lim_sqrt]. }
  pose proof (derivable_pt_lim_mult _ _ x _ _ Hp Hq) as Hpq.
  set (s := sqrt (E x)) in *.
  assert (0 < s) as Hs by (by apply sqrt_lt_R0).
  assert (E x = s * s) as HEs by (symmetry; apply sqrt_sqrt; unfold E; lra).
  assert ((p * q)%F x = 1.5 * omega_M_0 * (1 + x) * s) as Hval.
  { unfold mult_fct, p, q, comp, mult_real_fct, plus_fct, fct_cte, id.
    reflexivity. }
  assert ((p * q)%F x ≠ 0) as Hne.
  { rewrite Hval. apply Rgt_not_eq.
    apply Rmult_lt_0_compat; [|done]. apply Rmult_lt_0_compat; lra. }
  pose proof (derivable_pt_lim_div (fct_cte 1) (p * q)%F x _ _
                (derivable_pt_lim_const 1 x) Hpq Hne) as Hinv.
  eexists. split.
  - eapply derivable_pt_lim_ext; [|exact Hinv].
    intros y. unfold div_fct, mult_fct, p, q, comp, E, mult_real_fct,
      plus_fct, fct_cte, id.
    unfold Rdiv. by rewrite Rmult_1_l.
  - rewrite Hval. unfold fct_cte, q, comp. fold s.
    unfold growth_integrand, fpow. fold (E x).
    assert (Rpower (E x) 1.5 = E x * s) as ->.
    { replace 1.5 with (1 + / 2) by lra.
      by rewrite Rpower_plus, Rpower_1, Rpower_sqrt. }
    rewrite HEs.
    assert (- ((0 * (1.5 * omega_M_0 * (1 + x) * s)
                - (1.5 * omega_M_0 * (0 + 1) * s
                   + p x * (/ (2 * s) * (omega_M_0 * (3 * (1 + x) ^ 2))))
                  * 1)
               / Rsqr (1.5 * omega_M_0 * (1 + x) * s))
            - (1 + x) / (s * s * s)
            = / (1.5 * omega_M_0 * (1 + x) ^ 2 * s)) as Hdiff.
    { unfold p, mult_real_fct, plus_fct, fct_cte, id, Rsqr.
      replace 1.5 with (3 / 2) by lra.
      field. repeat split; lra. }
    assert (0 < (1 + x) ^ 2) as Hsq by (apply pow_lt; lra).
    assert (0 < / (1.5 * omega_M_0 * (1 + x) ^ 2 * s)) as Hpos.
    { apply Rinv_0_lt_compat. apply Rmult_lt_0_compat; [|done].
      apply Rmult_lt_0_compat; [lra|done]. }
    lra.
Qed.

(** X25. [_deriv_growth] is the derivative of the normalised growth
    factor.  When the quadrature behaves as an integral at the lower bound
    [z] (its derivative there is minus the integrand) and is not zero, and
    the squared Hubble rate [omega_M_0*(1+z)^3 + omega_lambda_0] is
    positive, the value of [_deriv_growth] at [z < 200] is the derivative
    at [z] of the function that [growthfactor] computes with
    [norm=True]. *)
Theorem deriv_growth_is_derivative z cosmo omega_M_0 omega_lambda_0
    (D : R → R) dg :
  cosmo !! "omega_M_0" = Some (VNum omega_M_0) →
  cosmo !! "omega_lambda_0" = Some (VNum omega_lambda_0) →
  z < 200 →
  0 < omega_M_0 * (1 + z) ^ 3 + omega_lambda_0 →
  quad_lower_bound_derivative ext (growth_integrand omega_M_0 omega_lambda_0)
    z 200 →
  (quad ext (growth_integrand omega_M_0 omega_lambda_0) z 200).1 ≠ 0 →
  (quad ext (growth_integrand omega_M_0 omega_lambda_0) 0 200).1 ≠ 0 →
  (∀ x, x < 200 → growthfactor ext x true cosmo = Ok (D x)) →
  _deriv_growth ext z cosmo = Ok dg →
  derivable_pt_lim D z dg.
Proof.
  intros HM HL Hz HE Hquad HIz HI0 HD Hdg.
  set (I := λ x, (quad ext (growth_integrand omega_M_0 omega_lambda_0) x 200).1)
    in *.
  assert (∀ x, x < 200 →
            D x = sqrt (omega_M_0 * (1 + x) ^ 3 + omega_lambda_0) * I x / I 0)
    as HDx.
  { intros x Hx. specialize (HD x Hx).
    rewrite (growthfactor_Ok ext x cosmo omega_M_0 omega_lambda_0 Hx HM HL)
      in HD.
    by injection HD as <-. }
  rewrite (deriv_growth_Ok ext z cosmo omega_M_0 omega_lambda_0 (D z)
             Hz HM HL (HD z Hz)) in Hdg.
  injection Hdg as <-. cbv zeta.
  apply (derivable_pt_lim_locally_ext
           (λ x, sqrt (omega_M_0 * (1 + x) ^ 3 + omega_lambda_0) * I x / I 0)
           D z (z - 1) 200); [lra|intros x [_ Hx]; symmetry; by apply HDx|].
  rewrite (HDx z Hz).
  pose proof (derivable_pt_lim_comp _ sqrt z _ _
                (expansion_derivative omega_M_0 omega_lambda_0 z)
                (derivable_pt_lim_sqrt _ HE)) as Hsqrt.
  pose proof (derivable_pt_lim_scal _ (/ I 0) z _
                (derivable_pt_lim_mult _ _ z _ _ Hsqrt Hquad)) as Hall.
  apply (derivable_pt_lim_ext _
           (λ x, sqrt (omega_M_0 * (1 + x) ^ 3 + omega_lambda_0) * I x / I 0))
    in Hall.
  2:{ intros x. unfold mult_real_fct, mult_fct, comp, I. unfold Rdiv. ring. }
  change ((quad ext (growth_integrand omega_M_0 omega_lambda_0) z zmax).1)
    with (I z).
  match goal with
  | |- derivable_pt_lim _ _ ?v =>
      replace v
        with (/ I 0
              * (/ (2 * sqrt (omega_M_0 * (1 + z) ^ 3 + omega_lambda_0))
                 * (omega_M_0 * (3 * (1 + z) ^ 2))
                 * I z
                 + comp sqrt
                     (λ x, omega_M_0 * (1 + x) ^ 3 + omega_lambda_0) z
                   * - growth_integrand omega_M_0 omega_lambda_0 z));
        [exact Hall|]
  end.
  unfold comp, growth_integrand, fpow. cbn [pow] in HE |- *.
  set (Ez := omega_M_0 * ((1 + z) * ((1 + z) * ((1 + z) * 1))) + omega_lambda_0)
    in *.
  set (s := sqrt Ez).
  assert (0 < s) as Hs by (by apply sqrt_lt_R0).
  assert (Ez = s * s) as HEz by (symmetry; apply sqrt_sqrt; lra).
  assert (Rpower Ez (-0.5) = / s) as ->.
  { replace (-0.5) with (- / 2) by lra.
    by rewrite Rpower_Ropp, Rpower_sqrt. }
  assert (Rpower Ez 1.5 = Ez * s) as ->.
  { replace 1.5 with (1 + / 2) by lra.
    by rewrite Rpower_plus, Rpower_1, Rpower_sqrt. }
  assert (∀ Iz I0 s : R, Iz ≠ 0 → I0 ≠ 0 → 0 < s →
            / I0
            * (/ (2 * s) * (omega_M_0 * (3 * ((1 + z) * ((1 + z) * 1)))) * Iz
               + s * - ((1 + z) / (s * s * s)))
            = s * Iz / I0 * (/ s * (/ s * 1)) * 1.5 * omega_M_0
              * ((1 + z) * ((1 + z) * 1))
              - (1 + z) * (/ s * (/ s * (/ s * 1))) * (s * Iz / I0) / Iz)
    as Halg.
  { intros Iz I0 s0 HIz0 HI00 Hs0. replace 1.5 with (3 / 2) by lra.
    field. repeat split; (done || lra). }
  clearbody s. rewrite HEz. by apply (Halg (I z) (I 0) s).
Qed.

End growth_derivative.

Lemma anchored_quad_derivative :
  quad_lower_bound_derivative anchored_collaborators
    (growth_integrand 0.275 0.725) 0 200.
Proof.
  unfold quad_lower_bound_derivative. cbn [quad anchored_collaborators].
  unfold anchored_quad. cbn [fst].
  set (g0 := growth_integrand 0.275 0.725 0).
  pose proof (derivable_pt_lim_mult _ _ 0 _ _
                (derivable_pt_lim_minus _ _ 0 _ _
                   (derivable_pt_lim_const 200 0) (derivable_pt_lim_id 0))
                (derivable_pt_lim_const g0 0)) as Hall.
  apply (derivable_pt_lim_ext _ (λ x, (200 - x) * g0)) in Hall.
  2:{ intros x. unfold mult_fct, minus_fct, fct_cte, id. reflexivity. }
  replace (- g0)
    with ((0 - 1) * fct_cte g0 0 + (fct_cte 200 - id)%F 0 * 0); [done|].
  unfold minus_fct, fct_cte, id. ring.
Qed.

Lemma deriv_growth_is_derivative_witness :
  ∃ (D : R → R) dg,
    (∀ x, x < 200 →
       growthfactor anchored_collaborators x true resolved_cosmo = Ok (D x))
    ∧ _deriv_growth anchored_collaborators 0 resolved_cosmo = Ok dg
    ∧ derivable_pt_lim D 0 dg.
Proof.
  assert (∀ x, x < 200 →
            growthfactor anchored_collaborators x true resolved_cosmo
            = Ok (sqrt (0.275 * (1 + x) ^ 3 + 0.725)
                  * (quad anchored_collaborators
                       (growth_integrand 0.275 0.725) x zmax).1
                  / (quad anchored_collaborators
                       (growth_integrand 0.275 0.725) 0 zmax).1)) as HD.
  { intros x Hx.
    apply (growthfactor_Ok anchored_collaborators x resolved_cosmo
             0.275 0.725 Hx); reflexivity. }
  assert (0 < 200) as H200 by lra.
  pose proof (deriv_growth_Ok anchored_collaborators 0 resolved_cosmo
                0.275 0.725 _ H200 eq_refl eq_refl (HD 0 H200)) as Hdg.
  assert ((quad anchored_collaborators (growth_integrand 0.275 0.725)
             0 200).1 ≠ 0) as HI0.
  { cbn. apply Rgt_not_eq, Rmult_lt_0_compat; [lra|].
    apply growth_integrand_pos. lra. }
  eexists _, _. split; [exact HD|]. split; [exact Hdg|].
  apply (deriv_growth_is_derivative anchored_collaborators 0 resolved_cosmo
           0.275 0.725 _ _ eq_refl eq_refl H200 ltac:(lra)
           anchored_quad_derivative HI0 HI0 HD Hdg).
Defined.


(** ** Concentration and formation redshift *)

(** The factor [ln(1+c) - c/(1+c)] of the NFW mass profile is positive. *)
Lemma nfw_factor_pos (c : R) : 0 < c → 0 < ln (1 + c) - c / (1 + c).
Proof.
  intros Hc.
  assert (0 < / (1 + c)) as Hinv by (apply Rinv_0_lt_compat; lra).
  assert (- (c / (1 + c)) ≠ 0) as Hne.
  { assert (0 < c / (1 + c)) by (apply Rdiv_lt_0_compat; lra). lra. }
  pose proof (exp_ineq1 _ Hne) as Hexp.
  assert (1 + - (c / (1 + c)) = / (1 + c)) as Heq by (field; lra).
  rewrite Heq in Hexp.
  apply ln_increasing in Hexp; [|done].
  rewrite ln_exp, ln_Rinv in Hexp by lra. lra.
Qed.

Lemma cube_root_cube (y : R) : 0 < y → Rpower (y ^ 3) (1 / 3) = y.
Proof.
  intros Hy. unfold Rpower. rewrite ln_pow by done.
  replace (1 / 3 * (INR 3 * ln y)) with (ln y) by (simpl; lra).
  by apply exp_ln.
Qed.

(** X26. The formation redshift and the mean inner density.  For a
    positive concentration [c] the mean inner density
    [rho_2 = 200 * c^3 * Y(1) / Y(c)] is positive.  For a halo at a
    redshift [z > -1], in a cosmology with a positive matter density and a
    dark-energy density that is not negative, the formation redshift that
    [formationz] gives is not below [z] when [rho_2] is at least the
    scaling [A_scaling], it is [z] when the two are equal, and it is below
    [z] when [rho_2] is smaller (as long as the cube root is taken of a
    positive number). *)
Theorem formationz_not_below (c z Ascaling omega_M_0 omega_lambda_0 : R) :
  0 < c → -1 < z → 0 < Ascaling → 0 < omega_M_0 → 0 <= omega_lambda_0 →
  let rho_2 := 200 * c ^ 3 * (ln 2 - 0.5) / (ln (1 + c) - c / (1 + c)) in
  0 < rho_2
  ∧ (Ascaling <= rho_2 →
     z <= formationz c z Ascaling omega_M_0 omega_lambda_0)
  ∧ (rho_2 = Ascaling →
     formationz c z Ascaling omega_M_0 omega_lambda_0 = z)
  ∧ (rho_2 < Ascaling →
     0 < ((1 + z) ^ 3 + omega_lambda_0 / omega_M_0) * (rho_2 / Ascaling)
         - omega_lambda_0 / omega_M_0 →
     formationz c z Ascaling omega_M_0 omega_lambda_0 < z).
Proof.
  intros Hc Hz HA HoM HoL rho_2.
  pose proof (nfw_factor_pos c Hc) as HYc.
  pose proof ln_2_above_half as HY1.
  assert (0 < rho_2) as Hrho.
  { unfold rho_2. apply Rdiv_lt_0_compat; [|done].
    assert (0 < c ^ 3) by (by apply pow_lt). nra. }
  assert (formationz c z Ascaling omega_M_0 omega_lambda_0
          = Rpower (((1 + z) ^ 3 + omega_lambda_0 / omega_M_0)
                    * (rho_2 / Ascaling) - omega_lambda_0 / omega_M_0) (1 / 3)
            - 1) as -> by reflexivity.
  set (L := omega_lambda_0 / omega_M_0).
  assert (0 <= L) as HL.
  { unfold L, Rdiv. apply Rmult_le_pos; [done|].
    left. by apply Rinv_0_lt_compat. }
  set (Y := (1 + z) ^ 3).
  assert (0 < Y) as HY by (apply pow_lt; lra).
  assert (Rpower Y (1 / 3) = 1 + z) as Hroot by (apply cube_root_cube; lra).
  set (r := rho_2 / Ascaling).
  assert (0 < / Ascaling) as HiA by (by apply Rinv_0_lt_compat).
  split; [done|]. split; [|split].
  - intros Hle.
    assert (1 <= r) as Hr.
    { unfold r, Rdiv. apply (Rmult_le_reg_r Ascaling); [done|].
      rewrite Rmult_assoc, Rinv_l by lra. lra. }
    assert (Rpower Y (1 / 3) <= Rpower ((Y + L) * r - L) (1 / 3)) as Hmono.
    { apply Rle_Rpower_l; [lra|]. split; [done|]. nra. }
    lra.
  - intros Heq.
    assert (r = 1) as -> by (unfold r; rewrite Heq; field; lra).
    replace ((Y + L) * 1 - L) with Y by lra. lra.
  - intros Hlt Hinner.
    assert (r < 1) as Hr.
    { unfold r, Rdiv. apply (Rmult_lt_reg_r Ascaling); [done|].
      rewrite Rmult_assoc, Rinv_l by lra. lra. }
    assert (Rpower ((Y + L) * r - L) (1 / 3) < Rpower Y (1 / 3)) as Hmono.
    { apply Rlt_Rpower_l; [lra|]. split; [done|]. nra. }
    lra.
Qed.

Lemma formationz_not_below_witness :
  0 <= formationz 1 0 25 0.275 0.725.
Proof.
  pose proof ln_2_above_half as HY1.
  apply (formationz_not_below 1 0 25 0.275 0.725); [lra..|].
  replace (ln (1 + 1) - 1 / (1 + 1)) with (ln 2 - 0.5)
    by (replace (1 + 1) with 2 by lra; lra).
  replace (200 * 1 ^ 3 * (ln 2 - 0.5) / (ln 2 - 0.5)) with 200
    by (field; lra).
  lra.
Defined.
